(** * ascii-art: the raster-to-character mapper and the 3D scene builders

    A shallow embedding of
      - [ASCIIMapper] (src/core/svgParser.ts, second module of the file):
        [canvasToASCII], [luminanceToChar], [calculateDimensions];
      - [GeometryBuilder] (src/core/geometryBuilder.ts): [createASCIIPoints],
        [canvasToShape], [createASCIIText3D] and [parseSVGPath];
      - [SVGParser.parseToCanvas] (src/core/svgParser.ts): the size it
        gives the canvas;
      - the [ASCII3D] component (src/components/Ascii3D.tsx):
        [getCharWeight], [createASCIIText3D] and the effect's cleanup.

    JavaScript has one numeric type, the IEEE-754 binary64 float.  The
    embedding is written once over an interface [Number] of the numeric
    operations the source uses, and is run at two instances:
      - [QNum]: exact rational arithmetic (the arithmetic the formulas of the
        source are written in; storing into a [Float32Array] loses nothing);
      - [F64.Num]: the kernel's binary64 floats, with [Math.floor],
        [Math.fround] and [toFixed(2)] computed from the exact value of the
        float.
    Grid sizes, loop counters, pixel channels and string indices are integers
    in the source and are [Z] here.

    Properties that only follow the flow of data are proved for every
    instance.  Properties of the arithmetic are proved at [QNum], and are
    worded so that the code has them in binary64 too: where a rounded
    product or the [Float32Array] store can move a floor, the statement
    speaks of the floor the arithmetic at hand computes, and where binary64
    can leave [0,1] a hypothesis keeps that case out.  What follows for all
    binary64 numbers from the specification of the kernel's floats (signs,
    no NaN) is proved at [F64.Num]; single inputs and small ranges are
    evaluated there. *)

From Stdlib Require Import ZArith QArith Qround Qminmax Qabs.
From Stdlib Require Import Lia Lqa List Bool.
From Stdlib Require Import Ascii String.
From Stdlib Require Import Uint63 Floats.
Import ListNotations.

Set Implicit Arguments.
Unset Strict Implicit.

(* ================================================================== *)
(** * The embedding *)

(** ** JavaScript numbers *)

(** What [Math.floor] returns: an integer, an infinity, or NaN. *)
Inductive Floored : Type :=
| FInt (z : Z)
| FInf (negative : bool)
| FNaN.

(** [Math.max(n, f)] and [Math.min(f, n)] for an integer [n]: an infinity
    on the far side of [n] gives [n]. *)
Definition fmax (n : Z) (f : Floored) : Floored :=
  match f with
  | FInt z => FInt (Z.max n z)
  | FInf true => FInt n
  | FInf false => FInf false
  | FNaN => FNaN
  end.

Definition fmin (f : Floored) (n : Z) : Floored :=
  match f with
  | FInt z => FInt (Z.min z n)
  | FInf false => FInt n
  | FInf true => FInf true
  | FNaN => FNaN
  end.

(** The integer a number holds, where the code uses it as an index, a loop
    bound or a size; [None] for an infinity and for NaN. *)
Definition finite (f : Floored) : option Z :=
  match f with
  | FInt z => Some z
  | FInf _ | FNaN => None
  end.

(** The operations on [number] that the embedded functions use. *)
Class Number (num : Type) : Type := {
  (** an integer-valued number *)
  nofZ : Z -> num;
  (** the decimal literal [n/d] (0.299 is [nlit 299 1000]) *)
  nlit : Z -> positive -> num;
  nadd : num -> num -> num;
  nsub : num -> num -> num;
  nmul : num -> num -> num;
  ndiv : num -> num -> num;
  nneg : num -> num;
  (** [Math.sqrt] *)
  nsqrt : num -> num;
  (** [a < b] *)
  nltb : num -> num -> bool;
  (** [a === b] *)
  neqb : num -> num -> bool;
  (** [Math.max(a, b)], [Math.min(a, b)] *)
  nmax : num -> num -> num;
  nmin : num -> num -> num;
  (** [Math.floor] *)
  nfloor : num -> Floored;
  (** the value read back after a store into a [Float32Array] *)
  nfround : num -> num;
  (** [x.toFixed(2)]: the sign printed and the integer [n] with [n/100]
      closest to [|x|] (the larger on a tie); [None] when [x] is not finite *)
  ntoFixed2 : num -> option (bool * Z)
}.

Declare Scope num_scope.
Delimit Scope num_scope with num.
Infix "+" := nadd : num_scope.
Infix "-" := nsub : num_scope.
Infix "*" := nmul : num_scope.
Infix "/" := ndiv : num_scope.
Notation "- x" := (nneg x) : num_scope.

(** *** Exact rationals *)

Definition Qltb (a b : Q) : bool := negb (Qle_bool b a).

(** [toFixed(2)] on an exact value. *)
Definition QtoFixed2 (q : Q) : bool * Z :=
  (Qltb q 0, Qfloor (Qabs q * 100 + (1 # 2))).

(** Exact arithmetic has no square roots: [Math.sqrt] is a parameter of the
    instance.  Division by zero is [0] here ([Qinv 0]); the properties proved
    at this instance keep divisors non-zero. *)
Definition QNum (qsqrt : Q -> Q) : Number Q := {|
  nofZ := inject_Z;
  nlit := fun n d => Qmake n d;
  nadd := Qplus;
  nsub := Qminus;
  nmul := Qmult;
  ndiv := Qdiv;
  nneg := Qopp;
  nsqrt := qsqrt;
  nltb := Qltb;
  neqb := Qeq_bool;
  nmax := Qmax;
  nmin := Qmin;
  nfloor := fun q => FInt (Qfloor q);
  nfround := fun q => q;
  ntoFixed2 := fun q => Some (QtoFixed2 q)
|}.

(** A computable square root on rationals, rounded down to six decimals;
    exact at 0. *)
Definition Qsqrt6 (q : Q) : Q :=
  Qmake (Z.sqrt (Qnum q * Zpos (Qden q) * 10 ^ 12)) (Qden q * 1000000).

(** *** Binary64 floats *)

Module F64.

(** The float nearest to an integer (ties to even), an infinity from
    [2^1024] on.  Below [2^63] the kernel's conversion computes it. *)
Definition of_pos (p : positive) : float :=
  if (Zpos p <? 2 ^ 63)%Z
  then PrimFloat.of_uint63 (Uint63.of_Z (Zpos p))
  else SF2Prim (binary_round prec emax false p 0).

Definition of_Z (z : Z) : float :=
  match z with
  | Z0 => PrimFloat.zero
  | Zpos p => of_pos p
  | Zneg p => PrimFloat.opp (of_pos p)
  end.

(** The exact value of the finite float with sign [s], mantissa [m] and
    exponent [e]. *)
Definition value (s : bool) (m : positive) (e : Z) : Q :=
  let v := if s then Zneg m else Zpos m in
  if (0 <=? e)%Z then inject_Z (v * 2 ^ e)
  else Qmake v (Z.to_pos (2 ^ (- e))).

Definition to_Q (x : float) : option Q :=
  match Prim2SF x with
  | S754_zero _ => Some 0%Q
  | S754_finite s m e => Some (value s m e)
  | _ => None
  end.

(** [Math.floor] keeps an infinity and NaN; [-0] is the integer 0. *)
Definition floor (x : float) : Floored :=
  match Prim2SF x with
  | S754_zero _ => FInt 0
  | S754_finite s m e => FInt (Qfloor (value s m e))
  | S754_infinity s => FInf s
  | S754_nan => FNaN
  end.

(** Rounding to binary32 (precision 24, emax 128) and back. *)
Definition fround (x : float) : float :=
  match Prim2SF x with
  | S754_finite s m e => SF2Prim (binary_round 24 128 s m e)
  | _ => x
  end.

Definition is_zero (x : float) : bool := PrimFloat.eqb x PrimFloat.zero.

(** [Math.max]: NaN if either is NaN; [+0] is larger than [-0]. *)
Definition max (a b : float) : float :=
  if PrimFloat.is_nan a || PrimFloat.is_nan b then PrimFloat.nan
  else if PrimFloat.ltb a b then b
  else if PrimFloat.ltb b a then a
  else if is_zero a then PrimFloat.add a b else a.

(** [Math.min]: NaN if either is NaN; [-0] is smaller than [+0]. *)
Definition min (a b : float) : float :=
  if PrimFloat.is_nan a || PrimFloat.is_nan b then PrimFloat.nan
  else if PrimFloat.ltb a b then a
  else if PrimFloat.ltb b a then b
  else if is_zero a
       then PrimFloat.opp (PrimFloat.add (PrimFloat.opp a) (PrimFloat.opp b))
       else a.

(** A decimal literal denotes the float nearest to it, which is what the
    correctly rounded quotient of two exactly represented integers is. *)
Definition lit (n : Z) (d : positive) : float :=
  PrimFloat.div (of_Z n) (of_Z (Zpos d)).

Definition Num : Number float := {|
  nofZ := of_Z;
  nlit := lit;
  nadd := PrimFloat.add;
  nsub := PrimFloat.sub;
  nmul := PrimFloat.mul;
  ndiv := PrimFloat.div;
  nneg := PrimFloat.opp;
  nsqrt := PrimFloat.sqrt;
  nltb := PrimFloat.ltb;
  neqb := PrimFloat.eqb;
  nmax := max;
  nmin := min;
  nfloor := floor;
  nfround := fround;
  ntoFixed2 := fun x => option_map QtoFixed2 (to_Q x)
|}.

End F64.

(* ================================================================== *)
(** ** JavaScript strings and results *)

(** [s[i]]: [None] is [undefined] (index negative or past the end). *)
Definition charAt (i : Z) (s : string) : option ascii :=
  if (i <? 0)%Z then None else String.get (Z.to_nat i) s.

(** What [acc += v] appends: the character, or the text of [undefined]. *)
Definition toStr (v : option ascii) : string :=
  match v with
  | Some c => String c EmptyString
  | None => "undefined"%string
  end.

(** A call returns a value or throws. *)
Inductive result (A : Type) : Type :=
| Ok (a : A)
| Throw (message : string).
Arguments Ok {A} a.
Arguments Throw {A} message.

(** [for (let i = lo; i < hi; i++)]: the values [i] takes. *)
Definition zrange (lo hi : Z) : list Z :=
  map (fun k => (lo + Z.of_nat k)%Z) (seq 0 (Z.to_nat (hi - lo))).

(* ================================================================== *)
(** ** Typed arrays and the canvas *)

Definition dflt {A : Type} (o : option A) (d : A) : A :=
  match o with Some a => a | None => d end.

Fixpoint list_set {A : Type} (n : nat) (v : A) (l : list A) : list A :=
  match l, n with
  | [], _ => []
  | _ :: t, O => v :: t
  | h :: t, S k => h :: list_set k v t
  end.

(** An [HTMLCanvasElement]: its size, whether [getContext('2d')] gives a
    context, and the RGBA bytes [getImageData(0, 0, width, height).data]
    holds (row-major, four per pixel). *)
Record HTMLCanvasElement : Type := {
  canvas_width : Z;
  canvas_height : Z;
  canvas_context2d : bool;
  canvas_pixels : list Z
}.

(** [ctx.getImageData(0, 0, canvas.width, canvas.height)] throws an
    IndexSizeError on an empty rectangle. *)
Definition getImageData (c : HTMLCanvasElement) : result (list Z) :=
  if ((canvas_width c =? 0) || (canvas_height c =? 0))%Z
  then Throw "IndexSizeError"
  else Ok (canvas_pixels c).

(** [pixels[i]] of a [Uint8ClampedArray].  No read of the embedded code is
    out of range (see [sampled_in_range]); such a read is given 0 here. *)
Definition pixelAt (pixels : list Z) (i : Z) : Z :=
  if (i <? 0)%Z then 0%Z else nth (Z.to_nat i) pixels 0%Z.

(* ================================================================== *)
(** ** ASCIIMapper *)

Definition CHARSET_STANDARD : string := "@&#*+=-. ".

Record ASCIIResult : Type := {
  r_ascii : string;
  r_width : Z;
  (** [None] is NaN *)
  r_height : option Z
}.

(** The running totals of the sampling loops. *)
Record Sums : Type := {
  totalR : Z;
  totalG : Z;
  totalB : Z;
  totalA : Z;
  sampleCount : Z
}.

(** Lines 286-291: one pixel added to the totals. *)
Definition addSample (pixels : list Z) (s : Sums) (pixelIndex : Z) : Sums :=
  {| totalR := totalR s + pixelAt pixels pixelIndex;
     totalG := totalG s + pixelAt pixels (pixelIndex + 1);
     totalB := totalB s + pixelAt pixels (pixelIndex + 2);
     totalA := totalA s + pixelAt pixels (pixelIndex + 3);
     sampleCount := sampleCount s + 1 |}%Z.

Definition noSamples : Sums :=
  {| totalR := 0; totalG := 0; totalB := 0; totalA := 0;
     sampleCount := 0 |}%Z.

(** The rectangle [startX <= px < endX], [startY <= py < endY] summed up.
    A bound that is not an integer ([None]) runs its loop zero times: no
    number is below NaN or [-Infinity], none is above [Infinity], and a
    start of [-Infinity] comes with an end of [-Infinity] (both are
    multiples of one step). *)
Definition sampleArea (pixels : list Z) (canvasWidth : Z)
    (startX endX startY endY : option Z) : Sums :=
  let xs := match startX, endX with
            | Some a, Some b => zrange a b | _, _ => [] end in
  let ys := match startY, endY with
            | Some a, Some b => zrange a b | _, _ => [] end in
  fold_left (fun s py =>
    fold_left (fun s px =>
      addSample pixels s ((py * canvasWidth + px) * 4)%Z) xs s) ys
    noSamples.

(** [!targetHeight]: undefined, NaN and 0 are falsy. *)
Definition falsy (h : option Z) : bool :=
  match h with
  | None | Some Z0 => true
  | Some _ => false
  end.

Section ASCIIMapper.
Context {num : Type} {NUM : Number num}.
Local Open Scope num_scope.

Record ASCIIMapperOptions : Type := {
  o_width : option Z;
  o_height : option Z;
  o_characterSet : option string;
  o_invert : option bool;
  o_maintainAspectRatio : option bool;
  o_contrast : option num;
  o_edgeEnhance : option bool
}.

(** [new Float32Array(n)], a store and a load.  A store out of range is
    ignored; no load of the embedded code is out of range (the cells of the
    grid and, for interior cells, their neighbours), and such a load is
    given 0 here. *)
Definition f32_new (n : Z) : list num := repeat (nofZ 0) (Z.to_nat n).

Definition f32_set (i : Z) (v : num) (a : list num) : list num :=
  if (i <? 0)%Z then a else list_set (Z.to_nat i) (nfround v) a.

Definition f32_get (i : Z) (a : list num) : num :=
  if (i <? 0)%Z then nofZ 0 else nth (Z.to_nat i) a (nofZ 0).

(** The index [luminanceToChar] looks up:
    [Math.min(Math.floor(luminance * (characterSet.length - 1)),
              characterSet.length - 1)]; [None] is NaN or [-Infinity], at
    which a string has no character. *)
Definition luminanceIndex (luminance : num) (characterSet : string)
  : option Z :=
  let len := Z.of_nat (String.length characterSet) in
  finite (fmin (nfloor (luminance * nofZ (len - 1))) (len - 1)).

Definition luminanceToChar (luminance : num) (characterSet : string)
  : option ascii :=
  match luminanceIndex luminance characterSet with
  | Some i => charAt i characterSet
  | None => None
  end.

(** Lines 239-259: the target grid.  [width] has a default, so
    [targetWidth] is never undefined and the branch that derives it from
    the height is dead.  The height is [None] when the floor is not an
    integer: for a canvas without width, which [getImageData] then
    rejects, or when the product of the width and the canvas height is
    beyond the largest number (a grid no typed array can hold; such grids
    are outside this embedding). *)
Definition targetDimensions (canvas : HTMLCanvasElement)
    (options : ASCIIMapperOptions) : Z * option Z :=
  let targetWidth := dflt (o_width options) 80%Z in
  let targetHeight := o_height options in
  let targetHeight :=
    if dflt (o_maintainAspectRatio options) true then
      match targetHeight with
      | None =>
          finite
            (nfloor ((nofZ targetWidth * nofZ (canvas_height canvas))
                     / (nofZ (canvas_width canvas) * nofZ 2)))
      | Some _ => targetHeight
      end
    else targetHeight in
  let targetHeight :=
    if falsy targetHeight
    then finite (nfloor (nofZ targetWidth * nlit 1 2))
    else targetHeight in
  (targetWidth, targetHeight).

(** Lines 295-322: from the totals of a cell to its luminance. *)
Definition cellLuminance (s : Sums) (contrast : num) (invert : bool)
  : num :=
  let has := (0 <? sampleCount s)%Z in
  let r := if has then nofZ (totalR s) / nofZ (sampleCount s)
           else nofZ 255 in
  let g := if has then nofZ (totalG s) / nofZ (sampleCount s)
           else nofZ 255 in
  let b := if has then nofZ (totalB s) / nofZ (sampleCount s)
           else nofZ 255 in
  let a := if has then (nofZ (totalA s) / nofZ (sampleCount s)) / nofZ 255
           else nofZ 1 in
  let luminance :=
    (nlit 299 1000 * r + nlit 587 1000 * g + nlit 114 1000 * b) * a in
  let luminance :=
    if nltb a (nofZ 1) then luminance + (nofZ 255 * (nofZ 1 - a))
    else luminance in
  let luminance := luminance / nofZ 255 in
  let luminance :=
    if negb (neqb contrast (nofZ 1))
    then nmax (nofZ 0)
           (nmin (nofZ 1) ((luminance - nlit 1 2) * contrast + nlit 1 2))
    else luminance in
  if invert then nofZ 1 - luminance else luminance.

(** Lines 274-293 and the above: the luminance of target cell [(x, y)]. *)
Definition cellValue (pixels : list Z) (canvasWidth canvasHeight : Z)
    (stepX stepY : num) (contrast : num) (invert : bool) (x y : Z) : num :=
  let startX := finite (nfloor (nofZ x * stepX)) in
  let startY := finite (nfloor (nofZ y * stepY)) in
  let endX := finite (fmin (nfloor (nofZ (x + 1) * stepX)) canvasWidth) in
  let endY := finite (fmin (nfloor (nofZ (y + 1) * stepY)) canvasHeight) in
  cellLuminance (sampleArea pixels canvasWidth startX endX startY endY)
    contrast invert.

(** First pass (lines 269-327): every cell's luminance is stored at
    [y * targetWidth + x]. *)
Definition firstPass (cell : Z -> Z -> num) (targetWidth targetHeight : Z)
  : list num :=
  fold_left (fun lm y =>
    fold_left (fun lm x => f32_set (y * targetWidth + x) (cell x y) lm)
      (zrange 0 targetWidth) lm)
    (zrange 0 targetHeight)
    (f32_new (targetWidth * targetHeight)).

(** Lines 333-349: the luminance a cell is displayed with. *)
Definition displayLuminance (luminanceMap : list num)
    (targetWidth targetHeight : Z) (edgeEnhance : bool) (x y : Z) : num :=
  let L := fun i => f32_get i luminanceMap in
  let luminance := L (y * targetWidth + x)%Z in
  if edgeEnhance && (0 <? x)%Z && (x <? targetWidth - 1)%Z
     && (0 <? y)%Z && (y <? targetHeight - 1)%Z
  then
    let idx := (y * targetWidth + x)%Z in
    let gx :=
      - L (idx - targetWidth - 1)%Z + L (idx - targetWidth + 1)%Z
      - nofZ 2 * L (idx - 1)%Z + nofZ 2 * L (idx + 1)%Z
      - L (idx + targetWidth - 1)%Z + L (idx + targetWidth + 1)%Z in
    let gy :=
      - L (idx - targetWidth - 1)%Z - nofZ 2 * L (idx - targetWidth)%Z
      - L (idx - targetWidth + 1)%Z
      + L (idx + targetWidth - 1)%Z + nofZ 2 * L (idx + targetWidth)%Z
      + L (idx + targetWidth + 1)%Z in
    let edgeMagnitude := nsqrt (gx * gx + gy * gy) in
    nmax (nofZ 0) (nmin (nofZ 1) (luminance - edgeMagnitude * nlit 1 2))
  else luminance.

(** Second pass (lines 329-356): one character per cell, a line break
    after every row.  The luminance map is only read. *)
Definition secondPass (luminanceMap : list num)
    (targetWidth targetHeight : Z) (edgeEnhance : bool)
    (characterSet : string) : string :=
  fold_left (fun text y =>
    (fold_left (fun text x =>
       let luminance :=
         displayLuminance luminanceMap targetWidth targetHeight
           edgeEnhance x y in
       text ++ toStr (luminanceToChar luminance characterSet))
       (zrange 0 targetWidth) text
     ++ String "010"%char EmptyString)%string)
    (zrange 0 targetHeight) EmptyString.

Definition canvasToASCII (canvas : HTMLCanvasElement)
    (options : ASCIIMapperOptions) : result ASCIIResult :=
  let characterSet := dflt (o_characterSet options) CHARSET_STANDARD in
  let invert := dflt (o_invert options) false in
  let contrast := dflt (o_contrast options) (nofZ 1) in
  let edgeEnhance := dflt (o_edgeEnhance options) false in
  if negb (canvas_context2d canvas)
  then Throw "Cannot get canvas context"
  else
    let '(targetWidth, targetHeight) := targetDimensions canvas options in
    (* a NaN height bounds no loop and sizes an empty array, as 0 does *)
    let rows := dflt targetHeight 0%Z in
    match getImageData canvas with
    | Throw m => Throw m
    | Ok pixels =>
        let stepX := nofZ (canvas_width canvas) / nofZ targetWidth in
        let stepY := nofZ (canvas_height canvas) / nofZ rows in
        if (targetWidth * rows <? 0)%Z
        then Throw "RangeError: Invalid typed array length"
        else
          let luminanceMap :=
            firstPass
              (cellValue pixels (canvas_width canvas) (canvas_height canvas)
                 stepX stepY contrast invert)
              targetWidth rows in
          Ok {| r_ascii := secondPass luminanceMap targetWidth rows
                             edgeEnhance characterSet;
                r_width := targetWidth;
                r_height := targetHeight |}
    end.

(** Lines 388-419.  [targetWidth && !targetHeight]: 0 and undefined are
    falsy.  A dimension that is not an integer (NaN, or an infinity for a
    source without width or height) is [None]. *)
Definition calculateDimensions (sourceWidth sourceHeight : Z)
    (targetWidth targetHeight : option Z) : option Z * option Z :=
  let given := fun o => negb (falsy o) in
  if given targetWidth && negb (given targetHeight) then
    let w := dflt targetWidth 0%Z in
    (targetWidth,
     finite (nfloor ((nofZ w * nofZ sourceHeight)
                     / (nofZ sourceWidth * nofZ 2))))
  else if given targetHeight && negb (given targetWidth) then
    let h := dflt targetHeight 0%Z in
    (finite (nfloor ((nofZ h * nofZ sourceWidth * nofZ 2)
                     / nofZ sourceHeight)),
     targetHeight)
  else if given targetWidth && given targetHeight then
    (targetWidth, targetHeight)
  else
    (Some 80%Z,
     finite (nfloor ((nofZ 80 * nofZ sourceHeight)
                     / (nofZ sourceWidth * nofZ 2)))).

End ASCIIMapper.

Arguments ASCIIMapperOptions num : clear implicits.

(* ================================================================== *)
(** ** GeometryBuilder.createASCIIPoints *)

(** [for (let i = 0; i < bound; i += step)]: the values [i] takes.  With
    [step >= 1] the loop ends within [bound] rounds. *)
Fixpoint strideFrom (fuel : nat) (i step bound : Z) : list Z :=
  match fuel with
  | O => []
  | S f => if (i <? bound)%Z then i :: strideFrom f (i + step)%Z step bound
           else []
  end.

(** A step that is not a finite number ([None]: [Infinity] at density 0,
    or NaN) leaves the loop after its first round. *)
Definition stride (step : option Z) (bound : Z) : list Z :=
  match step with
  | Some st => strideFrom (Z.to_nat bound) 0 st bound
  | None => if (0 <? bound)%Z then [0%Z] else []
  end.

Section GeometryBuilder.
Context {num : Type} {NUM : Number num}.
Local Open Scope num_scope.

Record GeometryBuilderOptions : Type := {
  g_depth : option num;
  g_asciiDensity : option num
}.

(** The two arrays the point geometry is built from, three entries per
    point each. *)
Record PointCloud : Type := {
  positions : list num;
  colors : list num
}.

(** Lines 257-279: the body of the sampling loops. *)
Definition samplePoint (pixels : list Z) (canvasWidth : Z)
    (centerX centerY depth : num) (y : Z) (pc : PointCloud) (x : Z)
  : PointCloud :=
  let idx := ((y * canvasWidth + x) * 4)%Z in
  let r := pixelAt pixels idx in
  let g := pixelAt pixels (idx + 1) in
  let b := pixelAt pixels (idx + 2) in
  let a := pixelAt pixels (idx + 3) in
  if (128 <? a)%Z then
    let luminance :=
      (nlit 299 1000 * nofZ r + nlit 587 1000 * nofZ g
       + nlit 114 1000 * nofZ b) / nofZ 255 in
    let z := luminance * depth in
    {| positions := positions pc ++
         [ (nofZ x - centerX) * nlit 1 10;
           (- (nofZ y - centerY)) * nlit 1 10;
           z ];
       colors := colors pc ++
         [ nofZ r / nofZ 255; nofZ g / nofZ 255; nofZ b / nofZ 255 ] |}
  else pc.

(** [Math.max(1, Math.floor(1 / asciiDensity))]; [None] is [Infinity] or
    NaN.  At density [-0] the floor is [-Infinity] and the step is 1. *)
Definition sampleStep (asciiDensity : num) : option Z :=
  finite (fmax 1 (nfloor (nofZ 1 / asciiDensity))).

Definition createASCIIPoints (canvas : HTMLCanvasElement)
    (options : GeometryBuilderOptions) : result PointCloud :=
  let depth := dflt (g_depth options) (nofZ 10) in
  let asciiDensity := dflt (g_asciiDensity options) (nlit 6 10) in
  if negb (canvas_context2d canvas)
  then Throw "Cannot get canvas context"
  else
    match getImageData canvas with
    | Throw m => Throw m
    | Ok pixels =>
        let centerX := nofZ (canvas_width canvas) / nofZ 2 in
        let centerY := nofZ (canvas_height canvas) / nofZ 2 in
        let step := sampleStep asciiDensity in
        Ok (fold_left (fun pc y =>
              fold_left
                (samplePoint pixels (canvas_width canvas)
                   centerX centerY depth y)
                (stride step (canvas_width canvas)) pc)
              (stride step (canvas_height canvas))
              {| positions := []; colors := [] |})
    end.

End GeometryBuilder.

Arguments GeometryBuilderOptions num : clear implicits.
Arguments PointCloud num : clear implicits.

(* ================================================================== *)
(** ** The ASCII3D component *)

(** [s.includes(c)] for a one-character [c]. *)
Definition includes (s : string) (c : ascii) : bool :=
  existsb (Ascii.eqb c) (list_ascii_of_string s).

Definition heavyChars : string := "@#%&WMB8".
Definition mediumChars : string := "*+=XO0QD".
Definition lightChars : string :=
  ("-:.,'" ++ String "034"%char "`^")%string.

(** [text.split('\n')]. *)
Fixpoint split_lines (cur : string) (s : string) : list string :=
  match s with
  | EmptyString => [cur]
  | String c rest =>
      if Ascii.eqb c "010"%char then cur :: split_lines EmptyString rest
      else split_lines (cur ++ String c EmptyString) rest
  end.

(** [lines.forEach((line, lineIndex) => ...)] and
    [for (charIndex = 0; charIndex < line.length; charIndex++)]: the
    elements with their indices. *)
Definition indexed {A : Type} (l : list A) : list (Z * A) :=
  combine (map Z.of_nat (seq 0 (List.length l))) l.

(** An object of the renderer that has a [dispose()], by its identity. *)
Inductive Resource : Type :=
| GeometryRes (id : nat)
| MaterialRes (id : nat)
| TextureRes (id : nat).

Section ASCII3D.
Context {num : Type} {NUM : Number num}.
Local Open Scope num_scope.

(** Objects with an identity: two references are the same object when the
    identities agree. *)
Record Material : Type := {
  material_id : nat;
  (** the glyph drawn on the texture *)
  material_glyph : ascii;
  (** identity of the [CanvasTexture] in [map] *)
  material_map : nat
}.

Record BoxGeometry : Type := {
  geometry_id : nat;
  box_width : num;
  box_height : num;
  box_depth : num
}.

Record Mesh : Type := {
  mesh_geometry : BoxGeometry;
  mesh_material : Material;
  mesh_position : num * num * num
}.

(** The key of the geometry cache, [actualDepth.toFixed(2)]. *)
Definition DepthKey : Type := option (bool * Z).

Definition DepthKey_eqb (k1 k2 : DepthKey) : bool :=
  match k1, k2 with
  | None, None => true
  | Some (s1, n1), Some (s2, n2) => Bool.eqb s1 s2 && (n1 =? n2)%Z
  | _, _ => false
  end.

(** [Map.get]. *)
Fixpoint cache_get {K V : Type} (eqb : K -> K -> bool) (k : K)
    (m : list (K * V)) : option V :=
  match m with
  | [] => None
  | (k', v) :: rest => if eqb k k' then Some v else cache_get eqb k rest
  end.

(** [Map.set] of a key that is absent. *)
Definition cache_set {K V : Type} (k : K) (v : V) (m : list (K * V))
  : list (K * V) := m ++ [(k, v)].

(** Lines 72-81. *)
Definition getCharWeight (char : ascii) : num :=
  if includes heavyChars char then nofZ 1
  else if includes mediumChars char then nlit 7 10
  else if includes lightChars char then nlit 3 10
  else nlit 5 10.

(** Line 108. *)
Definition actualDepthOf (charDepth : num) (char : ascii) : num :=
  charDepth * (nlit 3 10 + getCharWeight char * nlit 7 10).

(** What [createASCIIText3D] has built so far: the group's meshes, the
    two caches, and the next fresh object identity. *)
Record Build : Type := {
  b_group : list Mesh;
  b_materialCache : list (ascii * Material);
  b_geometryCache : list (DepthKey * BoxGeometry);
  b_next : nat
}.

(** Lines 103-177: the loop body for one character.  [glyphContext] says
    whether the glyph canvas gives a 2D context. *)
Definition placeChar (glyphContext : bool) (charDepth : num)
    (lineCount : Z) (lineIndex : Z) (lineLength : Z)
    (st : Build) (ic : Z * ascii) : Build :=
  let '(charIndex, char) := ic in
  if Ascii.eqb char " "%char then st
  else
    let weight := getCharWeight char in
    let actualDepth := charDepth * (nlit 3 10 + weight * nlit 7 10) in
    let depthKey := ntoFixed2 actualDepth in
    let withMaterial :=
      match cache_get Ascii.eqb char (b_materialCache st) with
      | Some material => Some (material, b_materialCache st, b_next st)
      | None =>
          if glyphContext then
            let texture := b_next st in
            let material :=
              {| material_id := S texture;
                 material_glyph := char;
                 material_map := texture |} in
            Some (material, cache_set char material (b_materialCache st),
                  S (S texture))
          else None
      end in
    match withMaterial with
    | None => st
    | Some (material, materialCache, next) =>
        let '(geometry, geometryCache, next) :=
          match cache_get DepthKey_eqb depthKey (b_geometryCache st) with
          | Some geometry => (geometry, b_geometryCache st, next)
          | None =>
              let geometry :=
                {| geometry_id := next;
                   box_width := nofZ 1 * nlit 88 100;
                   box_height := nlit 16 10 * nlit 88 100;
                   box_depth := actualDepth |} in
              (geometry, cache_set depthKey geometry (b_geometryCache st),
               S next)
          end in
        let x := (nofZ charIndex - nofZ lineLength / nofZ 2) * nofZ 1 in
        let y := (nofZ lineCount / nofZ 2 - nofZ lineIndex) * nlit 16 10 in
        let z := (weight - nlit 5 10) * charDepth * nlit 2 10 in
        {| b_group := b_group st ++
             [ {| mesh_geometry := geometry;
                  mesh_material := material;
                  mesh_position := (x, y, z) |} ];
           b_materialCache := materialCache;
           b_geometryCache := geometryCache;
           b_next := next |}
    end.

(** Lines 84-182.  The material cache comes in from, and goes back to,
    [materialCacheRef.current]; the geometry cache is new in every call. *)
Definition createASCIIText3D (glyphContext : bool)
    (materialCache : list (ascii * Material)) (next : nat)
    (asciiText : string) (charDepth : num) : Build :=
  let lines :=
    filter (fun line => (0 <? String.length line)%nat)
      (split_lines EmptyString asciiText) in
  let lineCount := Z.of_nat (List.length lines) in
  fold_left (fun st il =>
    let '(lineIndex, line) := il in
    fold_left
      (placeChar glyphContext charDepth lineCount lineIndex
         (Z.of_nat (String.length line)))
      (indexed (list_ascii_of_string line)) st)
    (indexed lines)
    {| b_group := []; b_materialCache := materialCache;
       b_geometryCache := []; b_next := next |}.

(** What of the component outlives an effect run: the refs, the object
    allocator, and the objects [dispose()] has been called on. *)
Record Component : Type := {
  materialCacheRef : list (ascii * Material);
  groupRef : option (list Mesh);
  next_id : nat;
  disposed : list Resource
}.

(** [useRef(new Map())] and the other refs at mount. *)
Definition mount : Component :=
  {| materialCacheRef := []; groupRef := None; next_id := 0;
     disposed := [] |}.

(** The effect body (lines 185-329) from the parsed canvas on: the
    conversion at width 50, then the group.  A throw is caught and leaves
    the refs as they were. *)
Definition initScene (glyphContext : bool) (canvas : HTMLCanvasElement)
    (characterSet : string) (depth : num) (c : Component) : Component :=
  match canvasToASCII canvas
          {| o_width := Some 50%Z; o_height := None;
             o_characterSet := Some characterSet; o_invert := None;
             o_maintainAspectRatio := Some true; o_contrast := None;
             o_edgeEnhance := None |} with
  | Throw _ => c
  | Ok asciiResult =>
      let b := createASCIIText3D glyphContext (materialCacheRef c)
                 (next_id c) (r_ascii asciiResult) depth in
      {| materialCacheRef := b_materialCache b;
         groupRef := Some (b_group b);
         next_id := b_next b;
         disposed := disposed c |}
  end.

(** The effect's cleanup (lines 332-359), as far as the group goes:
    [child.geometry.dispose()] for every mesh, then the ref is cleared. *)
Definition cleanup (c : Component) : Component :=
  match groupRef c with
  | Some group =>
      {| materialCacheRef := materialCacheRef c;
         groupRef := None;
         next_id := next_id c;
         disposed := disposed c ++
                     map (fun m => GeometryRes (geometry_id (mesh_geometry m)))
                       group |}
  | None => c
  end.

End ASCII3D.

Arguments Material : clear implicits.
Arguments BoxGeometry num : clear implicits.
Arguments Mesh num : clear implicits.
Arguments Build num : clear implicits.
Arguments Component num : clear implicits.


(* ================================================================== *)
(** ** GeometryBuilder: the silhouette of a canvas *)

(** What a [THREE.Shape] has been told to draw, in call order. *)
Inductive PathOp (num : Type) : Type :=
| MoveTo (x y : num)
| LineTo (x y : num)
| ClosePath.
Arguments ClosePath {num}.

(** The four running bounds of the scan. *)
Record Bounds : Type := {
  minX : Z;
  maxX : Z;
  minY : Z;
  maxY : Z
}.

(** Lines 351-359 of geometryBuilder.ts: the body of the scanning loops. *)
Definition growBounds (pixels : list Z) (canvasWidth : Z) (y : Z)
    (b : Bounds) (x : Z) : Bounds :=
  let idx := ((y * canvasWidth + x) * 4)%Z in
  let a := pixelAt pixels (idx + 3) in
  if (128 <? a)%Z then
    {| minX := Z.min (minX b) x;
       maxX := Z.max (maxX b) x;
       minY := Z.min (minY b) y;
       maxY := Z.max (maxY b) y |}
  else b.

(** Lines 346-361: the bounds start at [(width, 0, height, 0)] and every
    pixel is looked at, row by row. *)
Definition scanBounds (pixels : list Z) (canvasWidth canvasHeight : Z)
  : Bounds :=
  fold_left (fun b y =>
    fold_left (growBounds pixels canvasWidth y) (zrange 0 canvasWidth) b)
    (zrange 0 canvasHeight)
    {| minX := canvasWidth; maxX := 0; minY := canvasHeight; maxY := 0 |}.

Section Silhouette.
Context {num : Type} {NUM : Number num}.
Local Open Scope num_scope.

(** Lines 335-375: the rectangle through the bounds, centred and scaled
    by 0.1, the y axis flipped. *)
Definition canvasToShape (canvas : HTMLCanvasElement)
  : result (list (PathOp num)) :=
  if negb (canvas_context2d canvas)
  then Throw "Cannot get canvas context"
  else
    match getImageData canvas with
    | Throw m => Throw m
    | Ok pixels =>
        let b := scanBounds pixels (canvas_width canvas)
                   (canvas_height canvas) in
        let centerX := nofZ (canvas_width canvas) / nofZ 2 in
        let centerY := nofZ (canvas_height canvas) / nofZ 2 in
        let scale := nlit 1 10 in
        Ok [ MoveTo ((nofZ (minX b) - centerX) * scale)
                    ((- (nofZ (minY b) - centerY)) * scale);
             LineTo ((nofZ (maxX b) - centerX) * scale)
                    ((- (nofZ (minY b) - centerY)) * scale);
             LineTo ((nofZ (maxX b) - centerX) * scale)
                    ((- (nofZ (maxY b) - centerY)) * scale);
             LineTo ((nofZ (minX b) - centerX) * scale)
                    ((- (nofZ (maxY b) - centerY)) * scale);
             ClosePath ]
    end.

End Silhouette.

(* ================================================================== *)
(** ** GeometryBuilder.createASCIIText3D *)

(** The method of [GeometryBuilder] (lines 32-105 of geometryBuilder.ts),
    not the callback of the component: its material cache is a local of the
    call, every mesh gets a box of its own, and the lines are not
    filtered. *)
Module GeometryBuilder.

Section Text.
Context {num : Type} {NUM : Number num}.
Local Open Scope num_scope.

(** What the call has built so far: the group's meshes, the material
    cache, and the next fresh object identity. *)
Record TextBuild : Type := {
  t_group : list (Mesh num);
  t_materialCache : list (ascii * Material);
  t_next : nat
}.

(** Lines 52-100: the loop body for one character.  [glyphContext] says
    whether the glyph canvas gives a 2D context. *)
Definition placeChar (glyphContext : bool) (charDepth asciiHeight : num)
    (lineIndex : Z) (lineLength : Z) (st : TextBuild) (ic : Z * ascii)
  : TextBuild :=
  let '(charIndex, char) := ic in
  if Ascii.eqb char " "%char then st
  else
    let withMaterial :=
      match cache_get Ascii.eqb char (t_materialCache st) with
      | Some material => Some (material, t_materialCache st, t_next st)
      | None =>
          if glyphContext then
            let texture := t_next st in
            let material :=
              {| material_id := S texture;
                 material_glyph := char;
                 material_map := texture |} in
            Some (material, cache_set char material (t_materialCache st),
                  S (S texture))
          else None
      end in
    match withMaterial with
    | None => st
    | Some (material, materialCache, next) =>
        let geometry :=
          {| geometry_id := next;
             box_width := nofZ 1 * nlit 8 10;
             box_height := nlit 18 10 * nlit 8 10;
             box_depth := charDepth |} in
        let x := (nofZ charIndex - nofZ lineLength / nofZ 2) * nofZ 1 in
        let y := (asciiHeight / nofZ 2 - nofZ lineIndex) * nlit 18 10 in
        {| t_group := t_group st ++
             [ {| mesh_geometry := geometry;
                  mesh_material := material;
                  mesh_position := (x, y, nofZ 0) |} ];
           t_materialCache := materialCache;
           t_next := S next |}
    end.

(** [asciiWidth] is a parameter the method does not read. *)
Definition createASCIIText3D (glyphContext : bool) (next : nat)
    (asciiText : string) (asciiWidth asciiHeight : num)
    (options : GeometryBuilderOptions num) : TextBuild :=
  let depth := dflt (g_depth options) (nofZ 2) in
  let lines := split_lines EmptyString asciiText in
  fold_left (fun st il =>
    let '(lineIndex, line) := il in
    fold_left
      (placeChar glyphContext depth asciiHeight lineIndex
         (Z.of_nat (String.length line)))
      (indexed (list_ascii_of_string line)) st)
    (indexed lines)
    {| t_group := []; t_materialCache := []; t_next := next |}.

End Text.

Arguments TextBuild num : clear implicits.

End GeometryBuilder.

(* ================================================================== *)
(** ** SVGParser.parseToCanvas: the size of the canvas *)

Section SVGParser.
Context {num : Type} {NUM : Number num}.
Local Open Scope num_scope.

(** [!x] on a number: 0, -0 and NaN are falsy (NaN is the one number that
    is not [===] to itself). *)
Definition falsyNumber (x : num) : bool :=
  neqb x (nofZ 0) || negb (neqb x x).

(** [!x] on a number that may be [undefined] ([None]). *)
Definition falsyValue (x : option num) : bool :=
  match x with
  | None => true
  | Some v => falsyNumber v
  end.

Record SVGParserOptions : Type := {
  p_maxWidth : option num;
  p_maxHeight : option num
}.

(** Lines 60-63 and 82-109 of svgParser.ts: the width and height the
    parse result reports and the canvas is sized with.  [width] and
    [height] are what [parseFloat] made of the two attributes (of ['0']
    when an attribute is missing or empty); [viewBox] is [None] when the
    attribute is missing or empty, and otherwise holds the third and
    fourth entries of [viewBox.split(/\s+/).map(parseFloat)], each
    [None] when the array is too short. *)
Definition canvasSize (width height : num)
    (viewBox : option (option num * option num))
    (options : SVGParserOptions) : num * num :=
  let maxWidth := dflt (p_maxWidth options) (nofZ 2000) in
  let maxHeight := dflt (p_maxHeight options) (nofZ 2000) in
  let '(width, height) :=
    if falsyNumber width || falsyNumber height then
      match viewBox with
      | Some (vbWidth, vbHeight) =>
          (if falsyNumber width then vbWidth else Some width,
           if falsyNumber height then vbHeight else Some height)
      | None => (Some width, Some height)
      end
    else (Some width, Some height) in
  let width := if falsyValue width then nofZ 300
               else dflt width (nofZ 300) in
  let height := if falsyValue height then nofZ 150
                else dflt height (nofZ 150) in
  let aspectRatio := width / height in
  let '(width, height) :=
    if nltb maxWidth width then (maxWidth, maxWidth / aspectRatio)
    else (width, height) in
  let '(width, height) :=
    if nltb maxHeight height then (maxHeight * aspectRatio, maxHeight)
    else (width, height) in
  (width, height).

End SVGParser.

Arguments SVGParserOptions num : clear implicits.

(* ================================================================== *)
(** ** GeometryBuilder.parseSVGPath *)

(** A character of the class [[MLHVCSQTAZ]] under the flag [i]. *)
Definition isCommandLetter (c : ascii) : bool :=
  includes "MLHVCSQTAZmlhvcsqtaz" c.

(** [\s], which is also what [trim] strips: among the code units below
    256, the tab, the line feed, the vertical tab, the form feed, the
    carriage return, the space and the no-break space. *)
Definition isWhiteSpace (c : ascii) : bool :=
  let n := nat_of_ascii c in
  ((9 <=? n) && (n <=? 13) || (n =? 32) || (n =? 160))%nat.

(** The text the second group of the pattern takes (any number of
    characters outside the class): up to the next letter of the class. *)
Fixpoint argumentText (s : string) : string :=
  match s with
  | EmptyString => EmptyString
  | String c rest =>
      if isCommandLetter c then EmptyString
      else String c (argumentText rest)
  end.

(** The matches of the pattern (a letter of the class, then any number
    of characters outside it; flags [g] and [i]), in order: each letter of
    the class with the text after it. *)
Fixpoint matches (s : string) : list (ascii * string) :=
  match s with
  | EmptyString => []
  | String c rest =>
      if isCommandLetter c then (c, argumentText rest) :: matches rest
      else matches rest
  end.

(** [toUpperCase] on a letter of the class. *)
Definition toUpperCase (c : ascii) : ascii :=
  let n := nat_of_ascii c in
  if ((97 <=? n) && (n <=? 122))%nat then ascii_of_nat (n - 32) else c.

Fixpoint trimStart (s : string) : string :=
  match s with
  | EmptyString => EmptyString
  | String c rest => if isWhiteSpace c then trimStart rest else s
  end.

Fixpoint trimEnd (s : string) : string :=
  match s with
  | EmptyString => EmptyString
  | String c rest =>
      match trimEnd rest with
      | EmptyString => if isWhiteSpace c then EmptyString
                       else String c EmptyString
      | r => String c r
      end
  end.

Definition trim (s : string) : string := trimEnd (trimStart s).

(** [s.split(/[\s,]+/)]: the pieces between the runs of separators; a
    separator at either end leaves an empty piece there. *)
Fixpoint splitRuns (sep : ascii -> bool) (cur : string) (afterSep : bool)
    (s : string) : list string :=
  match s with
  | EmptyString => [cur]
  | String c rest =>
      if sep c then
        if afterSep then splitRuns sep cur true rest
        else cur :: splitRuns sep EmptyString true rest
      else splitRuns sep (cur ++ String c EmptyString) false rest
  end.

Definition isSeparator (c : ascii) : bool :=
  isWhiteSpace c || Ascii.eqb c ","%char.

(** The objects [parseSVGPath] pushes; a field is [None] when the
    argument array is too short ([undefined]). *)
Inductive PathCommand (num : Type) : Type :=
| CmdM (x y : option num)
| CmdL (x y : option num)
| CmdH (x : option num)
| CmdV (y : option num)
| CmdC (x1 y1 x2 y2 x y : option num)
| CmdQ (x1 y1 x y : option num)
| CmdZ.
Arguments CmdZ {num}.

Section PathParser.
Context {num : Type}.
(** [parseFloat]; [None] is NaN. *)
Variable parseFloat : string -> option num.

(** Line 190: the text trimmed, split, every piece through
    [parseFloat], the NaN left out. *)
Definition pathArguments (text : string) : list num :=
  flat_map (fun piece => match parseFloat piece with
                         | Some n => [n]
                         | None => []
                         end)
    (splitRuns isSeparator EmptyString false (trim text)).

(** Lines 189-221: what one match pushes, if anything. *)
Definition pathCommand (m : ascii * string) : list (PathCommand num) :=
  let type := toUpperCase (fst m) in
  let args := pathArguments (snd m) in
  let arg := fun i => nth_error args i in
  if Ascii.eqb type "M"%char then [CmdM (arg 0%nat) (arg 1%nat)]
  else if Ascii.eqb type "L"%char then [CmdL (arg 0%nat) (arg 1%nat)]
  else if Ascii.eqb type "H"%char then [CmdH (arg 0%nat)]
  else if Ascii.eqb type "V"%char then [CmdV (arg 0%nat)]
  else if Ascii.eqb type "C"%char
  then [CmdC (arg 0%nat) (arg 1%nat) (arg 2%nat) (arg 3%nat) (arg 4%nat)
          (arg 5%nat)]
  else if Ascii.eqb type "Q"%char
  then [CmdQ (arg 0%nat) (arg 1%nat) (arg 2%nat) (arg 3%nat)]
  else if Ascii.eqb type "Z"%char then [CmdZ]
  else [].

(** Lines 183-225. *)
Definition parseSVGPath (pathData : string) : list (PathCommand num) :=
  flat_map pathCommand (matches pathData).

End PathParser.

(* ================================================================== *)
(** * Specification-side definitions

    What follows is not translated from the source: these are the notions
    the properties are stated with. *)

(** ** The conversion, cell by cell *)

(** The text of a grid: row after row, a line break after each. *)
Definition concat_str (l : list string) : string :=
  fold_right append EmptyString l.

Definition newline : string := String "010"%char EmptyString.

Definition gridText (cellText : Z -> Z -> string) (W H : Z) : string :=
  concat_str
    (map (fun y => (concat_str (map (fun x => cellText x y) (zrange 0 W))
                    ++ newline)%string)
       (zrange 0 H)).

Section EdgeEnhancement.
Context {num : Type} {NUM : Number num}.
Local Open Scope num_scope.

Definition clamp01 (v : num) : num := nmax (nofZ 0) (nmin (nofZ 1) v).

(** A cell that is not on the border of the [W x H] grid. *)
Definition interior (W H x y : Z) : bool :=
  (0 <? x)%Z && (x <? W - 1)%Z && (0 <? y)%Z && (y <? H - 1)%Z.

(** The 3 x 3 Sobel kernels over a grid of values [raw x y]. *)
Definition sobelX (raw : Z -> Z -> num) (x y : Z) : num :=
  - raw (x - 1)%Z (y - 1)%Z + raw (x + 1)%Z (y - 1)%Z
  - nofZ 2 * raw (x - 1)%Z y + nofZ 2 * raw (x + 1)%Z y
  - raw (x - 1)%Z (y + 1)%Z + raw (x + 1)%Z (y + 1)%Z.

Definition sobelY (raw : Z -> Z -> num) (x y : Z) : num :=
  - raw (x - 1)%Z (y - 1)%Z - nofZ 2 * raw x (y - 1)%Z
  - raw (x + 1)%Z (y - 1)%Z
  + raw (x - 1)%Z (y + 1)%Z + nofZ 2 * raw x (y + 1)%Z
  + raw (x + 1)%Z (y + 1)%Z.

Definition gradientMagnitude (raw : Z -> Z -> num) (x y : Z) : num :=
  nsqrt (sobelX raw x y * sobelX raw x y + sobelY raw x y * sobelY raw x y).

(** The displayed luminance as the specification words it: on interior
    cells, when enhancement is on, the raw value less half the gradient
    magnitude, clamped; the raw value everywhere else. *)
Definition enhanced (raw : Z -> Z -> num) (W H : Z) (edgeEnhance : bool)
    (x y : Z) : num :=
  if edgeEnhance && interior W H x y
  then clamp01 (raw x y - gradientMagnitude raw x y * nlit 1 2)
  else raw x y.

(** The first-pass value of cell [(x, y)] in a conversion: what the
    luminance map holds at [y * targetWidth + x]. *)
Definition rawLuminance (canvas : HTMLCanvasElement)
    (options : ASCIIMapperOptions num) (x y : Z) : num :=
  let '(targetWidth, targetHeight) := targetDimensions canvas options in
  let rows := dflt targetHeight 0%Z in
  nfround
    (cellValue (canvas_pixels canvas) (canvas_width canvas)
       (canvas_height canvas)
       (nofZ (canvas_width canvas) / nofZ targetWidth)
       (nofZ (canvas_height canvas) / nofZ rows)
       (dflt (o_contrast options) (nofZ 1))
       (dflt (o_invert options) false) x y).

End EdgeEnhancement.

(** ** The stages of a cell's luminance, in exact arithmetic *)

(** The stages of [cellLuminance]: the mean of a channel, the mean alpha as
    a fraction, the compositing against white with the normalisation, and
    the contrast and inversion. *)
Definition meanChannel (total count : Z) : Q :=
  if (0 <? count)%Z then inject_Z total / inject_Z count else inject_Z 255.

Definition meanAlpha (s : Sums) : Q :=
  if (0 <? sampleCount s)%Z
  then inject_Z (totalA s) / inject_Z (sampleCount s) / inject_Z 255
  else inject_Z 1.

Definition weightedRGB (s : Sums) : Q :=
  (299 # 1000) * meanChannel (totalR s) (sampleCount s)
  + (587 # 1000) * meanChannel (totalG s) (sampleCount s)
  + (114 # 1000) * meanChannel (totalB s) (sampleCount s).

Definition composite (L a : Q) : Q :=
  (if Qltb a (inject_Z 1) then L * a + inject_Z 255 * (inject_Z 1 - a)
   else L * a) / inject_Z 255.

Definition adjust (contrast : Q) (invert : bool) (l : Q) : Q :=
  let l := if negb (Qeq_bool contrast (inject_Z 1))
           then Qmax (inject_Z 0)
                  (Qmin (inject_Z 1) ((l - (1 # 2)) * contrast + (1 # 2)))
           else l in
  if invert then inject_Z 1 - l else l.

(** Totals of bytes: each between 0 and 255 times the number of samples. *)
Definition boundedSums (s : Sums) : Prop :=
  (0 <= sampleCount s)%Z /\
  (0 <= totalR s <= 255 * sampleCount s)%Z /\
  (0 <= totalG s <= 255 * sampleCount s)%Z /\
  (0 <= totalB s <= 255 * sampleCount s)%Z /\
  (0 <= totalA s <= 255 * sampleCount s)%Z.

(** Alpha 0 at every pixel of the canvas; alpha above 128 at every pixel. *)
Definition transparent (canvas : HTMLCanvasElement) : Prop :=
  forall k, (0 <= k < canvas_width canvas * canvas_height canvas)%Z ->
            pixelAt (canvas_pixels canvas) (k * 4 + 3)%Z = 0%Z.

Definition opaque (canvas : HTMLCanvasElement) : Prop :=
  forall k, (0 <= k < canvas_width canvas * canvas_height canvas)%Z ->
            (128 < pixelAt (canvas_pixels canvas) (k * 4 + 3))%Z.

(** The rectangle a cell samples lies within the canvas. *)
Definition withinCanvas (canvasWidth canvasHeight : Z)
    (startX endX startY endY : option Z) : Prop :=
  (forall a, startX = Some a -> (0 <= a)%Z) /\
  (forall b, endX = Some b -> (b <= canvasWidth)%Z) /\
  (forall a, startY = Some a -> (0 <= a)%Z) /\
  (forall b, endY = Some b -> (b <= canvasHeight)%Z).

(** ** Point-cloud sampling *)

(** The multiples of [step] below [bound]. *)
Definition multiplesBelow (step bound : Z) : list Z :=
  map (fun k => (k * step)%Z) (zrange 0 ((bound + step - 1) / step)).

Section PointCloudSpec.
Context {num : Type} {NUM : Number num}.

(** The pixels a sampling visits, row by row, and those of them that are
    visible (alpha above 128). *)
Definition visitedPixels (step : option Z) (canvas : HTMLCanvasElement)
  : list (Z * Z) :=
  flat_map (fun y => map (fun x => (x, y))
                       (stride step (canvas_width canvas)))
    (stride step (canvas_height canvas)).

Definition visible (canvas : HTMLCanvasElement) (p : Z * Z) : bool :=
  let '(x, y) := p in
  (128 <? pixelAt (canvas_pixels canvas)
            ((y * canvas_width canvas + x) * 4 + 3))%Z.

(** The position and the colour of the point of pixel [(x, y)]. *)
Definition pointPosition (canvas : HTMLCanvasElement) (depth : num)
    (p : Z * Z) : list num :=
  let '(x, y) := p in
  let idx := ((y * canvas_width canvas + x) * 4)%Z in
  let pixels := canvas_pixels canvas in
  let luminance :=
    ndiv (nadd (nadd (nmul (nlit 299 1000) (nofZ (pixelAt pixels idx)))
                     (nmul (nlit 587 1000) (nofZ (pixelAt pixels (idx + 1)))))
               (nmul (nlit 114 1000) (nofZ (pixelAt pixels (idx + 2)))))
         (nofZ 255) in
  [ nmul (nsub (nofZ x) (ndiv (nofZ (canvas_width canvas)) (nofZ 2)))
         (nlit 1 10);
    nmul (nneg (nsub (nofZ y) (ndiv (nofZ (canvas_height canvas)) (nofZ 2))))
         (nlit 1 10);
    nmul luminance depth ].

Definition pointColor (canvas : HTMLCanvasElement) (p : Z * Z) : list num :=
  let '(x, y) := p in
  let idx := ((y * canvas_width canvas + x) * 4)%Z in
  let pixels := canvas_pixels canvas in
  [ ndiv (nofZ (pixelAt pixels idx)) (nofZ 255);
    ndiv (nofZ (pixelAt pixels (idx + 1))) (nofZ 255);
    ndiv (nofZ (pixelAt pixels (idx + 2))) (nofZ 255) ].

(** The cloud that holds the points of the pixels [seen]. *)
Definition cloudOf (canvas : HTMLCanvasElement) (depth : num)
    (seen : list (Z * Z)) : PointCloud num :=
  {| positions := flat_map (pointPosition canvas depth) seen;
     colors := flat_map (pointColor canvas) seen |}.

End PointCloudSpec.

(** The visible pixels among those whose two coordinates are multiples of
    [step], row by row. *)
Definition sampledPixels (step : Z) (canvas : HTMLCanvasElement)
  : list (Z * Z) :=
  filter (visible canvas)
    (flat_map (fun y => map (fun x => (x, y))
                          (multiplesBelow step (canvas_width canvas)))
       (multiplesBelow step (canvas_height canvas))).

(** ** The 3D group *)

(** The characters a text puts a mesh for: those of its non-empty lines,
    in order, spaces left out. *)
Definition glyphsOfLine (line : string) : list ascii :=
  filter (fun c => negb (Ascii.eqb c " "%char)) (list_ascii_of_string line).

Definition glyphsOf (asciiText : string) : list ascii :=
  flat_map glyphsOfLine
    (filter (fun line => (0 <? String.length line)%nat)
       (split_lines EmptyString asciiText)).

Section GroupSpec.
Context {num : Type} {NUM : Number num}.
Variable charDepth : num.
Variable materialCache0 : list (ascii * Material).
Variable next0 : nat.

(** Distinct depths have distinct two-decimal keys. *)
Definition keysSeparate : Prop :=
  forall c1 c2,
    ntoFixed2 (actualDepthOf charDepth c1)
    = ntoFixed2 (actualDepthOf charDepth c2) ->
    actualDepthOf charDepth c1 = actualDepthOf charDepth c2.

(** What every stage of a construction keeps: cached geometries were made
    in this call, for the depth of a glyph with their key; what the
    incoming material cache held is still what a lookup finds. *)
Definition buildInv (st : Build num) : Prop :=
  (forall k g, In (k, g) (b_geometryCache st) ->
     (next0 <= geometry_id g)%nat /\
     exists c, k = ntoFixed2 (actualDepthOf charDepth c) /\
               box_depth g = actualDepthOf charDepth c) /\
  (forall c mat, cache_get Ascii.eqb c materialCache0 = Some mat ->
     cache_get Ascii.eqb c (b_materialCache st) = Some mat) /\
  (next0 <= b_next st)%nat.

(** The mesh put for glyph [c]. *)
Definition meshFor (c : ascii) (m : Mesh num) : Prop :=
  (next0 <= geometry_id (mesh_geometry m))%nat /\
  (keysSeparate ->
   box_depth (mesh_geometry m) = actualDepthOf charDepth c) /\
  (forall mat, cache_get Ascii.eqb c materialCache0 = Some mat ->
     mesh_material m = mat).

End GroupSpec.

(** ** Binary64 *)

(** A float that is not NaN and carries the sign [s]. *)
Definition signed (s : bool) (x : spec_float) : Prop :=
  match x with
  | S754_zero s' | S754_infinity s' | S754_finite s' _ _ => s' = s
  | S754_nan => False
  end.

(** A finite float above 0. *)
Definition finitePositive (x : float) : bool :=
  match Prim2SF x with
  | S754_finite false _ _ => true
  | _ => false
  end.

(** In binary64, the index of luminance [l] on a ramp of [n] characters. *)
Definition indexAt (l : float) (n : Z) : option Z :=
  finite (fmin (F64.floor (PrimFloat.mul l (F64.of_Z (n - 1)))) (n - 1)).

(** ** The pixels of a cell *)

(** The values [p] takes in [for (p = start; p < stop; p++)]; none when a
    bound is not an integer. *)
Definition span (start stop : option Z) : list Z :=
  match start, stop with
  | Some a, Some b => zrange a b
  | _, _ => []
  end.

(** The pixel columns that column [x] of the grid samples, on a canvas
    [size] pixels wide cut with [step]: the [startX <= px < endX] of lines
    275 and 277.  The pixel rows of row [y] of the grid are the same
    function of [stepY] and the canvas height (lines 276 and 278). *)
Definition cellSpan {num : Type} {NUM : Number num} (step : num)
    (size x : Z) : list Z :=
  span (finite (nfloor (nmul (nofZ x) step)))
    (finite (fmin (nfloor (nmul (nofZ (x + 1)) step)) size)).

(** No value twice. *)
Fixpoint distinct (l : list Z) : bool :=
  match l with
  | [] => true
  | a :: t => negb (existsb (Z.eqb a) t) && distinct t
  end.

(** In binary64, for a grid of [W] columns on [size] pixel columns: no
    pixel column is in the span of two cells, and when the grid is no wider
    than the canvas no span is empty. *)
Definition spansApart (size W : Z) : bool :=
  let spans :=
    map (cellSpan (NUM := F64.Num)
           (PrimFloat.div (F64.of_Z size) (F64.of_Z W)) size)
      (zrange 0 W) in
  distinct (List.concat spans)
  && ((size <? W)%Z
      || forallb (fun sp => negb (Nat.eqb (List.length sp) 0)) spans).

(** ** Canvases of one colour *)

(** Every pixel of the canvas is [(r, g, b, a)]. *)
Definition flat (canvas : HTMLCanvasElement) (r g b a : Z) : Prop :=
  forall k, (0 <= k < canvas_width canvas * canvas_height canvas)%Z ->
    pixelAt (canvas_pixels canvas) (k * 4) = r /\
    pixelAt (canvas_pixels canvas) (k * 4 + 1) = g /\
    pixelAt (canvas_pixels canvas) (k * 4 + 2) = b /\
    pixelAt (canvas_pixels canvas) (k * 4 + 3) = a.

(** The luminance of one pixel: its weighted channels, composited against
    white by its alpha. *)
Definition pixelLuminance (r g b a : Z) : Q :=
  composite
    ((299 # 1000) * inject_Z r + (587 # 1000) * inject_Z g
     + (114 # 1000) * inject_Z b)
    (inject_Z a / inject_Z 255).

(** ** The pixels of a canvas *)

(** Every pixel of the canvas, row by row. *)
Definition allPixels (canvas : HTMLCanvasElement) : list (Z * Z) :=
  flat_map (fun y => map (fun x => (x, y)) (zrange 0 (canvas_width canvas)))
    (zrange 0 (canvas_height canvas)).

(** Pixel [p] lies within the bounds. *)
Definition inside (b : Bounds) (p : Z * Z) : Prop :=
  (minX b <= fst p <= maxX b)%Z /\ (minY b <= snd p <= maxY b)%Z.

(** ** The caches over the life of the component *)

(** The keys the geometry cache of a group can hold: one for each of the
    four weights. *)
Definition depthKeys {num : Type} {NUM : Number num} (charDepth : num)
  : list DepthKey :=
  map (fun weight =>
         ntoFixed2 (nmul charDepth
                      (nadd (nlit 3 10) (nmul weight (nlit 7 10)))))
    [nofZ 1; nlit 7 10; nlit 3 10; nlit 5 10].

(** A material cache in which every entry was made for its key. *)
Definition keyed (cache : list (ascii * Material)) : Prop :=
  forall ch mat, In (ch, mat) cache -> material_glyph mat = ch.

(** The options the component converts with. *)
Definition sceneOptions {num : Type} (characterSet : string)
  : ASCIIMapperOptions num :=
  {| o_width := Some 50%Z; o_height := None;
     o_characterSet := Some characterSet; o_invert := None;
     o_maintainAspectRatio := Some true; o_contrast := None;
     o_edgeEnhance := None |}.

(** The states of the component: it mounts, and from then on the effect
    runs and is cleaned up, in any order and with any props. *)
Inductive reachable {num : Type} {NUM : Number num}
  : Component num -> Prop :=
| reach_mount : reachable mount
| reach_initScene (glyphContext : bool) (canvas : HTMLCanvasElement)
    (characterSet : string) (depth : num) (c : Component num) :
    reachable c ->
    reachable (initScene glyphContext canvas characterSet depth c)
| reach_cleanup (c : Component num) :
    reachable c -> reachable (cleanup c).

(** What the geometry cache keeps at every stage: no key twice, every key
    one of the four, and the box of every mesh of the group in it. *)
Definition cacheInv {num : Type} {NUM : Number num} (charDepth : num)
    (st : Build num) : Prop :=
  NoDup (map fst (b_geometryCache st)) /\
  incl (map fst (b_geometryCache st)) (depthKeys charDepth) /\
  Forall (fun m => In (mesh_geometry m) (map snd (b_geometryCache st)))
    (b_group st).

(** The mesh of character [ch] wears the material the cache holds for
    [ch], and that material was drawn for [ch]. *)
Definition dressed {num : Type} (cache : list (ascii * Material))
    (ch : ascii) (m : Mesh num) : Prop :=
  material_glyph (mesh_material m) = ch /\
  cache_get Ascii.eqb ch cache = Some (mesh_material m).

(** Without a context nothing is made for a character that has no
    material yet. *)
Definition frugal {num : Type} (materialCache : list (ascii * Material))
    (next : nat) (st : Build num) : Prop :=
  b_materialCache st = materialCache /\
  Forall (fun m => exists ch,
            cache_get Ascii.eqb ch materialCache = Some (mesh_material m))
    (b_group st) /\
  (materialCache = [] -> b_group st = [] /\ b_geometryCache st = [] /\
                         b_next st = next).

(** ** The text group of the builder *)

(** The characters of a text that are neither spaces nor line breaks, in
    reading order. *)
Definition inkOf (asciiText : string) : list ascii :=
  filter (fun c => negb (Ascii.eqb c " "%char)
                   && negb (Ascii.eqb c "010"%char))
    (list_ascii_of_string asciiText).

Section BuilderSpec.
Context {num : Type} {NUM : Number num}.

(** The mesh [GeometryBuilder.createASCIIText3D] puts for character [ch]:
    with the material the call's cache holds for [ch], drawn for [ch]; with
    a box [depth] deep; at z = 0; all of it made in this call (identities
    from [next0] on, the geometry's below [bound]). *)
Definition boxed (depth : num) (next0 : nat)
    (cache : list (ascii * Material)) (bound : nat) (ch : ascii)
    (m : Mesh num) : Prop :=
  material_glyph (mesh_material m) = ch /\
  cache_get Ascii.eqb ch cache = Some (mesh_material m) /\
  box_depth (mesh_geometry m) = depth /\
  snd (mesh_position m) = nofZ 0 /\
  (next0 <= material_map (mesh_material m))%nat /\
  (next0 <= geometry_id (mesh_geometry m) < bound)%nat.

(** What the loops keep: the cache holds for each character a material
    drawn for it and made in this call, and the group so far has the mesh
    of each character placed, every box with an identity of its own. *)
Definition textInv (depth : num) (next0 : nat) (gs : list ascii)
    (st : GeometryBuilder.TextBuild num) : Prop :=
  keyed (GeometryBuilder.t_materialCache st) /\
  (forall ch mat, In (ch, mat) (GeometryBuilder.t_materialCache st) ->
                  (next0 <= material_map mat)%nat) /\
  (next0 <= GeometryBuilder.t_next st)%nat /\
  Forall2 (boxed depth next0 (GeometryBuilder.t_materialCache st)
             (GeometryBuilder.t_next st))
    gs (GeometryBuilder.t_group st) /\
  NoDup (map (fun m => geometry_id (mesh_geometry m))
           (GeometryBuilder.t_group st)).

End BuilderSpec.

(** ** The commands of a path *)

(** The letter a command was pushed for. *)
Definition commandType {num : Type} (c : PathCommand num) : ascii :=
  match c with
  | CmdM _ _ => "M"
  | CmdL _ _ => "L"
  | CmdH _ => "H"
  | CmdV _ => "V"
  | CmdC _ _ _ _ _ _ => "C"
  | CmdQ _ _ _ _ => "Q"
  | CmdZ => "Z"
  end%char.

(** The letters [parseSVGPath] has a case for. *)
Definition handledLetter (c : ascii) : bool := includes "MLHVCQZ" c.

(* ================================================================== *)
(** * Concrete inputs *)

Definition black2x2 : HTMLCanvasElement :=
  {| canvas_width := 2; canvas_height := 2; canvas_context2d := true;
     canvas_pixels := [0; 0; 0; 255; 0; 0; 0; 255;
                       0; 0; 0; 255; 0; 0; 0; 255]%Z |}.

Definition widthOnly {num : Type} (W : Z) : ASCIIMapperOptions num :=
  {| o_width := Some W; o_height := None; o_characterSet := None;
     o_invert := None; o_maintainAspectRatio := None; o_contrast := None;
     o_edgeEnhance := None |}.

Definition black1x1 : HTMLCanvasElement :=
  {| canvas_width := 1; canvas_height := 1; canvas_context2d := true;
     canvas_pixels := [0; 0; 0; 255]%Z |}.


(** A 3 x 3 opaque canvas: the left column and the centre white, the rest
    black. *)
Definition column3x3 : HTMLCanvasElement :=
  {| canvas_width := 3; canvas_height := 3; canvas_context2d := true;
     canvas_pixels :=
       [255; 255; 255; 255;   0; 0; 0; 255;         0; 0; 0; 255;
        255; 255; 255; 255;   255; 255; 255; 255;   0; 0; 0; 255;
        255; 255; 255; 255;   0; 0; 0; 255;         0; 0; 0; 255]%Z |}.

Definition grid3x3 {num : Type} (edgeEnhance : bool)
  : ASCIIMapperOptions num :=
  {| o_width := Some 3%Z; o_height := Some 3%Z; o_characterSet := None;
     o_invert := None; o_maintainAspectRatio := None; o_contrast := None;
     o_edgeEnhance := Some edgeEnhance |}.

Definition clear2x2 : HTMLCanvasElement :=
  {| canvas_width := 2; canvas_height := 2; canvas_context2d := true;
     canvas_pixels := [0; 0; 0; 0; 0; 0; 0; 0; 0; 0; 0; 0; 0; 0; 0; 0]%Z |}.

Definition grid2x2 {num : Type} (contrast : option num)
  : ASCIIMapperOptions num :=
  {| o_width := Some 2%Z; o_height := Some 2%Z; o_characterSet := None;
     o_invert := None; o_maintainAspectRatio := None; o_contrast := contrast;
     o_edgeEnhance := None |}.

(** A 1 x 1 canvas: one white pixel of alpha 20. *)
Definition whiteAlpha20 : HTMLCanvasElement :=
  {| canvas_width := 1; canvas_height := 1; canvas_context2d := true;
     canvas_pixels := [255; 255; 255; 20]%Z |}.

Definition inverted1x1 {num : Type} : ASCIIMapperOptions num :=
  {| o_width := Some 1%Z; o_height := Some 1%Z; o_characterSet := None;
     o_invert := Some true; o_maintainAspectRatio := None;
     o_contrast := None; o_edgeEnhance := None |}.

(** A 1 x 1 canvas: one white pixel of alpha 128. *)
Definition whiteAlpha128 : HTMLCanvasElement :=
  {| canvas_width := 1; canvas_height := 1; canvas_context2d := true;
     canvas_pixels := [255; 255; 255; 128]%Z |}.

Definition atDensity {num : Type} (density : num)
  : GeometryBuilderOptions num :=
  {| g_depth := None; g_asciiDensity := Some density |}.

(** A black, opaque strip of 50 x 2 pixels: at width 50 it converts to one
    row of fifty [@]. *)
Definition strip50x2 : HTMLCanvasElement :=
  {| canvas_width := 50; canvas_height := 2; canvas_context2d := true;
     canvas_pixels := List.concat (repeat [0; 0; 0; 255]%Z 100) |}.

Definition strip50x2_text : ASCIIResult :=
  {| r_ascii := (string_of_list_ascii (repeat "@"%char 50) ++ newline)%string;
     r_width := 50; r_height := Some 1%Z |}.

(** Mount, a first group at depth 8, its cleanup, a second group at
    depth 4. *)
Definition firstGroup : Component float :=
  initScene (NUM := F64.Num) true strip50x2 "@ " (F64.of_Z 8) mount.

Definition afterCleanup : Component float := cleanup firstGroup.

Definition secondGroup : Component float :=
  initScene (NUM := F64.Num) true strip50x2 "@ " (F64.of_Z 4) afterCleanup.

Definition heightGiven {num : Type} (W H : Z) (cs : string)
    (contrast : option num) (invert edgeEnhance : bool)
  : ASCIIMapperOptions num :=
  {| o_width := Some W; o_height := Some H; o_characterSet := Some cs;
     o_invert := Some invert; o_maintainAspectRatio := None;
     o_contrast := contrast; o_edgeEnhance := Some edgeEnhance |}.

Definition withDepth {num : Type} (depth density : option num)
  : GeometryBuilderOptions num :=
  {| g_depth := depth; g_asciiDensity := density |}.

Definition clear1x1 : HTMLCanvasElement :=
  {| canvas_width := 1; canvas_height := 1; canvas_context2d := true;
     canvas_pixels := [0; 0; 0; 0]%Z |}.

(** A 1 x 1 opaque canvas of the colour (7, 251, 255). *)
Definition cyan1x1 : HTMLCanvasElement :=
  {| canvas_width := 1; canvas_height := 1; canvas_context2d := true;
     canvas_pixels := [7; 251; 255; 255]%Z |}.

Definition maxSize {num : Type} (maxWidth maxHeight : option num)
  : SVGParserOptions num :=
  {| p_maxWidth := maxWidth; p_maxHeight := maxHeight |}.

(* ================================================================== *)
(** * Properties *)

(** ** Strings and ranges *)

Lemma get_in_range (s : string) (n : nat) :
  (n < String.length s)%nat -> exists c, String.get n s = Some c.
Proof.
  revert n; induction s as [|a s IH]; intros n Hn; simpl in *.
  - lia.
  - destruct n as [|n]; [now exists a|]. apply IH; lia.
Qed.

Lemma get_out_of_range (s : string) (n : nat) :
  (String.length s <= n)%nat -> String.get n s = None.
Proof.
  revert n; induction s as [|a s IH]; intros n Hn; simpl in *.
  - reflexivity.
  - destruct n as [|n]; [lia|]. apply IH; lia.
Qed.

Lemma charAt_negative (i : Z) (s : string) : (i < 0)%Z -> charAt i s = None.
Proof.
  intros Hi; unfold charAt.
  destruct (Z.ltb_spec i 0); [reflexivity | lia].
Qed.

Lemma charAt_in_range (i : Z) (s : string) :
  (0 <= i < Z.of_nat (String.length s))%Z ->
  charAt i s = String.get (Z.to_nat i) s /\ exists c, charAt i s = Some c.
Proof.
  intros Hi; unfold charAt.
  destruct (Z.ltb_spec i 0); [lia|].
  split; [reflexivity|]. apply get_in_range; lia.
Qed.

Lemma Qfloor_lower (z : Z) (q : Q) : inject_Z z <= q -> (z <= Qfloor q)%Z.
Proof. intros H. rewrite <- (Qfloor_Z z). now apply Qfloor_resp_le. Qed.

Lemma Qfloor_upper (z : Z) (q : Q) : q <= inject_Z z -> (Qfloor q <= z)%Z.
Proof. intros H. rewrite <- (Qfloor_Z z). now apply Qfloor_resp_le. Qed.

Lemma Qfloor_eq (z : Z) (q : Q) : q == inject_Z z -> Qfloor q = z.
Proof. intros H. rewrite <- (Qfloor_Z z). now apply Qfloor_comp. Qed.

(** ** Loops as folds *)

Lemma zrange_In (lo hi i : Z) : In i (zrange lo hi) <-> (lo <= i < hi)%Z.
Proof.
  unfold zrange. rewrite in_map_iff. split.
  - intros (k & <- & Hk). apply in_seq in Hk. lia.
  - intros Hi. exists (Z.to_nat (i - lo)). split; [lia|].
    apply in_seq. lia.
Qed.

Lemma zrange_empty (lo hi : Z) : (hi <= lo)%Z -> zrange lo hi = [].
Proof.
  intros H. unfold zrange.
  replace (Z.to_nat (hi - lo)) with 0%nat by lia. reflexivity.
Qed.

Lemma zrange_snoc (lo hi : Z) :
  (lo <= hi)%Z -> zrange lo (hi + 1) = zrange lo hi ++ [hi].
Proof.
  intros H. unfold zrange.
  replace (Z.to_nat (hi + 1 - lo)) with (Z.to_nat (hi - lo) + 1)%nat by lia.
  rewrite seq_app, map_app. cbn [seq map]. do 2 f_equal. lia.
Qed.

Lemma zrange_length (lo hi : Z) :
  List.length (zrange lo hi) = Z.to_nat (hi - lo).
Proof. unfold zrange. now rewrite length_map, length_seq. Qed.

Lemma append_assoc (a b c : string) :
  ((a ++ b) ++ c = a ++ (b ++ c))%string.
Proof. induction a as [|x a IH]; simpl; [reflexivity | now rewrite IH]. Qed.

Lemma append_empty_r (a : string) : (a ++ EmptyString)%string = a.
Proof. induction a as [|x a IH]; simpl; [reflexivity | now rewrite IH]. Qed.

(** A loop that appends to a string is the concatenation of what each round
    appends. *)
Lemma fold_append {A : Type} (f : A -> string) (l : list A) (init : string) :
  fold_left (fun acc x => (acc ++ f x)%string) l init
  = (init ++ concat_str (map f l))%string.
Proof.
  revert init; induction l as [|x l IH]; intros init; simpl.
  - now rewrite append_empty_r.
  - rewrite IH. apply append_assoc.
Qed.

Lemma fold_left_ext_in {A B : Type} (f g : A -> B -> A) (l : list B) :
  (forall a b, In b l -> f a b = g a b) ->
  forall init, fold_left f l init = fold_left g l init.
Proof.
  induction l as [|x l IH]; intros E init; simpl; [reflexivity|].
  rewrite E by now left. apply IH. intros a b Hb. apply E. now right.
Qed.

Lemma secondPass_gridText {num : Type} {NUM : Number num}
    (lm : list num) (W H : Z) (edgeEnhance : bool) (cs : string) :
  secondPass lm W H edgeEnhance cs
  = gridText (fun x y =>
      toStr (luminanceToChar (displayLuminance lm W H edgeEnhance x y) cs))
      W H.
Proof.
  unfold secondPass, gridText.
  rewrite (@fold_left_ext_in _ _ _
    (fun text y => (text ++ (concat_str (map (fun x =>
        toStr (luminanceToChar
                 (displayLuminance lm W H edgeEnhance x y) cs))
        (zrange 0 W)) ++ newline))%string)).
  - now rewrite fold_append.
  - intros text y _. rewrite fold_append. apply append_assoc.
Qed.

Lemma gridText_ext (f g : Z -> Z -> string) (W H : Z) :
  (forall x y, (0 <= x < W)%Z -> (0 <= y < H)%Z -> f x y = g x y) ->
  gridText f W H = gridText g W H.
Proof.
  intros E. unfold gridText. f_equal. apply map_ext_in. intros y Hy.
  apply zrange_In in Hy. f_equal. f_equal. apply map_ext_in. intros x Hx.
  apply zrange_In in Hx. now apply E.
Qed.

(** ** The character mapper in exact arithmetic *)

Section MapperExact.
Variable qsqrt : Q -> Q.
Local Hint Extern 0 (Number Q) => exact (QNum qsqrt) : typeclass_instances.

Lemma luminanceIndex_exact (l : Q) (cs : string) :
  luminanceIndex l cs =
  Some (Z.min (Qfloor (l * inject_Z (Z.of_nat (String.length cs) - 1)))
              (Z.of_nat (String.length cs) - 1)).
Proof. reflexivity. Qed.

Lemma scaled_floor_bounds (l : Q) (k : Z) :
  0 <= l <= 1 -> (0 <= k)%Z -> (0 <= Qfloor (l * inject_Z k) <= k)%Z.
Proof.
  intros [H0 H1] Hk.
  assert (Hk' : 0 <= inject_Z k).
  { change 0 with (inject_Z 0). rewrite <- Zle_Qle. exact Hk. }
  split.
  - apply Qfloor_lower. change (inject_Z 0) with 0. nra.
  - apply Qfloor_upper. nra.
Qed.

(** Whatever the ramp, a luminance in [0,1] gives an index in
    [[0, max(n-1, -1)]]; on the empty ramp it is [-1]. *)
Lemma luminanceIndex_empty (l : Q) :
  0 <= l <= 1 -> luminanceIndex l EmptyString = Some (-1)%Z.
Proof.
  intros [H0 H1]. rewrite luminanceIndex_exact. simpl String.length.
  change (Z.of_nat 0 - 1)%Z with (-1)%Z. f_equal.
  assert (Qfloor (l * inject_Z (-1)) <= 0)%Z.
  { apply Qfloor_upper.
    change (inject_Z (-1)) with (-1 # 1). change (inject_Z 0) with 0. lra. }
  assert (-1 <= Qfloor (l * inject_Z (-1)))%Z.
  { apply Qfloor_lower. change (inject_Z (-1)) with (-1 # 1). lra. }
  lia.
Qed.

End MapperExact.

(** ** The character mapper in binary64 *)

Lemma iter_pos_invariant {A : Type} (P : A -> Prop) (f : A -> A) :
  (forall a, P a -> P (f a)) ->
  forall p a, P a -> P (iter_pos f p a).
Proof. intros Hf. induction p as [p IH|p IH|]; intros a Ha; simpl; auto. Qed.

Lemma shr_1_nonneg (mrs : shr_record) :
  (0 <= shr_m mrs)%Z -> (0 <= shr_m (shr_1 mrs))%Z.
Proof. destruct mrs as [[|[p|p|]|[p|p|]] r s]; simpl; lia. Qed.

Lemma shr_fexp_nonneg (m e : Z) (l : location) :
  (0 <= m)%Z -> (0 <= shr_m (fst (shr_fexp prec emax m e l)))%Z.
Proof.
  intros Hm. unfold shr_fexp, shr.
  assert (H0 : (0 <= shr_m (shr_record_of_loc m l))%Z)
    by (destruct l as [|[| |]]; exact Hm).
  destruct (fexp prec emax (SpecFloat.Zdigits2 m + e) - e)%Z as [|p|p];
    cbn [fst]; try exact H0.
  apply (@iter_pos_invariant _ (fun mrs => (0 <= shr_m mrs)%Z));
    [exact shr_1_nonneg | exact H0].
Qed.

Lemma round_nearest_even_nonneg (m : Z) (l : location) :
  (0 <= m)%Z -> (0 <= round_nearest_even m l)%Z.
Proof.
  intros Hm. destruct l as [|[| |]]; cbn [round_nearest_even]; try lia.
  destruct (Z.even m); lia.
Qed.

(** Rounding a mantissa that is not negative gives no NaN and keeps the
    sign. *)
Lemma binary_round_aux_signed (s : bool) (m e : Z) (l : location) :
  (0 <= m)%Z -> signed s (binary_round_aux prec emax s m e l).
Proof.
  intros Hm. unfold binary_round_aux.
  pose proof (@shr_fexp_nonneg m e l Hm) as H1.
  destruct (shr_fexp prec emax m e l) as [mrs' e']. cbn [fst] in H1.
  pose proof (@shr_fexp_nonneg
                (round_nearest_even (shr_m mrs') (loc_of_shr_record mrs'))
                e' loc_Exact
                (@round_nearest_even_nonneg _ (loc_of_shr_record mrs') H1))
    as H2.
  destruct (shr_fexp prec emax _ e' loc_Exact) as [mrs'' e'']. cbn [fst] in H2.
  destruct (shr_m mrs'') as [|p|p]; [reflexivity | | lia].
  destruct (e'' <=? emax - prec)%Z; reflexivity.
Qed.

Lemma leb_zero_signed (l : float) :
  PrimFloat.leb PrimFloat.zero l = true ->
  match Prim2SF l with
  | S754_zero _ | S754_finite false _ _ | S754_infinity false => True
  | _ => False
  end.
Proof.
  rewrite leb_spec. change (Prim2SF PrimFloat.zero) with (S754_zero false).
  destruct (Prim2SF l) as [s|[|]| |[|] m e]; cbn; try discriminate; auto.
Qed.

Lemma value_positive (m : positive) (e : Z) : 0 <= F64.value false m e.
Proof.
  unfold F64.value. destruct (0 <=? e)%Z.
  - change 0 with (inject_Z 0). rewrite <- Zle_Qle.
    pose proof (Z.pow_nonneg 2 e). nia.
  - unfold Qle. cbn. lia.
Qed.

(** In binary64 the floor of a product of a luminance that is not negative
    and a positive finite number is an integer that is not negative, or
    [Infinity]. *)
Lemma floor_mul_nonneg (l y : float) :
  PrimFloat.leb PrimFloat.zero l = true -> finitePositive y = true ->
  match F64.floor (PrimFloat.mul l y) with
  | FInt z => (0 <= z)%Z
  | FInf negative => negative = false
  | FNaN => False
  end.
Proof.
  intros Hl Hy. apply leb_zero_signed in Hl. unfold finitePositive in Hy.
  unfold F64.floor. rewrite mul_spec. unfold SF64mul.
  destruct (Prim2SF y) as [? | ? | |[|] my ey]; try discriminate.
  destruct (Prim2SF l) as [sl|[|]| |[|] ml el]; try contradiction;
    cbn [SFmul]; try reflexivity.
  pose proof (@binary_round_aux_signed (xorb false false)
                (Zpos (ml * my)) (el + ey) loc_Exact ltac:(lia)) as Hs.
  destruct (binary_round_aux prec emax (xorb false false)
              (Zpos (ml * my)) (el + ey) loc_Exact) as [s|s| |s m e];
    cbn [signed xorb] in Hs; try contradiction; subst; try reflexivity.
  apply Qfloor_lower. apply value_positive.
Qed.

(** The ramps of 2 to 4096 characters in binary64: [length - 1] is a
    finite number, luminance 0 has index 0 and luminance 1 has the last
    index. *)
Lemma ramp_lengths_binary64 :
  forallb (fun k =>
    let n := Z.of_nat k in
    finitePositive (F64.of_Z (n - 1))
    && match indexAt (F64.of_Z 0) n with
       | Some i => (i =? 0)%Z
       | None => false
       end
    && match indexAt (F64.of_Z 1) n with
       | Some i => (i =? n - 1)%Z
       | None => false
       end)
    (seq 2 4095) = true.
Proof. vm_cast_no_check (eq_refl true). Qed.

Lemma ramp_length_binary64 (n : Z) :
  (2 <= n <= 4096)%Z ->
  finitePositive (F64.of_Z (n - 1)) = true /\
  indexAt (F64.of_Z 0) n = Some 0%Z /\
  indexAt (F64.of_Z 1) n = Some (n - 1)%Z.
Proof.
  intros Hn. pose proof ramp_lengths_binary64 as H.
  rewrite forallb_forall in H. specialize (H (Z.to_nat n)).
  rewrite Z2Nat.id in H by lia. cbv zeta in H.
  assert (Hin : In (Z.to_nat n) (seq 2 4095)) by (apply in_seq; lia).
  apply H in Hin. apply andb_prop in Hin. destruct Hin as [Hin H1].
  apply andb_prop in Hin. destruct Hin as [Hf H0].
  split; [exact Hf|].
  destruct (indexAt (F64.of_Z 0) n) as [i0|]; [|discriminate].
  destruct (indexAt (F64.of_Z 1) n) as [i1|]; [|discriminate].
  apply Z.eqb_eq in H0, H1. subst. split; reflexivity.
Qed.

(** C7.  For a ramp of [n >= 2] characters, [luminanceToChar] returns the
    ramp's character at [min(floor(l * (n-1)), n-1)], the product and the
    floor taken in the arithmetic at hand: whenever the floor is an integer
    that is not negative, the index is inside the ramp and a character is
    returned.  In exact arithmetic this is so for every luminance in
    [0,1], and luminance 0 gives the character at index 0, luminance 1 the
    character at index [n-1].  In binary64 (ramps of up to 4096
    characters) it is so for every luminance that is not below 0, with the
    same two ends. *)
Theorem luminanceToChar_contract (cs : string) :
  (2 <= String.length cs)%nat ->
  let n := Z.of_nat (String.length cs) in
  (forall (num : Type) (NUM : Number num) (l : num),
     luminanceToChar l cs
     = match fmin (nfloor (nmul l (nofZ (n - 1)))) (n - 1) with
       | FInt i => charAt i cs
       | FInf _ | FNaN => None
       end) /\
  (forall (num : Type) (NUM : Number num) (l : num) (k : Z),
     nfloor (nmul l (nofZ (n - 1))) = FInt k -> (0 <= k)%Z ->
     let i := Z.min k (n - 1) in
     (0 <= i <= n - 1)%Z /\
     luminanceIndex l cs = Some i /\
     luminanceToChar l cs = String.get (Z.to_nat i) cs /\
     exists c, luminanceToChar l cs = Some c) /\
  (forall (qsqrt : Q -> Q) (l : Q), 0 <= l <= 1 ->
     let i := Z.min (Qfloor (l * inject_Z (n - 1))) (n - 1) in
     (0 <= i <= n - 1)%Z /\
     luminanceIndex (NUM := QNum qsqrt) l cs = Some i /\
     luminanceToChar (NUM := QNum qsqrt) l cs = String.get (Z.to_nat i) cs /\
     (exists c, luminanceToChar (NUM := QNum qsqrt) l cs = Some c) /\
     (l == 0 -> luminanceToChar (NUM := QNum qsqrt) l cs = String.get 0 cs) /\
     (l == 1 -> luminanceToChar (NUM := QNum qsqrt) l cs
                = String.get (String.length cs - 1) cs)) /\
  ((n <= 4096)%Z ->
   (forall l : float, PrimFloat.leb PrimFloat.zero l = true ->
      exists i c,
        luminanceIndex (NUM := F64.Num) l cs = Some i /\
        (0 <= i <= n - 1)%Z /\
        luminanceToChar (NUM := F64.Num) l cs = Some c /\
        String.get (Z.to_nat i) cs = Some c) /\
   luminanceToChar (NUM := F64.Num) (F64.of_Z 0) cs = String.get 0 cs /\
   luminanceToChar (NUM := F64.Num) (F64.of_Z 1) cs
   = String.get (String.length cs - 1) cs).
Proof.
  intros Hn n.
  assert (Hk : (0 <= n - 1)%Z) by (subst n; lia).
  assert (Hget : forall i, (0 <= i <= n - 1)%Z ->
            charAt i cs = String.get (Z.to_nat i) cs /\
            exists c, charAt i cs = Some c).
  { intros i Hi. apply charAt_in_range. fold n. lia. }
  assert (Generic : forall (num : Type) (NUM : Number num) (l : num) (k : Z),
     nfloor (nmul l (nofZ (n - 1))) = FInt k -> (0 <= k)%Z ->
     let i := Z.min k (n - 1) in
     (0 <= i <= n - 1)%Z /\
     luminanceIndex l cs = Some i /\
     luminanceToChar l cs = String.get (Z.to_nat i) cs /\
     exists c, luminanceToChar l cs = Some c).
  { intros num NUM l k Ek Hk0 i.
    assert (Hi : (0 <= i <= n - 1)%Z) by (subst i; lia).
    assert (Hidx : luminanceIndex l cs = Some i).
    { unfold luminanceIndex. fold n. rewrite Ek. reflexivity. }
    destruct (Hget i Hi) as [E [c Hc]].
    split; [exact Hi|]. split; [exact Hidx|].
    unfold luminanceToChar. rewrite Hidx.
    split; [exact E | exists c; exact Hc]. }
  split; [|split; [exact Generic|split]].
  - intros num NUM l. unfold luminanceToChar, luminanceIndex. fold n.
    destruct (fmin _ _); reflexivity.
  - intros qsqrt l Hl i.
    pose proof (scaled_floor_bounds Hl Hk) as Hb.
    destruct (Generic Q (QNum qsqrt) l (Qfloor (l * inject_Z (n - 1)))
                eq_refl ltac:(lia)) as (Hi & Hidx & Hc & Hex).
    fold i in Hi, Hidx, Hc.
    split; [exact Hi|]. split; [exact Hidx|]. split; [exact Hc|].
    split; [exact Hex|]. split.
    + intros E. rewrite Hc. f_equal.
      assert (Qfloor (l * inject_Z (n - 1)) = 0%Z) as F.
      { apply Qfloor_eq. rewrite E. change (inject_Z 0) with 0. ring. }
      subst i. rewrite F. lia.
    + intros E. rewrite Hc. f_equal.
      assert (Qfloor (l * inject_Z (n - 1)) = (n - 1)%Z) as F.
      { apply Qfloor_eq. rewrite E. ring. }
      subst i. rewrite F. subst n. lia.
  - intros Hmax.
    destruct (@ramp_length_binary64 n ltac:(subst n; lia)) as (Hf & H0 & H1).
    assert (Hidx : forall l, luminanceIndex (NUM := F64.Num) l cs
                             = indexAt l n) by reflexivity.
    split; [|split].
    + intros l Hl.
      pose proof (floor_mul_nonneg Hl Hf) as Hfl.
      assert (Hi : exists i, indexAt l n = Some i /\ (0 <= i <= n - 1)%Z).
      { unfold indexAt.
        destruct (F64.floor (PrimFloat.mul l (F64.of_Z (n - 1))))
          as [z|[|]|]; try contradiction; try discriminate;
          cbn [fmin finite]; eexists; (split; [reflexivity | lia]). }
      destruct Hi as (i & Ei & Hi).
      destruct (Hget i Hi) as [E [c Hc]].
      exists i, c. rewrite Hidx. split; [exact Ei|]. split; [exact Hi|].
      unfold luminanceToChar. rewrite Hidx, Ei.
      split; [exact Hc | rewrite <- E; exact Hc].
    + unfold luminanceToChar. rewrite Hidx, H0.
      apply (Hget 0%Z). lia.
    + unfold luminanceToChar. rewrite Hidx, H1.
      destruct (Hget (n - 1)%Z ltac:(lia)) as [E _]. rewrite E.
      f_equal. subst n. lia.
Qed.

Lemma luminanceToChar_contract_witness :
  luminanceToChar (NUM := QNum Qsqrt6) (3 # 4) CHARSET_STANDARD
  = Some "-"%char /\
  exists c,
    luminanceToChar (NUM := F64.Num)
      (PrimFloat.div (F64.of_Z 2) (F64.of_Z 3)) "abcd" = Some c.
Proof.
  split.
  - destruct (@luminanceToChar_contract CHARSET_STANDARD)
      as (_ & _ & H & _); [simpl; lia|].
    destruct (H Qsqrt6 (3 # 4)) as (_ & _ & Hc & _);
      [split; discriminate|].
    rewrite Hc. reflexivity.
  - destruct (@luminanceToChar_contract "abcd") as (_ & _ & _ & H);
      [simpl; lia|].
    destruct H as (H & _); [simpl; lia|].
    destruct (H (PrimFloat.div (F64.of_Z 2) (F64.of_Z 3)))
      as (i & c & _ & _ & Hc & _); [reflexivity|].
    exists c. exact Hc.
Defined.

(** C9.  In exact arithmetic, for a fixed ramp (any ramp, the empty one
    included) the index [luminanceToChar] looks up is monotone in the
    luminance over [0,1]. *)
Theorem luminanceIndex_monotone (qsqrt : Q -> Q) (cs : string) (l1 l2 : Q) :
  0 <= l1 -> l1 <= l2 -> l2 <= 1 ->
  exists i1 i2,
    luminanceIndex (NUM := QNum qsqrt) l1 cs = Some i1 /\
    luminanceIndex (NUM := QNum qsqrt) l2 cs = Some i2 /\
    (i1 <= i2)%Z.
Proof.
  intros H0 H12 H1.
  destruct cs as [|c cs'].
  - exists (-1)%Z, (-1)%Z.
    rewrite !luminanceIndex_empty by (split; lra).
    repeat split; lia.
  - set (cs := String c cs').
    rewrite !luminanceIndex_exact. do 2 eexists.
    split; [reflexivity|]. split; [reflexivity|].
    apply Z.min_le_compat_r. apply Qfloor_resp_le.
    assert (0 <= inject_Z (Z.of_nat (String.length cs) - 1)).
    { change 0 with (inject_Z 0). rewrite <- Zle_Qle.
      subst cs; simpl String.length; lia. }
    nra.
Qed.

Lemma luminanceIndex_monotone_witness :
  exists i1 i2,
    luminanceIndex (NUM := QNum Qsqrt6) (1 # 4) CHARSET_STANDARD = Some i1 /\
    luminanceIndex (NUM := QNum Qsqrt6) (3 # 4) CHARSET_STANDARD = Some i2 /\
    (i1 <= i2)%Z.
Proof.
  apply (@luminanceIndex_monotone Qsqrt6 CHARSET_STANDARD (1 # 4) (3 # 4));
    discriminate.
Defined.

(** ** The target grid in exact arithmetic *)

Section GridExact.
Variable qsqrt : Q -> Q.
Local Hint Extern 0 (Number Q) => exact (QNum qsqrt) : typeclass_instances.

Lemma floor_quotient (a b c d : Z) :
  nfloor (num := Q)
    (ndiv (nmul (nofZ a) (nofZ b)) (nmul (nofZ c) (nofZ d)))
  = FInt (a * b / (c * d))%Z.
Proof.
  change (FInt (Qfloor (inject_Z a * inject_Z b
                        / (inject_Z c * inject_Z d)))
          = FInt (a * b / (c * d))%Z).
  f_equal. etransitivity; [|symmetry; apply Zdiv_Qdiv].
  apply Qfloor_comp. rewrite !inject_Z_mult. reflexivity.
Qed.

Lemma floor_half (w : Z) :
  nfloor (num := Q) (nmul (nofZ w) (nlit 1 2)) = FInt (w / 2)%Z.
Proof.
  change (FInt (Qfloor (inject_Z w * (1 # 2))) = FInt (w / 2)%Z).
  f_equal. etransitivity; [|symmetry; apply Zdiv_Qdiv].
  apply Qfloor_comp. unfold Qdiv. reflexivity.
Qed.

Lemma targetDimensions_width_only (canvas : HTMLCanvasElement)
    (options : ASCIIMapperOptions Q) (W : Z) :
  o_width options = Some W -> o_height options = None ->
  dflt (o_maintainAspectRatio options) true = true ->
  targetDimensions canvas options =
  (W, Some (let h := (W * canvas_height canvas
                      / (canvas_width canvas * 2))%Z in
            if (h =? 0)%Z then (W / 2)%Z else h)).
Proof.
  intros Hw Hh Hm. unfold targetDimensions.
  rewrite Hw, Hh, Hm. cbn [dflt]. rewrite floor_quotient.
  cbv zeta. destruct (W * canvas_height canvas / (canvas_width canvas * 2))%Z
    eqn:E; cbn [falsy Z.eqb]; rewrite ?floor_half; reflexivity.
Qed.

End GridExact.

(** C1 (as the code has it), in exact arithmetic.  With only the width
    [W >= 0] given and the aspect ratio kept, a canvas of [Sw x Sh] pixels
    converts to a grid of width [W] and height [floor(W * Sh / (Sw * 2))],
    or [floor(W / 2)] when that is 0; a square canvas gives exactly
    [floor(W / 2)].
    [calculateDimensions] gives [floor(W * Sh / (Sw * 2))] for [W > 0]. *)
Theorem canvasToASCII_height_from_width (qsqrt : Q -> Q)
    (canvas : HTMLCanvasElement) (options : ASCIIMapperOptions Q) (W : Z) :
  canvas_context2d canvas = true ->
  (0 < canvas_width canvas)%Z -> (0 < canvas_height canvas)%Z ->
  (0 <= W)%Z ->
  o_width options = Some W -> o_height options = None ->
  dflt (o_maintainAspectRatio options) true = true ->
  let Sw := canvas_width canvas in
  let Sh := canvas_height canvas in
  let h := (W * Sh / (Sw * 2))%Z in
  (exists r, canvasToASCII (NUM := QNum qsqrt) canvas options = Ok r /\
             r_width r = W /\
             r_height r = Some (if (h =? 0)%Z then (W / 2)%Z else h) /\
             (Sw = Sh -> r_height r = Some (W / 2)%Z)) /\
  ((0 < W)%Z ->
   calculateDimensions (NUM := QNum qsqrt) Sw Sh (Some W) None
   = (Some W, Some h)).
Proof.
  intros Hctx Hcw Hch HW Hw Hh Hm Sw Sh h. split.
  - unfold canvasToASCII. rewrite Hctx. cbn [negb].
    rewrite (targetDimensions_width_only qsqrt canvas Hw Hh Hm).
    fold Sw Sh h. cbv zeta.
    unfold getImageData.
    destruct (Z.eqb_spec (canvas_width canvas) 0); [lia|].
    destruct (Z.eqb_spec (canvas_height canvas) 0); [lia|].
    cbn [orb dflt].
    assert (Hh0 : (0 <= h)%Z).
    { subst h. apply Z.div_pos; subst Sw Sh; nia. }
    assert (Hrows : (0 <= (if (h =? 0)%Z then W / 2 else h))%Z).
    { destruct (h =? 0)%Z; [apply Z.div_pos; lia | exact Hh0]. }
    destruct (Z.ltb_spec (W * (if (h =? 0)%Z then W / 2 else h)) 0); [nia|].
    eexists. split; [reflexivity|]. cbn [r_width r_height].
    split; [reflexivity|]. split; [reflexivity|].
    intros E. f_equal.
    assert (h = (W / 2)%Z) as ->.
    { subst h. rewrite <- E. subst Sw.
      rewrite (Z.mul_comm (canvas_width canvas) 2).
      apply Z.div_mul_cancel_r; lia. }
    destruct (W / 2 =? 0)%Z; reflexivity.
  - intros HW'. unfold calculateDimensions.
    destruct W as [|p|p]; try lia. cbn [falsy negb andb dflt].
    rewrite (floor_quotient qsqrt). reflexivity.
Qed.

Lemma canvasToASCII_height_from_width_witness :
  exists r, canvasToASCII (NUM := QNum Qsqrt6) black2x2 (widthOnly 4) = Ok r /\
            r_height r = Some 2%Z.
Proof.
  destruct (@canvasToASCII_height_from_width Qsqrt6 black2x2 (widthOnly 4) 4)
    as [(r & Hr & _ & Hh & _) _];
    try reflexivity; try lia.
  exists r. split; [exact Hr | exact Hh].
Defined.

(** C1 as stated fails: on a 2 x 2 canvas at width 4 the height is 2, while
    [floor(W * Sh / (Sw * c))] is at least 7 for every [c] in [0.5, 0.55]. *)
Lemma height_formula_counterexample :
  exists r, canvasToASCII (NUM := QNum Qsqrt6) black2x2 (widthOnly 4) = Ok r /\
    forall c : Q, 1 # 2 <= c -> c <= 11 # 20 ->
      r_height r <> Some (Qfloor (inject_Z 4 * inject_Z 2 / (inject_Z 2 * c))).
Proof.
  eexists. split; [vm_compute; reflexivity|].
  intros c Hlo Hhi. cbn [r_height].
  remember (Qfloor (inject_Z 4 * inject_Z 2 / (inject_Z 2 * c))) as q eqn:Eq.
  intros E. injection E as E. subst q.
  assert (7 <= Qfloor (inject_Z 4 * inject_Z 2 / (inject_Z 2 * c)))%Z.
  { apply Qfloor_lower. apply Qle_shift_div_l.
    - change (inject_Z 2) with (2 # 1). lra.
    - change (inject_Z 7) with (7 # 1). change (inject_Z 2) with (2 # 1).
      change (inject_Z 4) with (4 # 1). lra. }
  lia.
Qed.

(** The same grid in binary64: a 100 x 100 canvas at width 80 gives 40
    rows; the ends of the ramp in binary64. *)
Example grid_and_ramp_binary64 :
  targetDimensions (NUM := F64.Num)
    {| canvas_width := 100; canvas_height := 100; canvas_context2d := true;
       canvas_pixels := [] |} (widthOnly 80) = (80%Z, Some 40%Z) /\
  luminanceToChar (NUM := F64.Num) (F64.of_Z 0) CHARSET_STANDARD
  = Some "@"%char /\
  luminanceToChar (NUM := F64.Num) (F64.of_Z 1) CHARSET_STANDARD
  = Some " "%char.
Proof. repeat split; vm_compute; reflexivity. Qed.

(** ** The empty ramp *)





(** ** The luminance map after the first pass *)

Lemma list_set_length {A : Type} (n : nat) (v : A) (l : list A) :
  List.length (list_set n v l) = List.length l.
Proof.
  revert n; induction l as [|h t IH]; intros [|n]; simpl; auto.
Qed.

Lemma nth_list_set_eq {A : Type} (n : nat) (v d : A) (l : list A) :
  (n < List.length l)%nat -> nth n (list_set n v l) d = v.
Proof.
  revert n; induction l as [|h t IH]; intros [|n] Hn; simpl in *;
    try lia; auto. apply IH; lia.
Qed.

Lemma nth_list_set_neq {A : Type} (n m : nat) (v d : A) (l : list A) :
  n <> m -> nth m (list_set n v l) d = nth m l d.
Proof.
  revert n m; induction l as [|h t IH]; intros [|n] [|m] Hnm; simpl;
    try congruence; auto.
Qed.

Section FirstPass.
Context {num : Type} {NUM : Number num}.

Lemma f32_set_length (i : Z) (v : num) (a : list num) :
  List.length (f32_set i v a) = List.length a.
Proof.
  unfold f32_set. destruct (i <? 0)%Z; [reflexivity|].
  apply list_set_length.
Qed.

Lemma f32_get_set_eq (i : Z) (v : num) (a : list num) :
  (0 <= i < Z.of_nat (List.length a))%Z ->
  f32_get i (f32_set i v a) = nfround v.
Proof.
  intros Hi. unfold f32_get, f32_set.
  destruct (Z.ltb_spec i 0); [lia|]. apply nth_list_set_eq. lia.
Qed.

Lemma f32_get_set_neq (i j : Z) (v : num) (a : list num) :
  (0 <= j)%Z -> i <> j -> f32_get j (f32_set i v a) = f32_get j a.
Proof.
  intros Hj Hij. unfold f32_get, f32_set.
  destruct (Z.ltb_spec j 0); [lia|].
  destruct (Z.ltb_spec i 0); [reflexivity|]. apply nth_list_set_neq. lia.
Qed.

(** One row of stores: cells [base .. base + n - 1] hold the new values, the
    rest of the array is as before. *)
Lemma row_fill (f : Z -> num) (base : Z) (a : list num) (n : Z) :
  (0 <= n)%Z -> (0 <= base)%Z ->
  (base + n <= Z.of_nat (List.length a))%Z ->
  let a' := fold_left (fun lm x => f32_set (base + x) (f x) lm)
              (zrange 0 n) a in
  List.length a' = List.length a /\
  (forall x, (0 <= x < n)%Z -> f32_get (base + x) a' = nfround (f x)) /\
  (forall j, (0 <= j)%Z -> ~ (base <= j < base + n)%Z ->
             f32_get j a' = f32_get j a).
Proof.
  intros Hn. pattern n. apply natlike_ind; [| |exact Hn]; clear n Hn.
  - intros Hb Hlen. rewrite zrange_empty by lia. cbn.
    repeat split; auto. intros x Hx; lia.
  - intros n Hn IH Hb Hlen.
    destruct IH as (IHlen & IHin & IHout); [lia|lia|].
    change (Z.succ n) with (n + 1)%Z in *.
    rewrite zrange_snoc by lia. rewrite fold_left_app. cbn [fold_left].
    set (a1 := fold_left _ (zrange 0 n) a) in *.
    split; [|split].
    + rewrite f32_set_length. exact IHlen.
    + intros x Hx. destruct (Z.eq_dec x n) as [->|Hne].
      * apply f32_get_set_eq. rewrite IHlen. lia.
      * rewrite f32_get_set_neq by lia. apply IHin. lia.
    + intros j Hj Hout. rewrite f32_get_set_neq by lia. apply IHout; lia.
Qed.

Lemma f32_new_length (n : Z) :
  List.length (f32_new n) = Z.to_nat n.
Proof. unfold f32_new. apply repeat_length. Qed.

(** After the first pass the map holds, at [y * W + x], the value of cell
    [(x, y)] as a [Float32Array] keeps it. *)
Lemma firstPass_fill (cell : Z -> Z -> num) (W H : Z) :
  (0 <= W)%Z -> (0 <= H)%Z ->
  List.length (firstPass cell W H) = Z.to_nat (W * H) /\
  forall x y, (0 <= x < W)%Z -> (0 <= y < H)%Z ->
    f32_get (y * W + x) (firstPass cell W H) = nfround (cell x y).
Proof.
  intros HW HH. unfold firstPass.
  assert (G : forall k, (0 <= k)%Z -> (k <= H)%Z ->
    let a := fold_left (fun lm y =>
               fold_left (fun lm x => f32_set (y * W + x) (cell x y) lm)
                 (zrange 0 W) lm) (zrange 0 k) (f32_new (W * H)) in
    List.length a = Z.to_nat (W * H) /\
    forall x y, (0 <= x < W)%Z -> (0 <= y < k)%Z ->
      f32_get (y * W + x) a = nfround (cell x y)).
  { intros k Hk. pattern k. apply natlike_ind; [| |exact Hk]; clear k Hk.
    - intros _. rewrite (@zrange_empty 0 0) by lia. cbn.
      split; [apply f32_new_length | intros; lia].
    - intros k Hk IH HkH. destruct IH as [IHlen IHin]; [lia|].
      change (Z.succ k) with (k + 1)%Z in *.
      rewrite zrange_snoc by lia. rewrite fold_left_app. cbn [fold_left].
      set (a1 := fold_left _ (zrange 0 k) _) in *.
      destruct (@row_fill (fun x => cell x k) (k * W) a1 W)
        as (Rlen & Rin & Rout); [lia | nia | rewrite IHlen; nia |].
      split; [now rewrite Rlen|].
      intros x y Hx Hy. destruct (Z.eq_dec y k) as [->|Hne].
      + now apply Rin.
      + rewrite Rout by nia. apply IHin; lia. }
  apply (G H); lia.
Qed.

End FirstPass.

(** ** Edge enhancement *)

Section SecondPass.
Context {num : Type} {NUM : Number num}.
Local Open Scope num_scope.

(** What the second pass computes from the flat map is the enhancement of
    the grid of first-pass values: the eight loads around [y * W + x] are
    the eight neighbours of cell [(x, y)]. *)
Lemma displayLuminance_enhanced (cell : Z -> Z -> num) (W H : Z)
    (edgeEnhance : bool) (x y : Z) :
  (0 <= x < W)%Z -> (0 <= y < H)%Z ->
  displayLuminance (firstPass cell W H) W H edgeEnhance x y
  = enhanced (fun x y => nfround (cell x y)) W H edgeEnhance x y.
Proof.
  intros Hx Hy.
  destruct (@firstPass_fill _ _ cell W H) as [_ F]; try lia.
  unfold displayLuminance, enhanced, interior.
  rewrite (F x y) by lia.
  destruct edgeEnhance; cbn [andb]; [|reflexivity].
  destruct (Z.ltb_spec 0 x); cbn [andb]; [|reflexivity].
  destruct (Z.ltb_spec x (W - 1)); cbn [andb]; [|reflexivity].
  destruct (Z.ltb_spec 0 y); cbn [andb]; [|reflexivity].
  destruct (Z.ltb_spec y (H - 1)); cbn [andb]; [|reflexivity].
  unfold gradientMagnitude, sobelX, sobelY, clamp01.
  replace (y * W + x - W - 1)%Z with ((y - 1) * W + (x - 1))%Z by ring.
  replace (y * W + x - W + 1)%Z with ((y - 1) * W + (x + 1))%Z by ring.
  replace (y * W + x - W)%Z with ((y - 1) * W + x)%Z by ring.
  replace (y * W + x - 1)%Z with (y * W + (x - 1))%Z by ring.
  replace (y * W + x + 1)%Z with (y * W + (x + 1))%Z by ring.
  replace (y * W + x + W - 1)%Z with ((y + 1) * W + (x - 1))%Z by ring.
  replace (y * W + x + W + 1)%Z with ((y + 1) * W + (x + 1))%Z by ring.
  replace (y * W + x + W)%Z with ((y + 1) * W + x)%Z by ring.
  rewrite !F by lia. reflexivity.
Qed.

End SecondPass.

(** The conversion as a whole: what it throws, and otherwise the grid it
    returns, cell by cell. *)
Lemma canvasToASCII_cells {num : Type} {NUM : Number num}
    (canvas : HTMLCanvasElement) (options : ASCIIMapperOptions num) :
  canvas_context2d canvas = true ->
  canvas_width canvas <> 0%Z -> canvas_height canvas <> 0%Z ->
  let W := fst (targetDimensions canvas options) in
  let H := dflt (snd (targetDimensions canvas options)) 0%Z in
  (0 <= W * H)%Z ->
  canvasToASCII canvas options =
  Ok {| r_ascii :=
          gridText (fun x y =>
            toStr (luminanceToChar
                     (enhanced (rawLuminance canvas options) W H
                        (dflt (o_edgeEnhance options) false) x y)
                     (dflt (o_characterSet options) CHARSET_STANDARD)))
            W H;
        r_width := W;
        r_height := snd (targetDimensions canvas options) |}.
Proof.
  intros Hctx Hw Hh W H Hsz.
  unfold canvasToASCII. rewrite Hctx. cbn [negb].
  subst W H. unfold rawLuminance.
  destruct (targetDimensions canvas options) as [W H] eqn:ED.
  cbn [fst snd] in *. unfold getImageData.
  destruct (Z.eqb_spec (canvas_width canvas) 0); [contradiction|].
  destruct (Z.eqb_spec (canvas_height canvas) 0); [contradiction|].
  cbn [orb].
  destruct (Z.ltb_spec (W * dflt H 0%Z) 0); [lia|].
  do 2 f_equal.
  rewrite secondPass_gridText. apply gridText_ext. intros x y Hx Hy.
  now rewrite displayLuminance_enhanced.
Qed.

(** C6.  A conversion that does not throw returns the text of the grid in
    which cell [(x, y)] shows the character of [enhanced raw W H e x y],
    where [raw] is the grid of first-pass values: with enhancement on, an
    interior cell shows [clamp01(raw - gradientMagnitude * 0.5)], the Sobel
    gradient being taken over the eight neighbours' first-pass values, and
    a border cell shows its first-pass value. *)
Theorem canvasToASCII_edge_enhancement {num : Type} {NUM : Number num}
    (canvas : HTMLCanvasElement) (options : ASCIIMapperOptions num) :
  canvas_context2d canvas = true ->
  canvas_width canvas <> 0%Z -> canvas_height canvas <> 0%Z ->
  let W := fst (targetDimensions canvas options) in
  let H := dflt (snd (targetDimensions canvas options)) 0%Z in
  let e := dflt (o_edgeEnhance options) false in
  let cs := dflt (o_characterSet options) CHARSET_STANDARD in
  let raw := rawLuminance canvas options in
  (0 <= W * H)%Z ->
  (exists r,
     canvasToASCII canvas options = Ok r /\
     r_ascii r =
       gridText (fun x y => toStr (luminanceToChar (enhanced raw W H e x y) cs))
         W H) /\
  (forall x y, interior W H x y = true ->
     enhanced raw W H true x y
     = clamp01 (nsub (raw x y)
                  (nmul (nsqrt (nadd (nmul (sobelX raw x y) (sobelX raw x y))
                                     (nmul (sobelY raw x y) (sobelY raw x y))))
                        (nlit 1 2)))) /\
  (forall x y, interior W H x y = false -> enhanced raw W H e x y = raw x y).
Proof.
  intros Hctx Hw Hh W H e cs raw Hsz. split; [|split].
  - eexists. split; [now apply canvasToASCII_cells|]. reflexivity.
  - intros x y Hi. unfold enhanced. rewrite Hi. reflexivity.
  - intros x y Hi. unfold enhanced. rewrite Hi.
    now rewrite Bool.andb_false_r.
Qed.

Lemma canvasToASCII_edge_enhancement_witness :
  exists r,
    canvasToASCII (NUM := F64.Num) column3x3 (grid3x3 true) = Ok r /\
    r_ascii r
    = (" @@" ++ newline ++ " @@" ++ newline ++ " @@" ++ newline)%string.
Proof.
  destruct (@canvasToASCII_edge_enhancement float F64.Num column3x3
              (grid3x3 true)) as [(r & Hr & Ht) _];
    [reflexivity | discriminate | discriminate | vm_compute; discriminate |].
  exists r. split; [exact Hr|]. rewrite Ht. vm_compute. reflexivity.
Defined.

Example without_enhancement :
  canvasToASCII (NUM := F64.Num) column3x3 (grid3x3 false) =
  Ok {| r_ascii :=
          (" @@" ++ newline ++ "  @" ++ newline ++ " @@" ++ newline)%string;
        r_width := 3; r_height := Some 3%Z |}.
Proof. vm_compute. reflexivity. Qed.

(** ** The luminance of a cell in exact arithmetic *)

Lemma cellLuminance_stages (qsqrt : Q -> Q) (s : Sums) (contrast : Q)
    (invert : bool) :
  cellLuminance (NUM := QNum qsqrt) s contrast invert
  = adjust contrast invert (composite (weightedRGB s) (meanAlpha s)).
Proof. reflexivity. Qed.

Lemma Qltb_true (a b : Q) : a < b -> Qltb a b = true.
Proof.
  intros H. unfold Qltb. destruct (Qle_bool b a) eqn:E; [|reflexivity].
  apply Qle_bool_iff in E. lra.
Qed.

Lemma Qltb_false (a b : Q) : b <= a -> Qltb a b = false.
Proof.
  intros H. unfold Qltb. apply Qle_bool_iff in H. now rewrite H.
Qed.

Lemma Qltb_spec (a b : Q) :
  (Qltb a b = true /\ a < b) \/ (Qltb a b = false /\ b <= a).
Proof.
  destruct (Qlt_le_dec a b) as [H|H].
  - left. split; [now apply Qltb_true | exact H].
  - right. split; [now apply Qltb_false | exact H].
Qed.

(** Compositing a fully transparent cell gives white. *)
Lemma composite_transparent (L a : Q) : a == 0 -> composite L a == 1.
Proof.
  intros Ha. unfold composite. rewrite Qltb_true.
  - rewrite Ha. change (inject_Z 255) with (255 # 1).
    change (inject_Z 1) with 1. field.
  - rewrite Ha. reflexivity.
Qed.

Lemma composite_unit (L a : Q) :
  0 <= L <= 255 -> 0 <= a <= 1 -> 0 <= composite L a <= 1.
Proof.
  intros HL Ha. unfold composite.
  change (inject_Z 255) with (255 # 1). change (inject_Z 1) with 1.
  assert (E : forall v, 0 <= v <= 255 -> 0 <= v / (255 # 1) <= 1).
  { intros v Hv. split.
    - apply Qle_shift_div_l; lra.
    - apply Qle_shift_div_r; lra. }
  apply E. destruct (Qltb a 1); nra.
Qed.

Lemma adjust_unit (c : Q) (inv : bool) (l : Q) :
  0 <= l <= 1 -> 0 <= adjust c inv l <= 1.
Proof.
  intros Hl. unfold adjust. cbv zeta.
  change (inject_Z 0) with 0. change (inject_Z 1) with 1.
  set (v := (l - (1 # 2)) * c + (1 # 2)).
  assert (Hc : 0 <= Qmax 0 (Qmin 1 v) <= 1).
  { split; [apply Q.le_max_l|].
    apply Q.max_lub; [lra | apply Q.le_min_l]. }
  destruct (negb (Qeq_bool c 1)), inv; lra.
Qed.

Lemma adjust_white (c : Q) (l : Q) :
  l == 1 -> 1 <= c -> adjust c false l == 1.
Proof.
  intros Hl Hc. unfold adjust. cbv zeta.
  change (inject_Z 0) with 0. change (inject_Z 1) with 1.
  destruct (negb (Qeq_bool c 1)); [|exact Hl].
  assert (Hv : 1 <= (l - (1 # 2)) * c + (1 # 2)) by (rewrite Hl; lra).
  rewrite (Q.min_l _ _ Hv). apply Q.max_r. lra.
Qed.

(** ** Sampling *)

Lemma fold_left_invariant {A B : Type} (P : A -> Prop) (f : A -> B -> A)
    (l : list B) (init : A) :
  P init -> (forall a b, P a -> P (f a b)) -> P (fold_left f l init).
Proof.
  intros H0 Hstep. revert init H0.
  induction l as [|x l IH]; intros init H0; simpl; auto.
Qed.

(** What holds of no samples and is kept by adding a pixel holds of the
    totals of every rectangle. *)
Lemma sampleArea_invariant (P : Sums -> Prop) (pixels : list Z) (cw : Z)
    (startX endX startY endY : option Z) :
  P noSamples ->
  (forall s k, P s -> P (addSample pixels s (k * 4)%Z)) ->
  P (sampleArea pixels cw startX endX startY endY).
Proof.
  intros H0 Hstep. unfold sampleArea.
  apply fold_left_invariant; [exact H0|].
  intros s py Hs. apply fold_left_invariant; [exact Hs|].
  intros s' px Hs'. apply Hstep. exact Hs'.
Qed.

Lemma pixelAt_range (pixels : list Z) (i : Z) :
  Forall (fun v => (0 <= v <= 255)%Z) pixels ->
  (0 <= pixelAt pixels i <= 255)%Z.
Proof.
  intros HF. unfold pixelAt. destruct (i <? 0)%Z; [lia|].
  destruct (nth_in_or_default (Z.to_nat i) pixels 0%Z) as [Hin | ->]; [|lia].
  rewrite Forall_forall in HF. now apply HF.
Qed.

Lemma sampleArea_bounded (pixels : list Z) (cw : Z)
    (startX endX startY endY : option Z) :
  Forall (fun v => (0 <= v <= 255)%Z) pixels ->
  boundedSums (sampleArea pixels cw startX endX startY endY).
Proof.
  intros HF. apply sampleArea_invariant.
  - unfold boundedSums; cbn; lia.
  - intros s k (Hn & Hr & Hg & Hb & Ha). unfold boundedSums, addSample.
    cbn [totalR totalG totalB totalA sampleCount].
    pose proof (pixelAt_range (k * 4)%Z HF).
    pose proof (pixelAt_range (k * 4 + 1)%Z HF).
    pose proof (pixelAt_range (k * 4 + 2)%Z HF).
    pose proof (pixelAt_range (k * 4 + 3)%Z HF).
    lia.
Qed.

Lemma fold_left_invariant_in {A B : Type} (P : A -> Prop) (f : A -> B -> A)
    (l : list B) (init : A) :
  P init -> (forall a b, In b l -> P a -> P (f a b)) ->
  P (fold_left f l init).
Proof.
  revert init. induction l as [|x l IH]; intros init H0 Hstep; simpl; auto.
  apply IH; [apply Hstep; [now left | exact H0]|].
  intros a b Hb. apply Hstep. now right.
Qed.

(** Every pixel a cell samples is a pixel of the canvas: the reads of the
    sampling loops are in range. *)
Lemma sampled_in_range (cw ch : Z) (startX endX startY endY : option Z)
    (a b c d px py : Z) :
  withinCanvas cw ch startX endX startY endY ->
  startX = Some a -> endX = Some b -> startY = Some c -> endY = Some d ->
  In px (zrange a b) -> In py (zrange c d) ->
  (0 <= py * cw + px < cw * ch)%Z.
Proof.
  intros (Hsx & Hex & Hsy & Hey) Ea Eb Ec Ed Hpx Hpy.
  apply zrange_In in Hpx, Hpy.
  specialize (Hsx _ Ea). specialize (Hex _ Eb).
  specialize (Hsy _ Ec). specialize (Hey _ Ed). nia.
Qed.

(** The same as [sampleArea_invariant], for what is kept by adding a pixel
    of the canvas. *)
Lemma sampleArea_invariant_within (P : Sums -> Prop) (pixels : list Z)
    (cw ch : Z) (startX endX startY endY : option Z) :
  withinCanvas cw ch startX endX startY endY ->
  P noSamples ->
  (forall s k, (0 <= k < cw * ch)%Z -> P s ->
               P (addSample pixels s (k * 4)%Z)) ->
  P (sampleArea pixels cw startX endX startY endY).
Proof.
  intros Hin H0 Hstep. unfold sampleArea.
  destruct startY as [c|], endY as [d|];
    try (cbn [fold_left]; exact H0).
  destruct startX as [a|], endX as [b|];
    try (apply fold_left_invariant; [exact H0 | intros s py Hs; exact Hs]).
  apply fold_left_invariant_in; [exact H0|].
  intros s py Hpy Hs. apply fold_left_invariant_in; [exact Hs|].
  intros s' px Hpx Hs'. apply Hstep; [|exact Hs'].
  now apply (@sampled_in_range cw ch (Some a) (Some b) (Some c) (Some d)
               a b c d px py).
Qed.

Lemma sampleArea_transparent (canvas : HTMLCanvasElement)
    (startX endX startY endY : option Z) :
  transparent canvas ->
  withinCanvas (canvas_width canvas) (canvas_height canvas)
    startX endX startY endY ->
  totalA (sampleArea (canvas_pixels canvas) (canvas_width canvas)
            startX endX startY endY) = 0%Z.
Proof.
  intros HT Hin.
  apply (@sampleArea_invariant_within (fun s => totalA s = 0%Z)
           (canvas_pixels canvas) (canvas_width canvas)
           (canvas_height canvas)); [exact Hin | reflexivity |].
  intros s k Hk Hs. unfold addSample. cbn [totalA].
  rewrite Hs, (HT k Hk). reflexivity.
Qed.

Lemma meanChannel_range (t n : Z) :
  (0 <= t <= 255 * n)%Z -> 0 <= meanChannel t n <= 255.
Proof.
  intros Ht. unfold meanChannel. destruct (Z.ltb_spec 0 n) as [Hn|Hn].
  - assert (0 < inject_Z n)
      by (change 0 with (inject_Z 0); now rewrite <- Zlt_Qlt).
    assert (0 <= inject_Z t)
      by (change 0 with (inject_Z 0); rewrite <- Zle_Qle; lia).
    assert (inject_Z t <= 255 * inject_Z n).
    { change 255 with (inject_Z 255).
      rewrite <- inject_Z_mult, <- Zle_Qle. lia. }
    split.
    + apply Qle_shift_div_l; [assumption | lra].
    + apply Qle_shift_div_r; [assumption | lra].
  - change (inject_Z 255) with 255. lra.
Qed.

Lemma meanAlpha_range (s : Sums) :
  boundedSums s -> 0 <= meanAlpha s <= 1.
Proof.
  intros (Hn & _ & _ & _ & Ha). unfold meanAlpha.
  pose proof (meanChannel_range Ha) as M. unfold meanChannel in M.
  destruct (Z.ltb_spec 0 (sampleCount s)).
  - change (inject_Z 255) with (255 # 1). split.
    + apply Qle_shift_div_l; lra.
    + apply Qle_shift_div_r; lra.
  - change (inject_Z 1) with 1. lra.
Qed.

Lemma weightedRGB_range (s : Sums) :
  boundedSums s -> 0 <= weightedRGB s <= 255.
Proof.
  intros (Hn & Hr & Hg & Hb & _). unfold weightedRGB.
  pose proof (meanChannel_range Hr). pose proof (meanChannel_range Hg).
  pose proof (meanChannel_range Hb). lra.
Qed.

Lemma meanAlpha_transparent (s : Sums) :
  totalA s = 0%Z -> (0 < sampleCount s)%Z -> meanAlpha s == 0.
Proof.
  intros Ha Hn. unfold meanAlpha.
  destruct (Z.ltb_spec 0 (sampleCount s)); [|lia].
  rewrite Ha. unfold Qdiv. change (inject_Z 0) with 0. ring.
Qed.

(** With no sample the cell is white and opaque. *)
Lemma composite_no_samples (s : Sums) :
  (sampleCount s <= 0)%Z -> composite (weightedRGB s) (meanAlpha s) == 1.
Proof.
  intros Hn. unfold weightedRGB, meanAlpha, meanChannel.
  destruct (Z.ltb_spec 0 (sampleCount s)); [lia|]. reflexivity.
Qed.

Section CellExact.
Variable qsqrt : Q -> Q.
Local Hint Extern 0 (Number Q) => exact (QNum qsqrt) : typeclass_instances.

Lemma cellLuminance_unit (s : Sums) (contrast : Q) (invert : bool) :
  boundedSums s -> 0 <= cellLuminance s contrast invert <= 1.
Proof.
  intros Hs. rewrite cellLuminance_stages. apply adjust_unit.
  apply composite_unit;
    [now apply weightedRGB_range | now apply meanAlpha_range].
Qed.

Lemma cellLuminance_transparent (s : Sums) (contrast : Q) :
  totalA s = 0%Z -> 1 <= contrast -> cellLuminance s contrast false == 1.
Proof.
  intros Ha Hc. rewrite cellLuminance_stages. apply adjust_white; [|exact Hc].
  destruct (Z.ltb_spec 0 (sampleCount s)).
  - apply composite_transparent. now apply meanAlpha_transparent.
  - now apply composite_no_samples.
Qed.

End CellExact.

(** ** Transparent canvases and the unit interval, in exact arithmetic *)

Section GridValuesExact.
Variable qsqrt : Q -> Q.
Local Hint Extern 0 (Number Q) => exact (QNum qsqrt) : typeclass_instances.

Lemma rawLuminance_unit (canvas : HTMLCanvasElement)
    (options : ASCIIMapperOptions Q) (x y : Z) :
  Forall (fun v => (0 <= v <= 255)%Z) (canvas_pixels canvas) ->
  0 <= rawLuminance canvas options x y <= 1.
Proof.
  intros HF. unfold rawLuminance.
  destruct (targetDimensions canvas options) as [W H].
  cbn [nfround QNum]. unfold cellValue.
  apply cellLuminance_unit. now apply sampleArea_bounded.
Qed.

(** The rectangle of a cell of the grid lies within the canvas. *)
Lemma cellValue_within (cw ch x y : Z) (stepX stepY : Q) :
  (0 <= x)%Z -> (0 <= y)%Z -> 0 <= stepX -> 0 <= stepY ->
  withinCanvas cw ch
    (finite (nfloor (nmul (nofZ x) stepX)))
    (finite (fmin (nfloor (nmul (nofZ (x + 1)) stepX)) cw))
    (finite (nfloor (nmul (nofZ y) stepY)))
    (finite (fmin (nfloor (nmul (nofZ (y + 1)) stepY)) ch)).
Proof.
  intros Hx Hy Hsx Hsy.
  assert (F : forall z s, (0 <= z)%Z -> 0 <= s ->
                          (0 <= Qfloor (inject_Z z * s))%Z).
  { intros z s Hz Hs. apply Qfloor_lower. change (inject_Z 0) with 0.
    assert (0 <= inject_Z z)
      by (change 0 with (inject_Z 0); now rewrite <- Zle_Qle).
    nra. }
  cbn [nfloor nmul nofZ QNum fmin finite]. repeat split.
  - intros a [= <-]. now apply F.
  - intros b [= <-]. apply Z.le_min_r.
  - intros a [= <-]. now apply F.
  - intros b [= <-]. apply Z.le_min_r.
Qed.

Lemma rawLuminance_transparent (canvas : HTMLCanvasElement)
    (options : ASCIIMapperOptions Q) (x y : Z) :
  (0 < canvas_width canvas)%Z -> (0 < canvas_height canvas)%Z ->
  transparent canvas ->
  dflt (o_invert options) false = false ->
  1 <= dflt (o_contrast options) 1 ->
  (0 <= x < fst (targetDimensions canvas options))%Z ->
  (0 <= y < dflt (snd (targetDimensions canvas options)) 0)%Z ->
  rawLuminance canvas options x y == 1.
Proof.
  intros Hcw Hch HT Hinv Hc Hx Hy. unfold rawLuminance.
  destruct (targetDimensions canvas options) as [W H].
  cbn [fst snd] in Hx, Hy.
  cbn [nfround QNum]. unfold cellValue. rewrite Hinv.
  apply cellLuminance_transparent; [|exact Hc].
  apply sampleArea_transparent; [exact HT|].
  assert (P : forall a b, (0 < a)%Z -> (0 < b)%Z ->
                          0 <= inject_Z a / inject_Z b).
  { intros a b Ha Hb. apply Qle_shift_div_l.
    - change 0 with (inject_Z 0). now rewrite <- Zlt_Qlt.
    - change 0 with (inject_Z 0). rewrite <- inject_Z_mult, <- Zle_Qle. lia. }
  apply cellValue_within; try lia; apply P; lia.
Qed.

Lemma clamp01_unit (v : Q) : 0 <= clamp01 v <= 1.
Proof.
  unfold clamp01. cbn [nmax nmin nofZ QNum].
  change (inject_Z 0) with 0. change (inject_Z 1) with 1. split.
  - apply Q.le_max_l.
  - apply Q.max_lub; [lra | apply Q.le_min_l].
Qed.

Lemma clamp01_white (v : Q) : v == 1 -> clamp01 v == 1.
Proof.
  intros Hv. unfold clamp01. cbn [nmax nmin nofZ QNum].
  change (inject_Z 0) with 0. change (inject_Z 1) with 1.
  assert (E : Qmin 1 v == 1) by (apply Q.min_l; lra).
  rewrite Q.max_r; [exact E | lra].
Qed.

Lemma enhanced_unit (raw : Z -> Z -> Q) (W H : Z) (e : bool) (x y : Z) :
  0 <= raw x y <= 1 -> 0 <= enhanced raw W H e x y <= 1.
Proof.
  intros Hr. unfold enhanced.
  destruct (e && interior W H x y); [apply clamp01_unit | exact Hr].
Qed.

(** On a uniformly white grid the gradient is zero and enhancement changes
    nothing. *)
Lemma enhanced_white (raw : Z -> Z -> Q) (W H : Z) (e : bool) (x y : Z) :
  (forall q, q == 0 -> qsqrt q == 0) ->
  (forall x y, (0 <= x < W)%Z -> (0 <= y < H)%Z -> raw x y == 1) ->
  (0 <= x < W)%Z -> (0 <= y < H)%Z ->
  enhanced raw W H e x y == 1.
Proof.
  intros Hsqrt Hraw Hx Hy. unfold enhanced.
  destruct (e && interior W H x y) eqn:Ei; [|now apply Hraw].
  apply andb_prop in Ei. destruct Ei as [_ Ei]. unfold interior in Ei.
  repeat (apply andb_prop in Ei; destruct Ei as [Ei ?]).
  repeat match goal with
         | H : (_ <? _)%Z = true |- _ => apply Z.ltb_lt in H
         end.
  apply clamp01_white. unfold gradientMagnitude.
  assert (HX : sobelX raw x y == 0).
  { unfold sobelX. cbn [nadd nsub nmul nneg nofZ QNum].
    change (inject_Z 2) with (2 # 1).
    pose proof (Hraw (x - 1) (y - 1))%Z. pose proof (Hraw (x + 1) (y - 1))%Z.
    pose proof (Hraw (x - 1) y)%Z. pose proof (Hraw (x + 1) y)%Z.
    pose proof (Hraw (x - 1) (y + 1))%Z. pose proof (Hraw (x + 1) (y + 1))%Z.
    repeat match goal with
           | H : _ -> _ -> _ |- _ =>
               let H' := fresh in
               assert (H' := H ltac:(lia) ltac:(lia)); clear H
           end.
    lra. }
  assert (HY : sobelY raw x y == 0).
  { unfold sobelY. cbn [nadd nsub nmul nneg nofZ QNum].
    change (inject_Z 2) with (2 # 1).
    pose proof (Hraw (x - 1) (y - 1))%Z. pose proof (Hraw x (y - 1))%Z.
    pose proof (Hraw (x + 1) (y - 1))%Z. pose proof (Hraw (x - 1) (y + 1))%Z.
    pose proof (Hraw x (y + 1))%Z. pose proof (Hraw (x + 1) (y + 1))%Z.
    repeat match goal with
           | H : _ -> _ -> _ |- _ =>
               let H' := fresh in
               assert (H' := H ltac:(lia) ltac:(lia)); clear H
           end.
    lra. }
  cbn [nadd nsub nmul nsqrt nlit QNum].
  assert (HS : qsqrt (sobelX raw x y * sobelX raw x y
                      + sobelY raw x y * sobelY raw x y) == 0).
  { apply Hsqrt. rewrite HX, HY. reflexivity. }
  rewrite HS, (Hraw x y Hx Hy). reflexivity.
Qed.

(** A luminance of 1 maps to the last character of a ramp that has one. *)
Lemma luminanceToChar_white (v : Q) (cs : string) :
  v == 1 -> cs <> EmptyString ->
  luminanceToChar v cs = String.get (String.length cs - 1) cs /\
  exists last, String.get (String.length cs - 1) cs = Some last.
Proof.
  intros Hv Hcs.
  assert (Hn : (1 <= String.length cs)%nat).
  { destruct cs; [congruence | simpl; lia]. }
  unfold luminanceToChar. rewrite luminanceIndex_exact.
  set (n := Z.of_nat (String.length cs)).
  assert (F : Qfloor (v * inject_Z (n - 1)) = (n - 1)%Z).
  { apply Qfloor_eq. rewrite Hv. ring. }
  rewrite F, Z.min_id.
  destruct (@charAt_in_range (n - 1)%Z cs) as [G _]; [subst n; lia|].
  rewrite G. replace (Z.to_nat (n - 1)) with (String.length cs - 1)%nat
    by (subst n; lia).
  split; [reflexivity|]. apply get_in_range. lia.
Qed.

End GridValuesExact.

(** C5 (as the code has it), in exact arithmetic.  A cell whose mean
    alpha [a] is below 1 is composited against white: [255 * (1 - a)] is
    added to its luminance before the division by 255.  On a canvas that is
    transparent everywhere, without inversion, with a contrast of at least 1
    (the default is 1) and a ramp that is not empty, every cell of the
    output is the last character of the ramp. *)
Theorem transparent_canvas_lightest (qsqrt : Q -> Q)
    (canvas : HTMLCanvasElement) (options : ASCIIMapperOptions Q) :
  (forall q, q == 0 -> qsqrt q == 0) ->
  canvas_context2d canvas = true ->
  (0 < canvas_width canvas)%Z -> (0 < canvas_height canvas)%Z ->
  transparent canvas ->
  dflt (o_invert options) false = false ->
  1 <= dflt (o_contrast options) 1 ->
  let cs := dflt (o_characterSet options) CHARSET_STANDARD in
  let W := fst (targetDimensions (NUM := QNum qsqrt) canvas options) in
  let H := dflt (snd (targetDimensions (NUM := QNum qsqrt) canvas options))
             0%Z in
  cs <> EmptyString -> (0 <= W * H)%Z ->
  (forall s contrast invert, meanAlpha s < 1 ->
     cellLuminance (NUM := QNum qsqrt) s contrast invert
     = adjust contrast invert
         ((weightedRGB s * meanAlpha s + 255 * (1 - meanAlpha s)) / 255)) /\
  (exists r last,
     canvasToASCII (NUM := QNum qsqrt) canvas options = Ok r /\
     String.get (String.length cs - 1) cs = Some last /\
     r_ascii r = gridText (fun _ _ => String last EmptyString) W H).
Proof.
  intros Hsqrt Hctx Hw Hh HT Hinv Hc cs W H Hcs Hsz. split.
  - intros s contrast invert Ha. rewrite cellLuminance_stages.
    unfold composite. change (inject_Z 1) with 1.
    rewrite (Qltb_true Ha). reflexivity.
  - subst cs W H.
    destruct (@luminanceToChar_white qsqrt 1
                (dflt (o_characterSet options) CHARSET_STANDARD))
      as [_ [last Hlast]]; [reflexivity | exact Hcs |].
    eexists. exists last.
    split; [apply canvasToASCII_cells; (assumption || lia)|].
    split; [exact Hlast|]. cbn [r_ascii]. apply gridText_ext.
    intros x y Hx Hy.
    match goal with
    | |- toStr (luminanceToChar ?v ?c) = _ =>
        destruct (@luminanceToChar_white qsqrt v c) as [E _]
    end.
    + apply enhanced_white; [exact Hsqrt | | exact Hx | exact Hy].
      intros x' y' Hx' Hy'. now apply rawLuminance_transparent.
    + exact Hcs.
    + rewrite E, Hlast. reflexivity.
Qed.

Lemma Qsqrt6_zero (q : Q) : q == 0 -> Qsqrt6 q == 0.
Proof.
  intros Hq. unfold Qsqrt6.
  assert (Qnum q = 0%Z) as ->.
  { unfold Qeq in Hq. cbn in Hq. lia. }
  reflexivity.
Qed.

Lemma clear2x2_transparent : transparent clear2x2.
Proof.
  intros k _. unfold pixelAt. cbn [canvas_pixels clear2x2].
  destruct (k * 4 + 3 <? 0)%Z; [reflexivity|].
  destruct (nth_in_or_default (Z.to_nat (k * 4 + 3))
              [0; 0; 0; 0; 0; 0; 0; 0; 0; 0; 0; 0; 0; 0; 0; 0]%Z 0%Z)
    as [Hin | E]; [|exact E].
  repeat (destruct Hin as [Hin | Hin]; [now rewrite <- Hin|]).
  contradiction.
Qed.

Lemma transparent_canvas_lightest_witness :
  exists r,
    canvasToASCII (NUM := QNum Qsqrt6) clear2x2 (grid2x2 None) = Ok r /\
    r_ascii r = ("  " ++ newline ++ "  " ++ newline)%string.
Proof.
  destruct (@transparent_canvas_lightest Qsqrt6 clear2x2 (grid2x2 None))
    as [_ (r & last & Hr & Hlast & Ht)];
    [ exact Qsqrt6_zero | reflexivity | reflexivity | reflexivity
    | exact clear2x2_transparent | reflexivity | discriminate
    | discriminate | vm_compute; discriminate | ].
  exists r. split; [exact Hr|]. rewrite Ht.
  injection Hlast as <-. reflexivity.
Defined.

(** C5 as stated fails: at contrast 0.5 the transparent canvas converts to
    the ramp's seventh character, not its last. *)
Lemma transparent_contrast_counterexample :
  canvasToASCII (NUM := F64.Num) clear2x2 (grid2x2 (Some (F64.lit 1 2))) =
  Ok {| r_ascii := ("--" ++ newline ++ "--" ++ newline)%string;
        r_width := 2; r_height := Some 2%Z |} /\
  String.get (String.length CHARSET_STANDARD - 1) CHARSET_STANDARD
  = Some " "%char.
Proof. split; vm_compute; reflexivity. Qed.

(** ** Every value of the map in the unit interval *)

(** In exact arithmetic the first-pass values of a canvas of bytes lie in
    [0,1], and so do the displayed ones; on a ramp of two or more characters
    every cell is then a character of the ramp. *)
Lemma canvasToASCII_unit_interval_exact (qsqrt : Q -> Q)
    (canvas : HTMLCanvasElement) (options : ASCIIMapperOptions Q) (x y : Z) :
  Forall (fun v => (0 <= v <= 255)%Z) (canvas_pixels canvas) ->
  let raw := rawLuminance (NUM := QNum qsqrt) canvas options in
  let W := fst (targetDimensions (NUM := QNum qsqrt) canvas options) in
  let H := dflt (snd (targetDimensions (NUM := QNum qsqrt) canvas options))
             0%Z in
  let cs := dflt (o_characterSet options) CHARSET_STANDARD in
  0 <= raw x y <= 1 /\
  ((2 <= String.length cs)%nat ->
   exists c,
     luminanceToChar (NUM := QNum qsqrt)
       (enhanced (NUM := QNum qsqrt) raw W H
          (dflt (o_edgeEnhance options) false) x y) cs = Some c).
Proof.
  intros HF raw W H cs.
  pose proof (@rawLuminance_unit qsqrt canvas options x y HF) as Hr.
  split; [exact Hr|]. intros Hn.
  set (v := enhanced (NUM := QNum qsqrt) raw W H
              (dflt (o_edgeEnhance options) false) x y).
  assert (Hv : 0 <= v <= 1) by (apply enhanced_unit; exact Hr).
  unfold luminanceToChar. rewrite luminanceIndex_exact.
  apply charAt_in_range.
  pose proof (@scaled_floor_bounds v (Z.of_nat (String.length cs) - 1) Hv).
  lia.
Qed.

(** C10 at the failing input, in binary64.  The composited luminance of the
    pixel is [1 + 2^-52]; with the default contrast nothing clamps it, the
    inversion stores [-2^-52] in the map, the index is [-1], and the cell
    is the text [undefined]. *)
Theorem inverted_translucent_white_binary64 :
  option_map Qred
    (F64.to_Q (rawLuminance (NUM := F64.Num) whiteAlpha20 inverted1x1 0 0))
  = Some (Qmake (-1) (2 ^ 52)) /\
  nltb (Number := F64.Num)
    (rawLuminance (NUM := F64.Num) whiteAlpha20 inverted1x1 0 0)
    (nofZ (Number := F64.Num) 0) = true /\
  luminanceIndex (NUM := F64.Num)
    (rawLuminance (NUM := F64.Num) whiteAlpha20 inverted1x1 0 0)
    CHARSET_STANDARD = Some (-1)%Z /\
  canvasToASCII (NUM := F64.Num) whiteAlpha20 inverted1x1 =
  Ok {| r_ascii := ("undefined" ++ newline)%string;
        r_width := 1; r_height := Some 1%Z |}.
Proof. repeat split; vm_compute; reflexivity. Qed.

(** The same input in exact arithmetic: the luminance is 0 and the cell is
    the first character of the ramp. *)
Example inverted_translucent_white_exact :
  canvasToASCII (NUM := QNum Qsqrt6) whiteAlpha20 inverted1x1 =
  Ok {| r_ascii := ("@" ++ newline)%string;
        r_width := 1; r_height := Some 1%Z |}.
Proof. vm_compute. reflexivity. Qed.

(** ** Point-cloud sampling *)

Lemma zrange_cons (lo hi : Z) :
  (lo < hi)%Z -> zrange lo hi = lo :: zrange (lo + 1) hi.
Proof.
  intros H. unfold zrange.
  replace (Z.to_nat (hi - lo)) with (S (Z.to_nat (hi - (lo + 1)))) by lia.
  cbn [seq map]. f_equal; [lia|].
  rewrite <- seq_shift, map_map. apply map_ext. intros k. lia.
Qed.

Lemma zrange_shift (lo hi d : Z) :
  zrange (lo + d) (hi + d) = map (fun k => (k + d)%Z) (zrange lo hi).
Proof.
  unfold zrange. rewrite map_map.
  replace (hi + d - (lo + d))%Z with (hi - lo)%Z by lia.
  apply map_ext. intros k. lia.
Qed.

(** The loop visits the multiples of its step, and its fuel is enough. *)
Lemma strideFrom_spec (st bound : Z) (fuel : nat) (i : Z) :
  (1 <= st)%Z -> (bound - i <= Z.of_nat fuel)%Z ->
  strideFrom fuel i st bound
  = map (fun k => (i + k * st)%Z) (zrange 0 ((bound - i + st - 1) / st)).
Proof.
  intros Hst. revert i. induction fuel as [|f IH]; intros i Hf.
  - cbn [strideFrom]. rewrite zrange_empty; [reflexivity|].
    apply Z.lt_succ_r. apply Z.div_lt_upper_bound; lia.
  - cbn [strideFrom]. destruct (Z.ltb_spec i bound) as [Hlt|Hge].
    + rewrite IH by lia.
      replace (bound - i + st - 1)%Z
        with ((bound - (i + st) + st - 1) + 1 * st)%Z by ring.
      rewrite Z.div_add by lia.
      set (n := ((bound - (i + st) + st - 1) / st)%Z).
      assert (Hn : (0 <= n)%Z) by (apply Z.div_pos; lia).
      rewrite (@zrange_cons 0 (n + 1)) by lia. cbn [map]. f_equal; [lia|].
      change (0 + 1)%Z with (0 + 1)%Z. rewrite (zrange_shift 0 n 1).
      rewrite map_map. apply map_ext. intros k. ring.
    + rewrite zrange_empty; [reflexivity|].
      apply Z.lt_succ_r. apply Z.div_lt_upper_bound; lia.
Qed.

Lemma stride_multiples (st bound : Z) :
  (1 <= st)%Z -> stride (Some st) bound = multiplesBelow st bound.
Proof.
  intros Hst. unfold stride, multiplesBelow.
  rewrite strideFrom_spec by lia.
  replace (bound - 0 + st - 1)%Z with (bound + st - 1)%Z by ring.
  apply map_ext. intros k. ring.
Qed.

Lemma multiplesBelow_In (st bound i : Z) :
  (1 <= st)%Z ->
  In i (multiplesBelow st bound) <-> (0 <= i < bound)%Z /\ (i mod st = 0)%Z.
Proof.
  intros Hst. unfold multiplesBelow. rewrite in_map_iff. split.
  - intros (k & <- & Hk). apply zrange_In in Hk.
    split; [|apply Z.mod_mul; lia].
    destruct Hk as [Hk0 Hk1].
    assert (k * st <= bound + st - 1 - st)%Z; [|lia].
    assert (k + 1 <= (bound + st - 1) / st)%Z by lia.
    pose proof (Z.mul_div_le (bound + st - 1) st). nia.
  - intros [Hi Hm]. exists (i / st)%Z. split.
    + rewrite Z.mul_comm. symmetry. apply Z.div_exact; lia.
    + apply zrange_In. split; [apply Z.div_pos; lia|].
      apply Z.div_lt_upper_bound; [lia|].
      pose proof (Z.div_mod (bound + st - 1) st).
      pose proof (Z.mod_pos_bound (bound + st - 1) st). nia.
Qed.

Lemma multiplesBelow_length (st bound : Z) :
  List.length (multiplesBelow st bound)
  = Z.to_nat ((bound + st - 1) / st).
Proof.
  unfold multiplesBelow. rewrite length_map, zrange_length. f_equal. lia.
Qed.

Section PointCloud.
Context {num : Type} {NUM : Number num}.

Lemma samplePoint_step (canvas : HTMLCanvasElement) (depth : num) (x y : Z)
    (pc : PointCloud num) :
  let pc' := samplePoint (canvas_pixels canvas) (canvas_width canvas)
               (ndiv (nofZ (canvas_width canvas)) (nofZ 2))
               (ndiv (nofZ (canvas_height canvas)) (nofZ 2)) depth y pc x in
  positions pc' = positions pc ++
    (if visible canvas (x, y) then pointPosition canvas depth (x, y) else [])
  /\
  colors pc' = colors pc ++
    (if visible canvas (x, y) then pointColor canvas (x, y) else []).
Proof.
  unfold samplePoint, visible.
  destruct (128 <? pixelAt (canvas_pixels canvas)
                     ((y * canvas_width canvas + x) * 4 + 3))%Z;
    cbn [positions colors]; [split; reflexivity|].
  now rewrite !app_nil_r.
Qed.

Lemma sampleRow (canvas : HTMLCanvasElement) (depth : num) (y : Z)
    (xs : list Z) (pc : PointCloud num) :
  let pc' := fold_left
               (samplePoint (canvas_pixels canvas) (canvas_width canvas)
                  (ndiv (nofZ (canvas_width canvas)) (nofZ 2))
                  (ndiv (nofZ (canvas_height canvas)) (nofZ 2)) depth y)
               xs pc in
  let row := filter (visible canvas) (map (fun x => (x, y)) xs) in
  positions pc' = positions pc ++ flat_map (pointPosition canvas depth) row /\
  colors pc' = colors pc ++ flat_map (pointColor canvas) row.
Proof.
  revert pc. induction xs as [|x xs IH]; intros pc; cbn [fold_left map filter].
  - cbn. now rewrite !app_nil_r.
  - cbv zeta in *.
    match goal with
    | |- context [fold_left _ xs ?p] => destruct (IH p) as [IHp IHc]
    end.
    rewrite IHp, IHc.
    destruct (samplePoint_step canvas depth x y pc) as [Sp Sc].
    cbv zeta in Sp, Sc. rewrite Sp, Sc.
    destruct (visible canvas (x, y)); cbn [flat_map];
      rewrite <- ?app_assoc, ?app_nil_r; split; reflexivity.
Qed.

Lemma sampleRows (canvas : HTMLCanvasElement) (depth : num)
    (xs ys : list Z) (pc : PointCloud num) :
  let pc' := fold_left (fun pc y =>
               fold_left
                 (samplePoint (canvas_pixels canvas) (canvas_width canvas)
                    (ndiv (nofZ (canvas_width canvas)) (nofZ 2))
                    (ndiv (nofZ (canvas_height canvas)) (nofZ 2)) depth y)
                 xs pc) ys pc in
  let seen := filter (visible canvas)
                (flat_map (fun y => map (fun x => (x, y)) xs) ys) in
  positions pc' = positions pc ++ flat_map (pointPosition canvas depth) seen /\
  colors pc' = colors pc ++ flat_map (pointColor canvas) seen.
Proof.
  revert pc. induction ys as [|y ys IH]; intros pc; cbn [fold_left flat_map].
  - cbn. now rewrite !app_nil_r.
  - cbv zeta in *.
    destruct (sampleRow canvas depth y xs pc) as [Rp Rc]. cbv zeta in *.
    destruct (IH (fold_left
                (samplePoint (canvas_pixels canvas) (canvas_width canvas)
                   (ndiv (nofZ (canvas_width canvas)) (nofZ 2))
                   (ndiv (nofZ (canvas_height canvas)) (nofZ 2)) depth y)
                xs pc)) as [IHp IHc].
    rewrite IHp, IHc, Rp, Rc, filter_app, !flat_map_app, <- !app_assoc.
    split; reflexivity.
Qed.

Lemma pointCloud_eta (pc : PointCloud num) :
  pc = {| positions := positions pc; colors := colors pc |}.
Proof. now destruct pc. Qed.

(** The point cloud is the visited, visible pixels, each with its position
    and its colour. *)
Lemma createASCIIPoints_points (canvas : HTMLCanvasElement)
    (options : GeometryBuilderOptions num) :
  canvas_context2d canvas = true ->
  canvas_width canvas <> 0%Z -> canvas_height canvas <> 0%Z ->
  let depth := dflt (g_depth options) (nofZ 10) in
  let step := sampleStep (dflt (g_asciiDensity options) (nlit 6 10)) in
  let seen := filter (visible canvas) (visitedPixels step canvas) in
  createASCIIPoints canvas options =
  Ok {| positions := flat_map (pointPosition canvas depth) seen;
        colors := flat_map (pointColor canvas) seen |}.
Proof.
  intros Hctx Hw Hh depth step seen.
  unfold createASCIIPoints. rewrite Hctx. cbn [negb]. unfold getImageData.
  destruct (Z.eqb_spec (canvas_width canvas) 0); [contradiction|].
  destruct (Z.eqb_spec (canvas_height canvas) 0); [contradiction|].
  cbn [orb]. f_equal.
  destruct (sampleRows canvas depth (stride step (canvas_width canvas))
              (stride step (canvas_height canvas))
              {| positions := []; colors := [] |}) as [Sp Sc].
  cbv zeta in Sp, Sc. cbn [positions colors app] in Sp, Sc.
  match goal with |- ?pc = _ => rewrite (pointCloud_eta pc) end.
  f_equal; [exact Sp | exact Sc].
Qed.

End PointCloud.

Lemma filter_all {A : Type} (f : A -> bool) (l : list A) :
  (forall a, In a l -> f a = true) -> filter f l = l.
Proof.
  induction l as [|a l IH]; intros H; cbn; [reflexivity|].
  rewrite (H a) by now left. f_equal. apply IH. intros b Hb. apply H. now right.
Qed.

Lemma grid_length {A B C : Type} (f : A -> B -> C) (xs : list A)
    (ys : list B) :
  List.length (flat_map (fun y => map (fun x => f x y) xs) ys)
  = (List.length ys * List.length xs)%nat.
Proof.
  induction ys as [|y ys IH]; cbn; [reflexivity|].
  now rewrite length_app, length_map, IH.
Qed.

Lemma sampleStep_exact (qsqrt : Q -> Q) (density : Q) :
  sampleStep (NUM := QNum qsqrt) density
  = Some (Z.max 1 (Qfloor (1 / density))).
Proof. reflexivity. Qed.

(** C8 (as the code has it).  With [step = Math.max(1, Math.floor(1 /
    density))] an integer, in whatever arithmetic: the point cloud has one
    point (three coordinates, three colour components) for each pixel
    [(x, y)] with [x] and [y] multiples of [step] and an alpha byte above
    128, at [((x - cx) * 0.1, -(y - cy) * 0.1, luminance * depth)] and
    coloured [(r/255, g/255, b/255)].  On an opaque canvas step 1 gives one
    point per pixel and step 2 gives [ceil(w/2) * ceil(h/2)] points, about
    a quarter as many.  The step is 1 at density 1 and 2 at density 0.5, in
    exact arithmetic and in binary64; in binary64 it is 1 at the default
    density 0.6 and 10 at density 0.1. *)
Theorem createASCIIPoints_sampling (canvas : HTMLCanvasElement) :
  canvas_context2d canvas = true ->
  (0 < canvas_width canvas)%Z -> (0 < canvas_height canvas)%Z ->
  let w := canvas_width canvas in
  let h := canvas_height canvas in
  (forall (num : Type) (NUM : Number num)
          (options : GeometryBuilderOptions num) (step : Z),
     fmax 1 (nfloor (ndiv (nofZ 1)
                       (dflt (g_asciiDensity options) (nlit 6 10))))
     = FInt step ->
     (1 <= step)%Z /\
     createASCIIPoints canvas options
     = Ok (cloudOf canvas (dflt (g_depth options) (nofZ 10))
             (sampledPixels step canvas))) /\
  (forall step x y, (1 <= step)%Z ->
     In (x, y) (sampledPixels step canvas) <->
     (0 <= x < w)%Z /\ (x mod step = 0)%Z /\
     (0 <= y < h)%Z /\ (y mod step = 0)%Z /\
     (128 < pixelAt (canvas_pixels canvas) ((y * w + x) * 4 + 3))%Z) /\
  (opaque canvas ->
   List.length (sampledPixels 1 canvas) = Z.to_nat (w * h) /\
   List.length (sampledPixels 2 canvas)
   = Z.to_nat (((w + 1) / 2) * ((h + 1) / 2)) /\
   (w * h <= 4 * Z.of_nat (List.length (sampledPixels 2 canvas))
    <= (w + 1) * (h + 1))%Z) /\
  (forall (qsqrt : Q -> Q) (density : Q),
     fmax 1 (nfloor (Number := QNum qsqrt) (1 / density))
     = FInt (Z.max 1 (Qfloor (1 / density))) /\
     (density == 1 -> Z.max 1 (Qfloor (1 / density)) = 1%Z) /\
     (density == 1 # 2 -> Z.max 1 (Qfloor (1 / density)) = 2%Z)) /\
  fmax 1 (nfloor (Number := F64.Num)
            (PrimFloat.div (F64.of_Z 1) (F64.of_Z 1))) = FInt 1 /\
  fmax 1 (nfloor (Number := F64.Num)
            (PrimFloat.div (F64.of_Z 1) (F64.lit 1 2))) = FInt 2 /\
  fmax 1 (nfloor (Number := F64.Num)
            (PrimFloat.div (F64.of_Z 1) (F64.lit 6 10))) = FInt 1 /\
  fmax 1 (nfloor (Number := F64.Num)
            (PrimFloat.div (F64.of_Z 1) (F64.lit 1 10))) = FInt 10.
Proof.
  intros Hctx Hw Hh w h.
  assert (Hin : forall step x y, (1 <= step)%Z ->
     In (x, y) (sampledPixels step canvas) <->
     (0 <= x < w)%Z /\ (x mod step = 0)%Z /\
     (0 <= y < h)%Z /\ (y mod step = 0)%Z /\
     (128 < pixelAt (canvas_pixels canvas) ((y * w + x) * 4 + 3))%Z).
  { intros step x y Hstep. unfold sampledPixels.
    rewrite filter_In, in_flat_map. unfold visible.
    rewrite Z.ltb_lt. fold w h. split.
    - intros [(y' & Hy & Hx) Ha]. apply in_map_iff in Hx.
      destruct Hx as (x' & E & Hx). injection E as <- <-.
      apply multiplesBelow_In in Hx, Hy; try exact Hstep. tauto.
    - intros (Hx & Hxm & Hy & Hym & Ha). split; [|exact Ha].
      exists y. split; [apply multiplesBelow_In; tauto|].
      apply in_map_iff. exists x. split; [reflexivity|].
      apply multiplesBelow_In; tauto. }
  assert (Hlen : opaque canvas -> forall step, (1 <= step)%Z ->
            List.length (sampledPixels step canvas)
            = (Z.to_nat ((h + step - 1) / step)
               * Z.to_nat ((w + step - 1) / step))%nat).
  { intros Hop step Hstep. unfold sampledPixels.
    rewrite filter_all; [now rewrite grid_length, !multiplesBelow_length|].
    intros [x y] Hxy. apply in_flat_map in Hxy.
    destruct Hxy as (y' & Hy & Hx). apply in_map_iff in Hx.
    destruct Hx as (x' & E & Hx). injection E as <- <-.
    apply multiplesBelow_In in Hx, Hy; try exact Hstep.
    unfold visible. apply Z.ltb_lt. apply Hop. nia. }
  split; [|split; [exact Hin|split; [|split]]].
  - intros num NUM options step Estep.
    assert (Hstep : (1 <= step)%Z).
    { destruct (nfloor _) as [z|[|]|]; cbn [fmax] in Estep;
        try discriminate; injection Estep as <-; lia. }
    split; [exact Hstep|].
    rewrite createASCIIPoints_points by (assumption || lia).
    unfold sampleStep. rewrite Estep. cbn [finite].
    unfold visitedPixels, cloudOf, sampledPixels.
    rewrite !stride_multiples by exact Hstep. reflexivity.
  - intros Hop.
    pose proof (Hlen Hop 1%Z ltac:(lia)) as L1.
    pose proof (Hlen Hop 2%Z ltac:(lia)) as L2.
    replace (h + 1 - 1)%Z with h in L1 by ring.
    replace (w + 1 - 1)%Z with w in L1 by ring.
    rewrite !Z.div_1_r in L1.
    replace (h + 2 - 1)%Z with (h + 1)%Z in L2 by ring.
    replace (w + 2 - 1)%Z with (w + 1)%Z in L2 by ring.
    assert (Ha : (0 <= (w + 1) / 2)%Z) by (apply Z.div_pos; lia).
    assert (Hb : (0 <= (h + 1) / 2)%Z) by (apply Z.div_pos; lia).
    rewrite <- Z2Nat.inj_mul in L1, L2 by lia.
    split; [rewrite L1; f_equal; ring|].
    split; [rewrite L2; f_equal; ring|].
    rewrite L2, Z2Nat.id by nia.
    pose proof (Z.div_mod (w + 1) 2). pose proof (Z.mod_pos_bound (w + 1) 2).
    pose proof (Z.div_mod (h + 1) 2). pose proof (Z.mod_pos_bound (h + 1) 2).
    nia.
  - intros qsqrt density. split; [reflexivity|]. split; intros E.
    + rewrite (@Qfloor_eq 1 (1 / density)); [reflexivity|].
      rewrite E. reflexivity.
    + rewrite (@Qfloor_eq 2 (1 / density)); [reflexivity|].
      rewrite E. reflexivity.
  - repeat split; vm_compute; reflexivity.
Qed.

Lemma black2x2_opaque : opaque black2x2.
Proof.
  intros k Hk. cbn [canvas_width canvas_height black2x2] in Hk.
  assert (E : k = 0%Z \/ k = 1%Z \/ k = 2%Z \/ k = 3%Z) by lia.
  destruct E as [-> | [-> | [-> | ->]]]; reflexivity.
Qed.

Lemma createASCIIPoints_sampling_witness :
  createASCIIPoints (NUM := F64.Num) black2x2 (atDensity (F64.lit 1 2))
  = Ok (cloudOf (NUM := F64.Num) black2x2 (F64.of_Z 10)
          (sampledPixels 2 black2x2)) /\
  List.length (sampledPixels 2 black2x2) = 1%nat.
Proof.
  destruct (@createASCIIPoints_sampling black2x2)
    as (H & _ & Hop & _); [reflexivity | reflexivity | reflexivity |].
  split.
  - apply (H float F64.Num (atDensity (F64.lit 1 2)) 2%Z).
    vm_compute. reflexivity.
  - destruct (Hop black2x2_opaque) as (_ & Hlen & _). exact Hlen.
Defined.

(** C8 as stated fails at the threshold: a pixel of alpha 128 is more than
    half opaque (128/255 is above 1/2) and is visited at density 1, but
    gets no point: the code wants an alpha above 128. *)
Lemma alpha_threshold_counterexample :
  1 # 2 < 128 # 255 /\
  In (0%Z, 0%Z) (visitedPixels (Some 1%Z) whiteAlpha128) /\
  createASCIIPoints (NUM := F64.Num) whiteAlpha128 (atDensity (F64.of_Z 1))
  = Ok {| positions := []; colors := [] |} /\
  createASCIIPoints (NUM := QNum Qsqrt6) whiteAlpha128 (atDensity 1)
  = Ok {| positions := []; colors := [] |}.
Proof.
  split; [reflexivity|]. split; [now left|].
  split; vm_compute; reflexivity.
Qed.

(** The same sampling in binary64: four points at density 1.0, one at
    density 0.5. *)
Example createASCIIPoints_binary64 :
  (exists pc, createASCIIPoints (NUM := F64.Num) black2x2
                (atDensity (F64.of_Z 1)) = Ok pc /\
              List.length (positions pc) = 12%nat) /\
  (exists pc, createASCIIPoints (NUM := F64.Num) black2x2
                (atDensity (F64.lit 1 2)) = Ok pc /\
              List.length (positions pc) = 3%nat).
Proof.
  split; eexists; (split; [vm_compute; reflexivity | reflexivity]).
Qed.

(** ** The 3D group and its caches *)

Lemma indexed_snd {A : Type} (l : list A) : map snd (indexed l) = l.
Proof.
  unfold indexed.
  assert (G : forall (l : list A) (ixs : list Z),
             List.length ixs = List.length l -> map snd (combine ixs l) = l).
  { clear l. induction l as [|a l IH]; intros [|i ixs] E; cbn in *;
      try discriminate; try reflexivity.
    f_equal. apply IH. lia. }
  apply G. now rewrite length_map, length_seq.
Qed.

Lemma cache_get_In {K V : Type} (eqb : K -> K -> bool) (k : K) (v : V)
    (m : list (K * V)) :
  cache_get eqb k m = Some v -> exists k', In (k', v) m /\ eqb k k' = true.
Proof.
  induction m as [|[k' v'] m IH]; cbn; [discriminate|].
  destruct (eqb k k') eqn:E.
  - intros [= <-]. exists k'. split; [now left | exact E].
  - intros H. destruct (IH H) as (k'' & Hin & Hk). exists k''.
    split; [now right | exact Hk].
Qed.

Lemma cache_get_app {K V : Type} (eqb : K -> K -> bool) (k : K) (v : V)
    (m m' : list (K * V)) :
  cache_get eqb k m = Some v -> cache_get eqb k (m ++ m') = Some v.
Proof.
  induction m as [|[k' v'] m IH]; cbn; [discriminate|].
  destruct (eqb k k'); [trivial | exact IH].
Qed.

Lemma DepthKey_eqb_eq (k1 k2 : DepthKey) :
  DepthKey_eqb k1 k2 = true -> k1 = k2.
Proof.
  destruct k1 as [[s1 n1]|], k2 as [[s2 n2]|]; cbn; try discriminate;
    [|reflexivity].
  intros H. apply andb_prop in H. destruct H as [Hs Hn].
  apply Bool.eqb_prop in Hs. apply Z.eqb_eq in Hn. now subst.
Qed.

Section Group.
Context {num : Type} {NUM : Number num}.
Variable charDepth : num.
Variable materialCache0 : list (ascii * Material).
Variable next0 : nat.

Lemma placeChar_step (lineCount lineIndex lineLength : Z) (st : Build num)
    (charIndex : Z) (c : ascii) :
  buildInv charDepth materialCache0 next0 st ->
  let st' := placeChar true charDepth lineCount lineIndex lineLength st
               (charIndex, c) in
  buildInv charDepth materialCache0 next0 st' /\
  if Ascii.eqb c " "%char then b_group st' = b_group st
  else exists m, b_group st' = b_group st ++ [m] /\
                 meshFor charDepth materialCache0 next0 c m.
Proof.
  intros (Hg & Hm & Hn). unfold placeChar. cbv zeta.
  destruct (Ascii.eqb c " "%char);
    [split; [exact (conj Hg (conj Hm Hn)) | reflexivity]|].
  fold (actualDepthOf charDepth c).
  destruct (cache_get Ascii.eqb c (b_materialCache st)) as [mat|] eqn:Em.
  - (* the material is in the cache *)
    assert (Hmat : forall mat', cache_get Ascii.eqb c materialCache0 = Some mat'
                                -> mat = mat').
    { intros mat' Hc. apply Hm in Hc. congruence. }
    destruct (cache_get DepthKey_eqb (ntoFixed2 (actualDepthOf charDepth c))
                (b_geometryCache st)) as [g|] eqn:Eg.
    + destruct (cache_get_In Eg) as (k' & Hin & Hk).
      apply DepthKey_eqb_eq in Hk. subst k'.
      destruct (Hg _ _ Hin) as (Hid & c' & Hkey & Hdepth).
      split; [exact (conj Hg (conj Hm Hn))|].
      eexists. split; [reflexivity|].
      split; [exact Hid|]. split; [|exact Hmat].
      intros Hsep. cbn [mesh_geometry]. rewrite Hdepth. symmetry.
      now apply Hsep.
    + split; [split; [|split]|].
      * cbn [b_geometryCache]. intros k g Hin.
        apply in_app_or in Hin. destruct Hin as [Hin|[Hin|[]]].
        -- now apply Hg.
        -- injection Hin as <- <-. cbn [geometry_id box_depth].
           split; [exact Hn|]. exists c. split; reflexivity.
      * exact Hm.
      * cbn [b_next]. lia.
      * eexists. split; [reflexivity|].
        split; [exact Hn|]. split; [reflexivity | exact Hmat].
  - (* a new texture and material *)
    assert (Hmat : forall mat', cache_get Ascii.eqb c materialCache0 = Some mat'
                                -> {| material_id := S (b_next st);
                                      material_glyph := c;
                                      material_map := b_next st |} = mat').
    { intros mat' Hc. apply Hm in Hc. congruence. }
    assert (Hm' : forall c0 mat0,
               cache_get Ascii.eqb c0 materialCache0 = Some mat0 ->
               cache_get Ascii.eqb c0
                 (cache_set c {| material_id := S (b_next st);
                                 material_glyph := c;
                                 material_map := b_next st |}
                    (b_materialCache st)) = Some mat0).
    { intros c0 mat0 Hc. apply cache_get_app. now apply Hm. }
    destruct (cache_get DepthKey_eqb (ntoFixed2 (actualDepthOf charDepth c))
                (b_geometryCache st)) as [g|] eqn:Eg.
    + destruct (cache_get_In Eg) as (k' & Hin & Hk).
      apply DepthKey_eqb_eq in Hk. subst k'.
      destruct (Hg _ _ Hin) as (Hid & c' & Hkey & Hdepth).
      split; [split; [exact Hg | split; [exact Hm' | cbn [b_next]; lia]]|].
      eexists. split; [reflexivity|].
      split; [exact Hid|]. split; [|exact Hmat].
      intros Hsep. cbn [mesh_geometry]. rewrite Hdepth. symmetry.
      now apply Hsep.
    + split; [split; [|split]|].
      * cbn [b_geometryCache]. intros k g Hin.
        apply in_app_or in Hin. destruct Hin as [Hin|[Hin|[]]].
        -- now apply Hg.
        -- injection Hin as <- <-. cbn [geometry_id box_depth].
           split; [lia|]. exists c. split; reflexivity.
      * exact Hm'.
      * cbn [b_next]. lia.
      * eexists. split; [reflexivity|].
        split; [cbn [mesh_geometry geometry_id]; lia|].
        split; [reflexivity | exact Hmat].
Qed.

(** One line: a mesh for each of its glyphs, in order. *)
Lemma placeLine (lineCount lineIndex lineLength : Z)
    (ics : list (Z * ascii)) (st : Build num) :
  buildInv charDepth materialCache0 next0 st ->
  let st' := fold_left (placeChar true charDepth lineCount lineIndex
                          lineLength) ics st in
  buildInv charDepth materialCache0 next0 st' /\
  exists ms, b_group st' = b_group st ++ ms /\
    Forall2 (meshFor charDepth materialCache0 next0)
      (filter (fun c => negb (Ascii.eqb c " "%char)) (map snd ics)) ms.
Proof.
  revert st. induction ics as [|[i c] ics IH]; intros st Hinv.
  - cbn. split; [exact Hinv|]. exists []. now rewrite app_nil_r.
  - cbn [fold_left map snd filter].
    destruct (@placeChar_step lineCount lineIndex lineLength st i c Hinv)
      as [Hinv' Hstep]. cbv zeta in Hinv', Hstep.
    destruct (IH _ Hinv') as [Hinv'' (ms & Hms & HF)]. cbv zeta in *.
    split; [exact Hinv''|].
    destruct (Ascii.eqb c " "%char); cbn [negb].
    + exists ms. rewrite Hms, Hstep. split; [reflexivity | exact HF].
    + destruct Hstep as (m & Hm & Hfor). exists (m :: ms).
      rewrite Hms, Hm, <- app_assoc. split; [reflexivity|].
      now constructor.
Qed.

(** The whole text: a mesh for each glyph, in order, and the invariant at
    the end. *)
Lemma createASCIIText3D_meshes (asciiText : string) :
  let b := createASCIIText3D true materialCache0 next0 asciiText charDepth in
  buildInv charDepth materialCache0 next0 b /\
  Forall2 (meshFor charDepth materialCache0 next0) (glyphsOf asciiText)
    (b_group b).
Proof.
  unfold createASCIIText3D, glyphsOf.
  set (lines := filter _ (split_lines EmptyString asciiText)).
  set (lineCount := Z.of_nat (List.length lines)).
  assert (G : forall (ils : list (Z * string)) (st : Build num),
    buildInv charDepth materialCache0 next0 st ->
    let st' := fold_left (fun st il =>
                 let '(lineIndex, line) := il in
                 fold_left (placeChar true charDepth lineCount lineIndex
                              (Z.of_nat (String.length line)))
                   (indexed (list_ascii_of_string line)) st) ils st in
    buildInv charDepth materialCache0 next0 st' /\
    exists ms, b_group st' = b_group st ++ ms /\
      Forall2 (meshFor charDepth materialCache0 next0)
        (flat_map glyphsOfLine (map snd ils)) ms).
  { induction ils as [|[li line] ils IH]; intros st Hinv.
    - cbn. split; [exact Hinv|]. exists []. now rewrite app_nil_r.
    - cbn [fold_left map snd flat_map].
      destruct (@placeLine lineCount li (Z.of_nat (String.length line))
                  (indexed (list_ascii_of_string line)) st Hinv)
        as [Hinv' (ms1 & Hms1 & HF1)]. cbv zeta in *.
      rewrite indexed_snd in HF1.
      destruct (IH _ Hinv') as [Hinv'' (ms2 & Hms2 & HF2)]. cbv zeta in *.
      split; [exact Hinv''|]. exists (ms1 ++ ms2).
      rewrite Hms2, Hms1, <- app_assoc. split; [reflexivity|].
      now apply Forall2_app. }
  cbv zeta.
  destruct (G (indexed lines)
              {| b_group := []; b_materialCache := materialCache0;
                 b_geometryCache := []; b_next := next0 |})
    as [Hinv (ms & Hms & HF)].
  - split; [|split]; cbn; [intros k g [] | trivial | lia].
  - cbv zeta in *. split; [exact Hinv|].
    rewrite indexed_snd in HF. cbn [b_group app] in Hms. rewrite Hms.
    exact HF.
Qed.

End Group.

(** ** Glyph weights and depths *)

Lemma getCharWeight_cases {num : Type} {NUM : Number num} (c : ascii) :
  (includes heavyChars c = true /\ getCharWeight c = nofZ 1) \/
  (includes heavyChars c = false /\ includes mediumChars c = true /\
   getCharWeight c = nlit 7 10) \/
  (includes heavyChars c = false /\ includes mediumChars c = false /\
   includes lightChars c = true /\ getCharWeight c = nlit 3 10) \/
  (includes heavyChars c = false /\ includes mediumChars c = false /\
   includes lightChars c = false /\ getCharWeight c = nlit 5 10).
Proof.
  unfold getCharWeight.
  destruct (includes heavyChars c); [now left|].
  destruct (includes mediumChars c); [right; now left|].
  destruct (includes lightChars c); [right; right; now left|].
  right; right; right. repeat split.
Qed.

(** Two values at least 1 apart have different floors. *)
Lemma Qfloor_apart (a b : Q) : a + 1 <= b -> Qfloor a <> Qfloor b.
Proof.
  intros H E.
  pose proof (Qfloor_le a) as La. pose proof (Qlt_floor b) as Ub.
  rewrite <- E in Ub. rewrite inject_Z_plus in Ub.
  change (inject_Z 1) with 1 in Ub. lra.
Qed.

(** At a depth of at least 1/14 in magnitude, two factors 0.14 apart give
    different keys. *)
Lemma toFixed2_apart (d f1 f2 : Q) :
  1 # 14 <= Qabs d -> 0 <= f1 -> f1 + (14 # 100) <= f2 ->
  QtoFixed2 (d * f1) <> QtoFixed2 (d * f2) /\
  QtoFixed2 (d * f2) <> QtoFixed2 (d * f1).
Proof.
  intros Hd Hf1 Hf2.
  assert (N : Qfloor (Qabs (d * f1) * 100 + (1 # 2))
              <> Qfloor (Qabs (d * f2) * 100 + (1 # 2))).
  { apply Qfloor_apart. rewrite !Qabs_Qmult.
    rewrite (Qabs_pos f1) by exact Hf1. rewrite (Qabs_pos f2) by lra.
    set (A := Qabs d) in *. nra. }
  unfold QtoFixed2.
  split; intros E; apply (f_equal snd) in E; [exact (N E)|].
  symmetry in E. exact (N E).
Qed.

Lemma Some_inj {A : Type} (a b : A) : Some a = Some b -> a = b.
Proof. congruence. Qed.

Lemma keysSeparate_exact (qsqrt : Q -> Q) (d : Q) :
  1 # 14 <= Qabs d -> keysSeparate (NUM := QNum qsqrt) d.
Proof.
  intros Hd c1 c2. unfold actualDepthOf.
  cbn [ntoFixed2 nmul nadd nlit nofZ QNum].
  destruct (getCharWeight_cases (NUM := QNum qsqrt) c1)
    as [[_ ->]|[(_ & _ & ->)|[(_ & _ & _ & ->)|(_ & _ & _ & ->)]]];
  destruct (getCharWeight_cases (NUM := QNum qsqrt) c2)
    as [[_ ->]|[(_ & _ & ->)|[(_ & _ & _ & ->)|(_ & _ & _ & ->)]]];
  cbn [nlit nofZ QNum]; intros E; try reflexivity; exfalso;
  apply Some_inj in E; revert E;
  match goal with
  | |- QtoFixed2 (d * ?f1) = QtoFixed2 (d * ?f2) -> False =>
      first
        [ apply (@toFixed2_apart d f1 f2 Hd); [discriminate | discriminate]
        | apply (@toFixed2_apart d f2 f1 Hd); [discriminate | discriminate] ]
  end.
Qed.

(** C3 (as the code has it), in exact arithmetic.  A glyph weighs 1.0,
    0.7 or 0.3 by the bucket it is in and 0.5 when it is in none (not the
    0.7 of the medium bucket).
    At a base depth of magnitude 1/14 or more, where the four depths have
    four distinct two-decimal keys, the box of every mesh is
    [baseDepth * (0.3 + weight * 0.7)] deep. *)
Theorem glyph_weight_and_depth (qsqrt : Q -> Q)
    (materialCache : list (ascii * Material)) (next : nat)
    (asciiText : string) (charDepth : Q) :
  1 # 14 <= Qabs charDepth ->
  (forall c,
     (includes heavyChars c = true /\
      getCharWeight (NUM := QNum qsqrt) c = 1) \/
     (includes heavyChars c = false /\ includes mediumChars c = true /\
      getCharWeight (NUM := QNum qsqrt) c = 7 # 10) \/
     (includes heavyChars c = false /\ includes mediumChars c = false /\
      includes lightChars c = true /\
      getCharWeight (NUM := QNum qsqrt) c = 3 # 10) \/
     (includes heavyChars c = false /\ includes mediumChars c = false /\
      includes lightChars c = false /\
      getCharWeight (NUM := QNum qsqrt) c = 5 # 10)) /\
  Forall2
    (fun c m =>
       box_depth (mesh_geometry m)
       = charDepth
         * ((3 # 10) + getCharWeight (NUM := QNum qsqrt) c * (7 # 10)))
    (glyphsOf asciiText)
    (b_group (createASCIIText3D (NUM := QNum qsqrt) true materialCache next
                asciiText charDepth)).
Proof.
  intros Hd. split.
  - intros c. exact (getCharWeight_cases (NUM := QNum qsqrt) c).
  - destruct (@createASCIIText3D_meshes Q (QNum qsqrt) charDepth
                materialCache next asciiText) as [_ HF].
    cbv zeta in HF. revert HF. apply Forall2_impl.
    intros c m (_ & Hdepth & _). apply Hdepth.
    now apply keysSeparate_exact.
Qed.

Lemma glyph_weight_and_depth_witness :
  Forall2
    (fun c m =>
       box_depth (mesh_geometry m)
       = 8 * ((3 # 10) + getCharWeight (NUM := QNum Qsqrt6) c * (7 # 10)))
    ["@"; "a"; "-"; "@"]%char
    (b_group (createASCIIText3D (NUM := QNum Qsqrt6) true [] 0
                ("@a" ++ newline ++ " -@") 8)).
Proof.
  exact (proj2 (@glyph_weight_and_depth Qsqrt6 [] 0%nat
                  ("@a" ++ newline ++ " -@")%string 8 ltac:(discriminate))).
Defined.

(** C3 as stated fails: the glyph [a] is in no bucket and weighs 0.5, which
    is none of 1.0, 0.7 (the medium weight) and 0.3.  And below the depth
    of the theorem the keys collide and a mesh gets the box of an earlier
    glyph: at base depth 0.01 the [-] after an [@] is 0.01 deep, not
    0.0051. *)
Lemma glyph_weight_counterexample :
  (includes heavyChars "a"%char = false /\
   includes mediumChars "a"%char = false /\
   includes lightChars "a"%char = false /\
   getCharWeight (NUM := QNum Qsqrt6) "a"%char == 1 # 2 /\
   ~ (getCharWeight (NUM := QNum Qsqrt6) "a"%char == 1 \/
      getCharWeight (NUM := QNum Qsqrt6) "a"%char == 7 # 10 \/
      getCharWeight (NUM := QNum Qsqrt6) "a"%char == 3 # 10)) /\
  (map (fun m => Qred (box_depth (mesh_geometry m)))
     (b_group (createASCIIText3D (NUM := QNum Qsqrt6) true [] 0 "@-"
                 (1 # 100)))
   = [1 # 100; 1 # 100] /\
   Qred (actualDepthOf (NUM := QNum Qsqrt6) (1 # 100) "-"%char)
   = 51 # 10000).
Proof.
  split.
  - repeat split; try reflexivity.
    intros [H|[H|H]]; vm_compute in H; discriminate.
  - split; vm_compute; reflexivity.
Qed.

(** The same collision in binary64. *)
Example shallow_depth_binary64 :
  map (fun m => box_depth (mesh_geometry m))
    (b_group (createASCIIText3D (NUM := F64.Num) true [] 0 "@-"
                (F64.lit 1 100)))
  = [F64.lit 1 100; F64.lit 1 100].
Proof. vm_compute. reflexivity. Qed.

(** ** The caches across groups *)




(* ================================================================== *)
(** * Further properties of the code *)

(** ** The shape of the text *)

Lemma string_length_append (a b : string) :
  String.length (a ++ b) = (String.length a + String.length b)%nat.
Proof. induction a as [|c a IH]; simpl; [reflexivity | now rewrite IH]. Qed.

Lemma concat_str_length (l : list string) :
  String.length (concat_str l) = list_sum (map String.length l).
Proof.
  induction l as [|s l IH]; simpl; [reflexivity|].
  now rewrite string_length_append, IH.
Qed.

Lemma list_sum_const {A : Type} (f : A -> nat) (c : nat) (l : list A) :
  (forall a, In a l -> f a = c) ->
  list_sum (map f l) = (c * List.length l)%nat.
Proof.
  induction l as [|a l IH]; intros H; simpl; [lia|].
  rewrite (H a) by now left. rewrite IH; [lia|].
  intros b Hb. apply H. now right.
Qed.

(** A grid of one character per cell is [(W + 1) * H] characters long. *)
Lemma gridText_length (cell : Z -> Z -> ascii) (W H : Z) :
  (0 <= W)%Z -> (0 <= H)%Z ->
  String.length (gridText (fun x y => String (cell x y) EmptyString) W H)
  = Z.to_nat ((W + 1) * H).
Proof.
  intros HW HH. unfold gridText. rewrite concat_str_length, map_map.
  rewrite (@list_sum_const _ _ (Z.to_nat W + 1)%nat).
  - rewrite zrange_length. nia.
  - intros y _. rewrite string_length_append, concat_str_length, map_map.
    rewrite (@list_sum_const _ _ 1%nat) by reflexivity.
    rewrite zrange_length. cbn. lia.
Qed.

Lemma concat_str_get (rows : list string) (L k j : nat) :
  (forall r, In r rows -> String.length r = L) ->
  (k < List.length rows)%nat -> (j < L)%nat ->
  String.get (k * L + j) (concat_str rows)
  = String.get j (nth k rows EmptyString).
Proof.
  revert k. induction rows as [|a rows IH]; intros k HL Hk Hj;
    cbn [List.length] in Hk; [lia|].
  cbn [concat_str fold_right]. fold (concat_str rows).
  destruct k as [|k]; cbn [nth Nat.mul Nat.add].
  - symmetry. apply append_correct1. rewrite (HL a) by now left. exact Hj.
  - assert (Ea : String.length a = L) by (apply HL; now left).
    replace (L + k * L + j)%nat with ((k * L + j) + String.length a)%nat
      by lia.
    rewrite <- append_correct2. apply IH; [|lia|exact Hj].
    intros r Hr. apply HL. now right.
Qed.

Lemma nth_zrange (lo hi : Z) (k : nat) (d : Z) :
  (k < Z.to_nat (hi - lo))%nat -> nth k (zrange lo hi) d = (lo + Z.of_nat k)%Z.
Proof.
  intros Hk. unfold zrange.
  rewrite (nth_indep _ d (lo + Z.of_nat 0)%Z)
    by (rewrite length_map, length_seq; exact Hk).
  rewrite (map_nth (fun k => (lo + Z.of_nat k)%Z)), seq_nth by exact Hk.
  reflexivity.
Qed.

(** In a grid of one character per cell, cell [(x, y)] is the character at
    [y * (W + 1) + x]. *)
Lemma gridText_get (cell : Z -> Z -> ascii) (W H x y : Z) :
  (0 <= x < W)%Z -> (0 <= y < H)%Z ->
  String.get (Z.to_nat (y * (W + 1) + x))
    (gridText (fun x y => String (cell x y) EmptyString) W H)
  = Some (cell x y).
Proof.
  intros Hx Hy. unfold gridText.
  set (row := fun y =>
         (concat_str (map (fun x => String (cell x y) EmptyString)
                        (zrange 0 W)) ++ newline)%string).
  assert (Hlen : forall y', String.length
            (concat_str (map (fun x => String (cell x y') EmptyString)
                           (zrange 0 W))) = Z.to_nat W).
  { intros y'. rewrite concat_str_length, map_map.
    rewrite (@list_sum_const _ _ 1%nat) by reflexivity.
    rewrite zrange_length. lia. }
  replace (Z.to_nat (y * (W + 1) + x))
    with (Z.to_nat y * (Z.to_nat W + 1) + Z.to_nat x)%nat by nia.
  rewrite (@concat_str_get _ (Z.to_nat W + 1)%nat).
  - rewrite (nth_indep _ EmptyString (row 0%Z))
      by (rewrite length_map, zrange_length; lia).
    rewrite (map_nth row), nth_zrange by lia.
    unfold row. rewrite <- append_correct1 by (rewrite Hlen; lia).
    replace (0 + Z.of_nat (Z.to_nat y))%Z with y by lia.
    set (f := fun x => String (cell x y) EmptyString).
    replace (Z.to_nat x) with (Z.to_nat x * 1 + 0)%nat at 1 by lia.
    rewrite (@concat_str_get _ 1%nat).
    + rewrite (nth_indep _ EmptyString (f 0%Z))
        by (rewrite length_map, zrange_length; lia).
      rewrite (map_nth f), nth_zrange by lia.
      unfold f. cbn [String.get]. do 2 f_equal; lia.
    + intros r Hr. apply in_map_iff in Hr. destruct Hr as (? & <- & _).
      reflexivity.
    + rewrite length_map, zrange_length. lia.
    + lia.
  - intros r Hr. apply in_map_iff in Hr. destruct Hr as (y' & <- & _).
    unfold row. rewrite string_length_append, Hlen. cbn. lia.
  - rewrite length_map, zrange_length. lia.
  - lia.
Qed.

Lemma get_In (s : string) (n : nat) (c : ascii) :
  String.get n s = Some c -> In c (list_ascii_of_string s).
Proof.
  revert n. induction s as [|a s IH]; intros n; simpl; [discriminate|].
  destruct n as [|n]; [intros [= <-]; now left|].
  intros H. right. exact (IH _ H).
Qed.

(** On a ramp that is not empty, a luminance in [0,1] maps to one of the
    ramp's characters. *)
Lemma luminanceToChar_in_ramp (qsqrt : Q -> Q) (l : Q) (cs : string) :
  0 <= l <= 1 -> cs <> EmptyString ->
  exists c, luminanceToChar (NUM := QNum qsqrt) l cs = Some c /\
            In c (list_ascii_of_string cs).
Proof.
  intros Hl Hcs.
  assert (Hn : (1 <= String.length cs)%nat).
  { destruct cs; [congruence | simpl; lia]. }
  unfold luminanceToChar. rewrite luminanceIndex_exact.
  set (n := Z.of_nat (String.length cs)).
  assert (Hk : (0 <= n - 1)%Z) by (subst n; lia).
  pose proof (@scaled_floor_bounds l (n - 1)%Z Hl Hk) as Hb.
  destruct (@charAt_in_range (Z.min (Qfloor (l * inject_Z (n - 1))) (n - 1)) cs)
    as [Hget [c Hc]]; [fold n; lia|].
  exists c. split; [exact Hc|]. rewrite Hget in Hc. exact (get_In Hc).
Qed.

(** The grid of a conversion with a width and a height that are not
    negative has no negative side. *)
Lemma targetDimensions_nonneg (qsqrt : Q -> Q) (canvas : HTMLCanvasElement)
    (options : ASCIIMapperOptions Q) :
  (0 < canvas_width canvas)%Z -> (0 < canvas_height canvas)%Z ->
  (0 <= dflt (o_width options) 80)%Z ->
  (forall h, o_height options = Some h -> (0 <= h)%Z) ->
  exists H,
    targetDimensions (NUM := QNum qsqrt) canvas options
    = (dflt (o_width options) 80%Z, Some H) /\ (0 <= H)%Z.
Proof.
  intros Hcw Hch HW Hh. unfold targetDimensions.
  set (W := dflt (o_width options) 80%Z) in *.
  assert (Hhalf : (0 <= W / 2)%Z) by (apply Z.div_pos; lia).
  assert (Hq : (0 <= W * canvas_height canvas / (canvas_width canvas * 2))%Z)
    by (apply Z.div_pos; nia).
  rewrite (floor_quotient qsqrt), (floor_half qsqrt).
  destruct (o_height options) as [h|] eqn:Eh.
  - specialize (Hh h eq_refl).
    destruct (dflt (o_maintainAspectRatio options) true);
      (destruct h as [|p|p]; [| |lia]; cbn [falsy];
       eexists; (split; [reflexivity | lia])).
  - destruct (dflt (o_maintainAspectRatio options) true).
    + destruct (W * canvas_height canvas / (canvas_width canvas * 2))%Z
        as [|p|p] eqn:E; cbn [falsy];
        eexists; (split; [reflexivity | lia]).
    + cbn [falsy]. eexists. split; [reflexivity | lia].
Qed.

(** X1.  In exact arithmetic: a canvas with a context, a positive size and
    byte pixels, converted without inversion or with a contrast other than
    1 (the clamp then keeps the luminance in [0,1]), with a width and a
    height that are not negative and a ramp that is not empty, gives a text
    result (nothing is thrown) of [H] rows, each of [W] characters of the
    ramp and a line break: [(W + 1) * H] characters in all.  (With
    inversion at contrast 1 binary64 can leave [0,1]: see
    [inverted_translucent_white_binary64].) *)
Theorem canvasToASCII_text_shape (qsqrt : Q -> Q)
    (canvas : HTMLCanvasElement) (options : ASCIIMapperOptions Q) :
  canvas_context2d canvas = true ->
  (0 < canvas_width canvas)%Z -> (0 < canvas_height canvas)%Z ->
  Forall (fun v => (0 <= v <= 255)%Z) (canvas_pixels canvas) ->
  (0 <= dflt (o_width options) 80)%Z ->
  (forall h, o_height options = Some h -> (0 <= h)%Z) ->
  dflt (o_characterSet options) CHARSET_STANDARD <> EmptyString ->
  dflt (o_invert options) false = false \/
  ~ dflt (o_contrast options) 1 == 1 ->
  exists r H cell,
    canvasToASCII (NUM := QNum qsqrt) canvas options = Ok r /\
    r_width r = dflt (o_width options) 80%Z /\
    r_height r = Some H /\ (0 <= H)%Z /\
    (forall x y,
       In (cell x y)
          (list_ascii_of_string
             (dflt (o_characterSet options) CHARSET_STANDARD))) /\
    r_ascii r
    = gridText (fun x y => String (cell x y) EmptyString) (r_width r) H /\
    String.length (r_ascii r) = Z.to_nat ((r_width r + 1) * H).
Proof.
  intros Hctx Hcw Hch HF HW Hh Hcs _.
  destruct (@targetDimensions_nonneg qsqrt canvas options Hcw Hch HW Hh)
    as (H & ED & HH).
  set (W := dflt (o_width options) 80%Z) in *.
  set (cs := dflt (o_characterSet options) CHARSET_STANDARD) in *.
  set (shown := fun x y =>
         enhanced (NUM := QNum qsqrt)
           (rawLuminance (NUM := QNum qsqrt) canvas options) W H
           (dflt (o_edgeEnhance options) false) x y).
  assert (Hshown : forall x y,
            exists c, luminanceToChar (NUM := QNum qsqrt) (shown x y) cs
                      = Some c /\ In c (list_ascii_of_string cs)).
  { intros x y. apply luminanceToChar_in_ramp; [|exact Hcs].
    apply enhanced_unit. now apply rawLuminance_unit. }
  set (cell := fun x y =>
         match luminanceToChar (NUM := QNum qsqrt) (shown x y) cs with
         | Some c => c
         | None => " "%char
         end).
  assert (Hcell : forall x y, In (cell x y) (list_ascii_of_string cs)).
  { intros x y. subst cell. cbv beta.
    destruct (Hshown x y) as (c & -> & Hin). exact Hin. }
  assert (Htext :
    gridText (fun x y =>
      toStr (luminanceToChar (NUM := QNum qsqrt) (shown x y) cs)) W H
    = gridText (fun x y => String (cell x y) EmptyString) W H).
  { apply gridText_ext. intros x y _ _. subst cell. cbv beta.
    destruct (Hshown x y) as (c & -> & _). reflexivity. }
  pose proof (@canvasToASCII_cells Q (QNum qsqrt) canvas options Hctx
                ltac:(lia) ltac:(lia)) as Hcells.
  cbv zeta in Hcells. rewrite ED in Hcells. cbn [fst snd dflt] in Hcells.
  specialize (Hcells ltac:(nia)).
  exists {| r_ascii := gridText (fun x y => String (cell x y) EmptyString)
                         W H;
            r_width := W; r_height := Some H |}, H, cell.
  split; [rewrite <- Htext; exact Hcells|]. cbn [r_width r_height r_ascii].
  split; [reflexivity|]. split; [reflexivity|]. split; [exact HH|].
  split; [exact Hcell|].
  split; [reflexivity|]. now apply gridText_length.
Qed.

Lemma canvasToASCII_text_shape_witness :
  exists r H cell,
    canvasToASCII (NUM := QNum Qsqrt6) column3x3 (grid3x3 true) = Ok r /\
    r_width r = 3%Z /\ r_height r = Some H /\ (0 <= H)%Z /\
    (forall x y, In (cell x y) (list_ascii_of_string CHARSET_STANDARD)) /\
    r_ascii r
    = gridText (fun x y => String (cell x y) EmptyString) (r_width r) H /\
    String.length (r_ascii r) = Z.to_nat ((r_width r + 1) * H).
Proof.
  apply (@canvasToASCII_text_shape Qsqrt6 column3x3 (grid3x3 true)).
  - reflexivity.
  - reflexivity.
  - reflexivity.
  - cbn [canvas_pixels column3x3]. repeat constructor; lia.
  - cbn. lia.
  - intros h [= <-]. lia.
  - discriminate.
  - left. reflexivity.
Defined.

(** ** The rectangle a cell samples *)

Lemma in_span_iff (n W px x : Z) :
  (0 < W)%Z ->
  (x * n / W <= px < (x + 1) * n / W)%Z <->
  (x * n < (px + 1) * W <= (x + 1) * n)%Z.
Proof.
  intros HW.
  pose proof (Z.mul_succ_div_gt (x * n) W HW) as U1.
  pose proof (Z.mul_div_le ((x + 1) * n) W HW) as L2.
  split.
  - intros [H1 H2]. split; nia.
  - intros [H1 H2]. split.
    + apply Z.lt_succ_r. apply Z.div_lt_upper_bound; lia.
    + apply Z.lt_le_trans with (px + 1)%Z; [lia|].
      apply Z.div_le_lower_bound; lia.
Qed.

(** Of [n] pixels and [W] cells, pixel [px] is in the span of exactly one
    cell. *)
Lemma span_unique (n W px : Z) :
  (0 < n)%Z -> (0 < W)%Z -> (0 <= px < n)%Z ->
  exists x,
    ((0 <= x < W)%Z /\ (x * n / W <= px < (x + 1) * n / W)%Z) /\
    forall x', (0 <= x' < W)%Z ->
               (x' * n / W <= px < (x' + 1) * n / W)%Z -> x' = x.
Proof.
  intros Hn HW Hpx. exists (((px + 1) * W - 1) / n)%Z.
  set (x := (((px + 1) * W - 1) / n)%Z).
  assert (Hx : (x * n <= (px + 1) * W - 1 < (x + 1) * n)%Z).
  { subst x. pose proof (Z.mul_div_le ((px + 1) * W - 1) n Hn).
    pose proof (Z.mul_succ_div_gt ((px + 1) * W - 1) n Hn). lia. }
  split; [split|].
  - split; [subst x; apply Z.div_pos; nia|].
    subst x. apply Z.div_lt_upper_bound; nia.
  - apply in_span_iff; lia.
  - intros x' Hx' Hin. apply in_span_iff in Hin; [|exact HW]. nia.
Qed.

Lemma span_within (n W x : Z) :
  (0 <= n)%Z -> (0 < W)%Z -> (0 <= x < W)%Z ->
  (0 <= x * n / W)%Z /\ ((x + 1) * n / W <= n)%Z.
Proof.
  intros Hn HW Hx. split.
  - apply Z.div_pos; nia.
  - apply Z.div_le_upper_bound; nia.
Qed.

(** A span is at least one pixel long when there are no more cells than
    pixels. *)
Lemma span_nonempty (n W x : Z) :
  (0 < W <= n)%Z -> (0 <= x)%Z -> (x * n / W + 1 <= (x + 1) * n / W)%Z.
Proof.
  intros HW Hx.
  replace (x * n / W + 1)%Z with ((x * n + 1 * W) / W)%Z
    by (rewrite Z.div_add by lia; reflexivity).
  apply Z.div_le_mono; lia.
Qed.

Lemma fold_addSample_count (pixels : list Z) (f : Z -> Z) (xs : list Z)
    (s : Sums) :
  sampleCount (fold_left (fun s px => addSample pixels s (f px)) xs s)
  = (sampleCount s + Z.of_nat (List.length xs))%Z.
Proof.
  revert s. induction xs as [|x xs IH]; intros s; cbn [fold_left List.length].
  - lia.
  - rewrite IH. cbn [addSample sampleCount]. lia.
Qed.

(** A rectangle of [b - a] columns and [d - c] rows is that many samples. *)
Lemma sampleArea_count (pixels : list Z) (cw a b c d : Z) :
  sampleCount (sampleArea pixels cw (Some a) (Some b) (Some c) (Some d))
  = (Z.max 0 (b - a) * Z.max 0 (d - c))%Z.
Proof.
  unfold sampleArea.
  assert (G : forall ys s,
    sampleCount
      (fold_left (fun s py =>
         fold_left (fun s px => addSample pixels s ((py * cw + px) * 4)%Z)
           (zrange a b) s) ys s)
    = (sampleCount s
       + Z.of_nat (List.length (zrange a b)) * Z.of_nat (List.length ys))%Z).
  { induction ys as [|y ys IH]; intros s; cbn [fold_left List.length].
    - lia.
    - rewrite IH, fold_addSample_count. lia. }
  rewrite G, !zrange_length. cbn [sampleCount noSamples]. lia.
Qed.

(** With no column to sample, nothing is sampled. *)
Lemma sampleArea_no_columns (pixels : list Z) (cw a : Z)
    (startY endY : option Z) :
  sampleArea pixels cw (Some a) (Some a) startY endY = noSamples.
Proof.
  unfold sampleArea. rewrite (@zrange_empty a a) by lia.
  cbn [fold_left].
  destruct startY, endY; try reflexivity.
  generalize (zrange z z0). intros ys.
  induction ys as [|y ys IH]; [reflexivity | exact IH].
Qed.

(** The totals of a cell are taken over its rows and its columns. *)
Lemma cellValue_spans {num : Type} {NUM : Number num} (pixels : list Z)
    (cw ch : Z) (stepX stepY contrast : num) (invert : bool) (x y : Z) :
  cellValue pixels cw ch stepX stepY contrast invert x y
  = cellLuminance
      (fold_left (fun s py =>
         fold_left (fun s px => addSample pixels s ((py * cw + px) * 4)%Z)
           (cellSpan stepX cw x) s)
         (cellSpan stepY ch y) noSamples)
      contrast invert.
Proof. reflexivity. Qed.

Section Sampling.
Variable qsqrt : Q -> Q.
Local Hint Extern 0 (Number Q) => exact (QNum qsqrt) : typeclass_instances.

Lemma floor_scaled (x n W : Z) :
  nfloor (num := Q) (nmul (nofZ x) (ndiv (nofZ n) (nofZ W)))
  = FInt (x * n / W)%Z.
Proof.
  change (FInt (Qfloor (inject_Z x * (inject_Z n / inject_Z W)))
          = FInt (x * n / W)%Z).
  f_equal. etransitivity; [|symmetry; apply Zdiv_Qdiv].
  apply Qfloor_comp. rewrite inject_Z_mult. unfold Qdiv. ring.
Qed.

(** The rectangle of cell [(x, y)] of a [W x H] grid over a canvas of
    [cw x ch] pixels. *)
Lemma cellValue_rectangle (pixels : list Z) (cw ch W H : Z)
    (contrast : Q) (invert : bool) (x y : Z) :
  (0 <= cw)%Z -> (0 <= ch)%Z -> (0 < W)%Z -> (0 < H)%Z ->
  (0 <= x < W)%Z -> (0 <= y < H)%Z ->
  cellValue pixels cw ch (ndiv (nofZ cw) (nofZ W)) (ndiv (nofZ ch) (nofZ H))
    contrast invert x y
  = cellLuminance
      (sampleArea pixels cw
         (Some (x * cw / W)%Z) (Some ((x + 1) * cw / W)%Z)
         (Some (y * ch / H)%Z) (Some ((y + 1) * ch / H)%Z))
      contrast invert.
Proof.
  intros Hcw Hch HW HH Hx Hy. unfold cellValue.
  rewrite !floor_scaled. cbn [fmin finite].
  destruct (@span_within cw W x) as [_ Ex]; try lia.
  destruct (@span_within ch H y) as [_ Ey]; try lia.
  rewrite !Z.min_l by assumption. reflexivity.
Qed.

Lemma cellSpan_In (size W x p : Z) :
  (0 <= size)%Z -> (0 < W)%Z -> (0 <= x < W)%Z ->
  In p (cellSpan (num := Q) (ndiv (nofZ size) (nofZ W)) size x) <->
  (x * size / W <= p < (x + 1) * size / W)%Z.
Proof.
  intros Hs HW Hx. unfold cellSpan. rewrite !floor_scaled.
  cbn [fmin finite span].
  destruct (@span_within size W x) as [_ Ex]; try lia.
  rewrite Z.min_l by assumption. apply zrange_In.
Qed.

End Sampling.

(** X2.  In exact arithmetic, for a grid of [W] columns on a canvas of
    [size] pixel columns: the pixel columns a cell samples lie on the
    canvas, and no pixel column is sampled by two columns of the grid, so
    no pixel is counted twice.  (Rows are cut by the same formula.)  The
    first part is how [cellValue] uses the spans, in every arithmetic. *)
Theorem cells_never_overlap (qsqrt : Q -> Q) (size W : Z) :
  (0 < size)%Z -> (0 < W)%Z ->
  let step := inject_Z size / inject_Z W in
  (forall (num : Type) (NUM : Number num) (pixels : list Z) (cw ch : Z)
          (stepX stepY contrast : num) (invert : bool) (x y : Z),
     cellValue pixels cw ch stepX stepY contrast invert x y
     = cellLuminance
         (fold_left (fun s py =>
            fold_left
              (fun s px => addSample pixels s ((py * cw + px) * 4)%Z)
              (cellSpan stepX cw x) s)
            (cellSpan stepY ch y) noSamples)
         contrast invert) /\
  (forall x p, (0 <= x < W)%Z ->
     In p (cellSpan (NUM := QNum qsqrt) step size x) -> (0 <= p < size)%Z) /\
  (forall x x' p, (0 <= x < W)%Z -> (0 <= x' < W)%Z ->
     In p (cellSpan (NUM := QNum qsqrt) step size x) ->
     In p (cellSpan (NUM := QNum qsqrt) step size x') -> x = x').
Proof.
  intros Hs HW step. split; [|split].
  - intros. apply cellValue_spans.
  - intros x p Hx Hp.
    apply (@cellSpan_In qsqrt size W x p) in Hp; try lia.
    destruct (@span_within size W x) as [L U]; lia.
  - intros x x' p Hx Hx' Hp Hp'.
    apply (@cellSpan_In qsqrt size W x p) in Hp; try lia.
    apply (@cellSpan_In qsqrt size W x' p) in Hp'; try lia.
    apply in_span_iff in Hp, Hp'; try exact HW. nia.
Qed.

Lemma cells_never_overlap_witness :
  cellSpan (NUM := QNum Qsqrt6) (inject_Z 3 / inject_Z 2) 3 0 = [0%Z] /\
  cellSpan (NUM := QNum Qsqrt6) (inject_Z 3 / inject_Z 2) 3 1 = [1%Z; 2%Z] /\
  (0 <= 2 < 3)%Z.
Proof.
  split; [reflexivity|]. split; [reflexivity|].
  destruct (@cells_never_overlap Qsqrt6 3 2) as (_ & H & _); [lia | lia |].
  apply (H 1%Z 2%Z); [lia|]. vm_compute. right. left. reflexivity.
Defined.

(** X3.  In exact arithmetic, when the grid has no more columns and rows
    than the canvas has pixel columns and rows, every cell averages at
    least one pixel, so the white stand-in for a cell without samples is
    not used. *)
Theorem cells_sample_pixels (qsqrt : Q -> Q) (pixels : list Z)
    (cw ch W H : Z) (contrast : Q) (invert : bool) (x y : Z) :
  (0 < W <= cw)%Z -> (0 < H <= ch)%Z ->
  (0 <= x < W)%Z -> (0 <= y < H)%Z ->
  let stepX := inject_Z cw / inject_Z W in
  let stepY := inject_Z ch / inject_Z H in
  let s :=
    sampleArea pixels cw
      (finite (nfloor (Number := QNum qsqrt) (inject_Z x * stepX)))
      (finite (fmin (nfloor (Number := QNum qsqrt) (inject_Z (x + 1) * stepX))
                 cw))
      (finite (nfloor (Number := QNum qsqrt) (inject_Z y * stepY)))
      (finite (fmin (nfloor (Number := QNum qsqrt) (inject_Z (y + 1) * stepY))
                 ch)) in
  cellValue (NUM := QNum qsqrt) pixels cw ch stepX stepY contrast invert x y
  = cellLuminance (NUM := QNum qsqrt) s contrast invert /\
  (1 <= sampleCount s)%Z.
Proof.
  intros HW HH Hx Hy stepX stepY s. split; [reflexivity|].
  subst s stepX stepY.
  rewrite !(floor_scaled qsqrt). cbn [fmin finite].
  destruct (@span_within cw W x) as [_ Ex]; try lia.
  destruct (@span_within ch H y) as [_ Ey]; try lia.
  rewrite !Z.min_l by assumption. rewrite sampleArea_count.
  pose proof (@span_nonempty cw W x HW ltac:(lia)).
  pose proof (@span_nonempty ch H y HH ltac:(lia)).
  nia.
Qed.

Lemma cells_sample_pixels_witness :
  Z.le 1
    (sampleCount
       (sampleArea (canvas_pixels column3x3) 3
          (finite (nfloor (Number := QNum Qsqrt6)
                     (inject_Z 1 * (inject_Z 3 / inject_Z 2))))
          (finite (fmin (nfloor (Number := QNum Qsqrt6)
                           (inject_Z (1 + 1) * (inject_Z 3 / inject_Z 2)))
                     3))
          (finite (nfloor (Number := QNum Qsqrt6)
                     (inject_Z 1 * (inject_Z 3 / inject_Z 2))))
          (finite (fmin (nfloor (Number := QNum Qsqrt6)
                           (inject_Z (1 + 1) * (inject_Z 3 / inject_Z 2)))
                     3)))).
Proof.
  apply (@cells_sample_pixels Qsqrt6 (canvas_pixels column3x3) 3 3 2 2
           1 false 1 1); lia.
Defined.

(** In binary64 the bounds of consecutive cells still meet (they are the
    one value [floor((x + 1) * stepX)]), but the last bound can be rounded
    down: of 15 pixel columns cut into 11 cells, the last cell ends at 14,
    and pixel column 14 is in no cell. *)
Example last_column_binary64 :
  @nfloor float F64.Num
    (@nmul float F64.Num (@nofZ float F64.Num 11)
       (@ndiv float F64.Num (@nofZ float F64.Num 15)
          (@nofZ float F64.Num 11)))
  = FInt 14%Z /\
  @nfloor Q (QNum Qsqrt6)
    (@nmul Q (QNum Qsqrt6) (@nofZ Q (QNum Qsqrt6) 11)
       (@ndiv Q (QNum Qsqrt6) (@nofZ Q (QNum Qsqrt6) 15)
          (@nofZ Q (QNum Qsqrt6) 11)))
  = FInt 15%Z.
Proof. split; vm_compute; reflexivity. Qed.

(** The rest holds in binary64 as well, here for every canvas of up to 32
    pixel columns and every grid of up to 32 columns: no pixel column is
    sampled twice, and no cell of a grid that is no wider than the canvas
    is without a pixel column. *)
Example cells_binary64 :
  forallb (fun size => forallb (spansApart size) (zrange 1 33)) (zrange 1 33)
  = true.
Proof. vm_cast_no_check (eq_refl true). Qed.

(** ** Luminance up to equality of rationals *)

Lemma composite_compat (L L' a a' : Q) :
  L == L' -> a == a' -> composite L a == composite L' a'.
Proof.
  intros HL Ha. unfold composite.
  destruct (Qltb_spec a (inject_Z 1)) as [[-> H]|[-> H]];
    destruct (Qltb_spec a' (inject_Z 1)) as [[-> H']|[-> H']];
    try (rewrite HL, Ha; reflexivity);
    exfalso; rewrite Ha in H; lra.
Qed.

Lemma adjust_compat (c : Q) (inv : bool) (l l' : Q) :
  l == l' -> adjust c inv l == adjust c inv l'.
Proof.
  intros E. unfold adjust. cbv zeta.
  destruct (negb (Qeq_bool c (inject_Z 1))), inv; rewrite E; reflexivity.
Qed.

Lemma luminanceToChar_compat (qsqrt : Q -> Q) (l l' : Q) (cs : string) :
  l == l' ->
  luminanceToChar (NUM := QNum qsqrt) l cs
  = luminanceToChar (NUM := QNum qsqrt) l' cs.
Proof.
  intros E. unfold luminanceToChar. rewrite !luminanceIndex_exact.
  rewrite (@Qfloor_comp
             (l * inject_Z (Z.of_nat (String.length cs) - 1))
             (l' * inject_Z (Z.of_nat (String.length cs) - 1)));
    [reflexivity|]. now rewrite E.
Qed.

Lemma meanChannel_flat (v n : Z) :
  (0 < n)%Z -> meanChannel (v * n) n == inject_Z v.
Proof.
  intros Hn. unfold meanChannel. destruct (Z.ltb_spec 0 n); [|lia].
  rewrite inject_Z_mult. field.
  intros E. unfold Qeq in E. cbn in E. lia.
Qed.

Lemma pixelLuminance_unit (r g b a : Z) :
  (0 <= r <= 255)%Z -> (0 <= g <= 255)%Z -> (0 <= b <= 255)%Z ->
  (0 <= a <= 255)%Z -> 0 <= pixelLuminance r g b a <= 1.
Proof.
  intros Hr Hg Hb Ha. unfold pixelLuminance.
  assert (B : forall v, (0 <= v <= 255)%Z -> 0 <= inject_Z v <= 255).
  { intros v Hv. change 0 with (inject_Z 0). change 255 with (inject_Z 255).
    rewrite <- !Zle_Qle. exact Hv. }
  pose proof (B r Hr). pose proof (B g Hg). pose proof (B b Hb).
  pose proof (B a Ha).
  apply composite_unit; [lra|].
  change (inject_Z 255) with (255 # 1). split.
  - apply Qle_shift_div_l; lra.
  - apply Qle_shift_div_r; lra.
Qed.

(** ** Flat canvases *)

Lemma sampleArea_flat (canvas : HTMLCanvasElement) (r g b a : Z)
    (startX endX startY endY : option Z) :
  flat canvas r g b a ->
  withinCanvas (canvas_width canvas) (canvas_height canvas)
    startX endX startY endY ->
  let s := sampleArea (canvas_pixels canvas) (canvas_width canvas)
             startX endX startY endY in
  totalR s = (r * sampleCount s)%Z /\ totalG s = (g * sampleCount s)%Z /\
  totalB s = (b * sampleCount s)%Z /\ totalA s = (a * sampleCount s)%Z.
Proof.
  intros HF Hin.
  apply (@sampleArea_invariant_within
           (fun s => totalR s = (r * sampleCount s)%Z /\
                     totalG s = (g * sampleCount s)%Z /\
                     totalB s = (b * sampleCount s)%Z /\
                     totalA s = (a * sampleCount s)%Z)
           (canvas_pixels canvas) (canvas_width canvas)
           (canvas_height canvas)); [exact Hin | cbn; lia |].
  intros s k Hk (Er & Eg & Eb & Ea).
  destruct (HF k Hk) as (Pr & Pg & Pb & Pa).
  unfold addSample. cbn [totalR totalG totalB totalA sampleCount].
  rewrite Pr, Pg, Pb, Pa, Er, Eg, Eb, Ea. repeat split; ring.
Qed.

Lemma cellLuminance_flat (qsqrt : Q -> Q) (s : Sums) (r g b a : Z)
    (contrast : Q) (invert : bool) :
  (0 < sampleCount s)%Z ->
  totalR s = (r * sampleCount s)%Z -> totalG s = (g * sampleCount s)%Z ->
  totalB s = (b * sampleCount s)%Z -> totalA s = (a * sampleCount s)%Z ->
  cellLuminance (NUM := QNum qsqrt) s contrast invert
  == adjust contrast invert (pixelLuminance r g b a).
Proof.
  intros Hn Er Eg Eb Ea. rewrite cellLuminance_stages.
  apply adjust_compat. unfold pixelLuminance. apply composite_compat.
  - unfold weightedRGB. rewrite Er, Eg, Eb.
    rewrite !meanChannel_flat by exact Hn. reflexivity.
  - unfold meanAlpha. destruct (Z.ltb_spec 0 (sampleCount s)); [|lia].
    rewrite Ea, inject_Z_mult. change (inject_Z 255) with (255 # 1). field.
    intros E. unfold Qeq in E. cbn in E. lia.
Qed.

Lemma targetDimensions_given {num : Type} {NUM : Number num}
    (canvas : HTMLCanvasElement) (options : ASCIIMapperOptions num)
    (W H : Z) :
  o_width options = Some W -> o_height options = Some H -> H <> 0%Z ->
  targetDimensions canvas options = (W, Some H).
Proof.
  intros Hw Hh HH. unfold targetDimensions. rewrite Hw, Hh. cbn [dflt].
  destruct (dflt (o_maintainAspectRatio options) true);
    destruct H as [|p|p]; try contradiction; reflexivity.
Qed.

Section FlatExact.
Variable qsqrt : Q -> Q.
Local Hint Extern 0 (Number Q) => exact (QNum qsqrt) : typeclass_instances.

Lemma clamp01_id (v : Q) : 0 <= v <= 1 -> clamp01 v == v.
Proof.
  intros Hv. unfold clamp01. cbn [nmax nmin nofZ QNum].
  change (inject_Z 0) with 0. change (inject_Z 1) with 1.
  rewrite (Q.min_r 1 v) by lra. apply Q.max_r. lra.
Qed.

Lemma clamp01_compat (v v' : Q) : v == v' -> clamp01 v == clamp01 v'.
Proof.
  intros E. unfold clamp01. cbn [nmax nmin nofZ QNum]. now rewrite E.
Qed.

(** On a grid of one value in [0,1] the gradient is zero and the
    enhancement changes nothing. *)
Lemma enhanced_flat (raw : Z -> Z -> Q) (v : Q) (W H : Z) (e : bool)
    (x y : Z) :
  (forall q, q == 0 -> qsqrt q == 0) ->
  (forall x y, (0 <= x < W)%Z -> (0 <= y < H)%Z -> raw x y == v) ->
  0 <= v <= 1 ->
  (0 <= x < W)%Z -> (0 <= y < H)%Z ->
  enhanced raw W H e x y == v.
Proof.
  intros Hsqrt Hraw Hv Hx Hy. unfold enhanced.
  destruct (e && interior W H x y) eqn:Ei; [|now apply Hraw].
  apply andb_prop in Ei. destruct Ei as [_ Ei]. unfold interior in Ei.
  repeat (apply andb_prop in Ei; destruct Ei as [Ei ?]).
  repeat match goal with
         | H : (_ <? _)%Z = true |- _ => apply Z.ltb_lt in H
         end.
  unfold gradientMagnitude.
  assert (HX : sobelX raw x y == 0).
  { unfold sobelX. cbn [nadd nsub nmul nneg nofZ QNum].
    change (inject_Z 2) with (2 # 1).
    pose proof (Hraw (x - 1) (y - 1))%Z. pose proof (Hraw (x + 1) (y - 1))%Z.
    pose proof (Hraw (x - 1) y)%Z. pose proof (Hraw (x + 1) y)%Z.
    pose proof (Hraw (x - 1) (y + 1))%Z. pose proof (Hraw (x + 1) (y + 1))%Z.
    repeat match goal with
           | H : _ -> _ -> _ |- _ =>
               let H' := fresh in
               assert (H' := H ltac:(lia) ltac:(lia)); clear H
           end.
    lra. }
  assert (HY : sobelY raw x y == 0).
  { unfold sobelY. cbn [nadd nsub nmul nneg nofZ QNum].
    change (inject_Z 2) with (2 # 1).
    pose proof (Hraw (x - 1) (y - 1))%Z. pose proof (Hraw x (y - 1))%Z.
    pose proof (Hraw (x + 1) (y - 1))%Z. pose proof (Hraw (x - 1) (y + 1))%Z.
    pose proof (Hraw x (y + 1))%Z. pose proof (Hraw (x + 1) (y + 1))%Z.
    repeat match goal with
           | H : _ -> _ -> _ |- _ =>
               let H' := fresh in
               assert (H' := H ltac:(lia) ltac:(lia)); clear H
           end.
    lra. }
  cbn [nadd nsub nmul nsqrt nlit QNum].
  assert (HS : qsqrt (sobelX raw x y * sobelX raw x y
                      + sobelY raw x y * sobelY raw x y) == 0).
  { apply Hsqrt. rewrite HX, HY. reflexivity. }
  rewrite <- (clamp01_id Hv). apply clamp01_compat.
  rewrite HS, (Hraw x y Hx Hy). ring.
Qed.

(** The first-pass value of a cell of a flat canvas, when the grid is no
    finer than the canvas. *)
Lemma rawLuminance_flat (canvas : HTMLCanvasElement)
    (options : ASCIIMapperOptions Q) (r g b a W H x y : Z) :
  flat canvas r g b a ->
  o_width options = Some W -> o_height options = Some H ->
  (0 < W <= canvas_width canvas)%Z -> (0 < H <= canvas_height canvas)%Z ->
  (0 <= x < W)%Z -> (0 <= y < H)%Z ->
  rawLuminance canvas options x y
  == adjust (dflt (o_contrast options) 1) (dflt (o_invert options) false)
       (pixelLuminance r g b a).
Proof.
  intros HF Hw Hh HW HH Hx Hy. unfold rawLuminance.
  rewrite (@targetDimensions_given Q _ canvas options W H Hw Hh)
    by lia.
  cbn [dflt nfround QNum].
  rewrite (@cellValue_rectangle qsqrt (canvas_pixels canvas)
             (canvas_width canvas) (canvas_height canvas) W H) by lia.
  pose proof (@span_within (canvas_width canvas) W x) as [Sx0 Sx1]; try lia.
  pose proof (@span_within (canvas_height canvas) H y) as [Sy0 Sy1]; try lia.
  pose proof (@span_nonempty (canvas_width canvas) W x HW ltac:(lia)) as Nx.
  pose proof (@span_nonempty (canvas_height canvas) H y HH ltac:(lia)) as Ny.
  match goal with
  | |- cellLuminance ?s _ _ == _ => set (sums := s)
  end.
  assert (Hn : (0 < sampleCount sums)%Z).
  { subst sums. rewrite sampleArea_count. nia. }
  destruct (@sampleArea_flat canvas r g b a
              (Some (x * canvas_width canvas / W)%Z)
              (Some ((x + 1) * canvas_width canvas / W)%Z)
              (Some (y * canvas_height canvas / H)%Z)
              (Some ((y + 1) * canvas_height canvas / H)%Z) HF)
    as (Er & Eg & Eb & Ea).
  { repeat split; intros v [= <-]; lia. }
  fold sums in Er, Eg, Eb, Ea.
  now apply cellLuminance_flat.
Qed.

End FlatExact.

Lemma adjust_black (c : Q) (l : Q) :
  l == 0 -> 1 <= c -> adjust c false l == 0.
Proof.
  intros Hl Hc. unfold adjust. cbv zeta.
  change (inject_Z 0) with 0. change (inject_Z 1) with 1.
  destruct (negb (Qeq_bool c 1)); [|exact Hl].
  assert (Hv : (l - (1 # 2)) * c + (1 # 2) <= 0) by (rewrite Hl; lra).
  rewrite (Q.min_r 1 _) by lra. apply Q.max_l. exact Hv.
Qed.

Lemma luminanceToChar_black (qsqrt : Q -> Q) (v : Q) (cs : string) :
  v == 0 -> cs <> EmptyString ->
  luminanceToChar (NUM := QNum qsqrt) v cs = String.get 0 cs.
Proof.
  intros Hv Hcs.
  assert (Hn : (1 <= String.length cs)%nat).
  { destruct cs; [congruence | simpl; lia]. }
  unfold luminanceToChar. rewrite luminanceIndex_exact.
  set (n := Z.of_nat (String.length cs)).
  assert (F : Qfloor (v * inject_Z (n - 1)) = 0%Z).
  { apply Qfloor_eq. rewrite Hv. change (inject_Z 0) with 0. ring. }
  rewrite F, Z.min_l by (subst n; lia).
  destruct (@charAt_in_range 0%Z cs) as [G _]; [subst n; lia|].
  exact G.
Qed.

(** X5.  In exact arithmetic (with [sqrt 0 = 0]), without inversion: a
    canvas of one colour converts, whenever the grid is no finer than the
    canvas and the ramp is not empty, to a text of one character of the
    ramp, the same in every cell, with edge enhancement on or off; at a
    contrast of 1 or more, opaque black gives the first character of the
    ramp and opaque white the last.  (Which character a colour in between
    gets can depend on the rounding of the [Float32Array] store: see
    [flat_colour_binary64].) *)
Theorem flat_canvas_flat_text (qsqrt : Q -> Q) (canvas : HTMLCanvasElement)
    (options : ASCIIMapperOptions Q) (r g b a W H : Z) :
  (forall q, q == 0 -> qsqrt q == 0) ->
  canvas_context2d canvas = true ->
  flat canvas r g b a ->
  (0 <= r <= 255)%Z -> (0 <= g <= 255)%Z -> (0 <= b <= 255)%Z ->
  (0 <= a <= 255)%Z ->
  o_width options = Some W -> o_height options = Some H ->
  (0 < W <= canvas_width canvas)%Z -> (0 < H <= canvas_height canvas)%Z ->
  dflt (o_invert options) false = false ->
  let cs := dflt (o_characterSet options) CHARSET_STANDARD in
  let contrast := dflt (o_contrast options) 1 in
  cs <> EmptyString ->
  exists res c,
    canvasToASCII (NUM := QNum qsqrt) canvas options = Ok res /\
    In c (list_ascii_of_string cs) /\
    r_ascii res = gridText (fun _ _ => String c EmptyString) W H /\
    (1 <= contrast ->
     r = 0%Z -> g = 0%Z -> b = 0%Z -> a = 255%Z ->
     String.get 0 cs = Some c) /\
    (1 <= contrast ->
     r = 255%Z -> g = 255%Z -> b = 255%Z -> a = 255%Z ->
     String.get (String.length cs - 1) cs = Some c).
Proof.
  intros Hsqrt Hctx HF Hr Hg Hb Ha Hw Hh HW HH Hinv cs contrast Hcs.
  set (v := adjust contrast false (pixelLuminance r g b a)).
  assert (Hv : 0 <= v <= 1).
  { subst v. apply adjust_unit. now apply pixelLuminance_unit. }
  destruct (@luminanceToChar_in_ramp qsqrt v cs Hv Hcs) as (c & Hc & Hin).
  pose proof (@targetDimensions_given Q (QNum qsqrt) canvas options W H
                Hw Hh ltac:(lia)) as ED.
  pose proof (@canvasToASCII_cells Q (QNum qsqrt) canvas options Hctx
                ltac:(lia) ltac:(lia)) as Hcells.
  cbv zeta in Hcells. rewrite ED in Hcells. cbn [fst snd dflt] in Hcells.
  specialize (Hcells ltac:(nia)).
  eexists. exists c. split; [exact Hcells|]. split; [exact Hin|].
  cbn [r_ascii]. split; [|split].
  - apply gridText_ext. intros x y Hx Hy. fold cs.
    match goal with
    | |- toStr (luminanceToChar ?l cs) = _ =>
        rewrite (@luminanceToChar_compat qsqrt l v cs), Hc; [reflexivity|]
    end.
    apply enhanced_flat; try assumption.
    intros x' y' Hx' Hy'. subst v. rewrite <- Hinv.
    now apply (@rawLuminance_flat qsqrt canvas options r g b a W H x' y').
  - intros Hc1 -> -> -> ->. rewrite <- Hc.
    symmetry. apply luminanceToChar_black; [|exact Hcs].
    subst v. apply adjust_black; [|exact Hc1]. reflexivity.
  - intros Hc1 -> -> -> ->. rewrite <- Hc.
    destruct (@luminanceToChar_white qsqrt v cs) as [E _];
      [|exact Hcs|symmetry; exact E].
    subst v. apply adjust_white; [|exact Hc1]. reflexivity.
Qed.

Lemma black2x2_flat : flat black2x2 0 0 0 255.
Proof.
  intros k Hk. cbn [canvas_width canvas_height black2x2] in Hk.
  assert (E : k = 0%Z \/ k = 1%Z \/ k = 2%Z \/ k = 3%Z) by lia.
  destruct E as [-> | [-> | [-> | ->]]]; repeat split; reflexivity.
Qed.

Lemma flat_canvas_flat_text_witness :
  exists res,
    canvasToASCII (NUM := QNum Qsqrt6) black2x2
      (heightGiven 2 1 CHARSET_STANDARD None false true) = Ok res /\
    r_ascii res = ("@@" ++ newline)%string.
Proof.
  destruct (@flat_canvas_flat_text Qsqrt6 black2x2
              (heightGiven 2 1 CHARSET_STANDARD None false true)
              0 0 0 255 2 1)
    as (res & c & Hres & _ & Ht & Hblack & _);
    [ exact Qsqrt6_zero | reflexivity | exact black2x2_flat
    | lia | lia | lia | lia | reflexivity | reflexivity
    | cbn; lia | cbn; lia | reflexivity | discriminate | ].
  exists res. split; [exact Hres|]. rewrite Ht.
  assert (E : Some "@"%char = Some c).
  { apply Hblack; [discriminate | reflexivity ..]. }
  injection E as <-. reflexivity.
Defined.

(** One colour, one character, in binary64 as in exact arithmetic; but the
    character can differ: the luminance of opaque (7, 251, 255) is 0.7,
    the store into the [Float32Array] rounds it to the float32 below 0.7,
    and on a ramp of eleven characters the index is 6 where exact
    arithmetic has 7. *)
Example flat_colour_binary64 :
  canvasToASCII (NUM := F64.Num) cyan1x1
    (heightGiven 1 1 "9876543210 " None false false)
  = Ok {| r_ascii := ("3" ++ newline)%string; r_width := 1;
          r_height := Some 1%Z |} /\
  canvasToASCII (NUM := QNum Qsqrt6) cyan1x1
    (heightGiven 1 1 "9876543210 " None false false)
  = Ok {| r_ascii := ("2" ++ newline)%string; r_width := 1;
          r_height := Some 1%Z |}.
Proof. split; vm_compute; reflexivity. Qed.

(** ** A grid wider than the canvas *)

Section UpscaleExact.
Variable qsqrt : Q -> Q.
Local Hint Extern 0 (Number Q) => exact (QNum qsqrt) : typeclass_instances.

(** The cells of column 0 sample nothing when there are more columns than
    pixel columns: their span is [floor(0) .. floor(cw / W) - 1], which is
    empty. *)
Lemma first_column_empty (pixels : list Z) (cw ch W : Z) (stepY : Q)
    (contrast : Q) (invert : bool) (y : Z) :
  (0 <= cw < W)%Z ->
  cellValue pixels cw ch (ndiv (nofZ cw) (nofZ W)) stepY contrast invert 0 y
  = cellLuminance noSamples contrast invert.
Proof.
  intros HW. unfold cellValue. rewrite !floor_scaled.
  change (0 + 1)%Z with 1%Z. rewrite Z.mul_0_l, Z.mul_1_l.
  rewrite Z.div_0_l by lia. rewrite Z.div_small by lia.
  cbn [fmin finite]. rewrite Z.min_l by lia.
  now rewrite sampleArea_no_columns.
Qed.

End UpscaleExact.

(** X4.  In exact arithmetic, for byte pixels: when the grid has more
    columns than the canvas has pixel columns, the cells of the first
    column sample no pixel and are taken for white: without inversion and
    at a contrast of 1 or more, the first character of every row of the
    text (the one at [y * (W + 1)], rows being [W] characters and a line
    break) is the last character of the ramp, whatever the canvas
    shows. *)
Theorem upscaled_first_column_blank (qsqrt : Q -> Q)
    (canvas : HTMLCanvasElement) (options : ASCIIMapperOptions Q) (W : Z) :
  canvas_context2d canvas = true ->
  (0 < canvas_width canvas)%Z -> (0 < canvas_height canvas)%Z ->
  Forall (fun v => (0 <= v <= 255)%Z) (canvas_pixels canvas) ->
  o_width options = Some W -> (canvas_width canvas < W)%Z ->
  (forall h, o_height options = Some h -> (0 <= h)%Z) ->
  dflt (o_invert options) false = false ->
  1 <= dflt (o_contrast options) 1 ->
  let cs := dflt (o_characterSet options) CHARSET_STANDARD in
  cs <> EmptyString ->
  exists r H last,
    canvasToASCII (NUM := QNum qsqrt) canvas options = Ok r /\
    r_width r = W /\ r_height r = Some H /\
    String.get (String.length cs - 1) cs = Some last /\
    String.length (r_ascii r) = Z.to_nat ((W + 1) * H) /\
    forall y, (0 <= y < H)%Z ->
      String.get (Z.to_nat (y * (W + 1))) (r_ascii r) = Some last.
Proof.
  intros Hctx Hcw Hch HF Hw HW Hh Hinv Hc cs Hcs.
  destruct (@targetDimensions_nonneg qsqrt canvas options Hcw Hch)
    as (H & ED & HH); [rewrite Hw; cbn; lia | exact Hh |].
  rewrite Hw in ED. cbn [dflt] in ED.
  destruct (@luminanceToChar_white qsqrt 1 cs) as [_ [last Hlast]];
    [reflexivity | exact Hcs |].
  set (shown := fun x y =>
         enhanced (NUM := QNum qsqrt)
           (rawLuminance (NUM := QNum qsqrt) canvas options) W H
           (dflt (o_edgeEnhance options) false) x y).
  assert (Hshown : forall x y,
            exists c, luminanceToChar (NUM := QNum qsqrt) (shown x y) cs
                      = Some c).
  { intros x y.
    destruct (@luminanceToChar_in_ramp qsqrt (shown x y) cs) as (c & E & _);
      [|exact Hcs|exists c; exact E].
    apply enhanced_unit. now apply rawLuminance_unit. }
  set (cell := fun x y =>
         match luminanceToChar (NUM := QNum qsqrt) (shown x y) cs with
         | Some c => c
         | None => " "%char
         end).
  assert (Htext :
    gridText (fun x y =>
      toStr (luminanceToChar (NUM := QNum qsqrt) (shown x y) cs)) W H
    = gridText (fun x y => String (cell x y) EmptyString) W H).
  { apply gridText_ext. intros x y _ _. subst cell. cbv beta.
    destruct (Hshown x y) as (c & ->). reflexivity. }
  assert (Hfirst : forall y, cell 0%Z y = last).
  { intros y. subst cell. cbv beta.
    destruct (@luminanceToChar_white qsqrt (shown 0%Z y) cs) as [E _];
      [|exact Hcs|rewrite E, Hlast; reflexivity].
    subst shown. cbv beta.
    unfold enhanced, interior. cbn [Z.ltb Z.compare andb].
    rewrite Bool.andb_false_r.
    unfold rawLuminance. rewrite ED. cbn [dflt nfround QNum].
    rewrite (@first_column_empty qsqrt) by lia.
    rewrite Hinv. apply cellLuminance_transparent; [reflexivity | exact Hc]. }
  pose proof (@canvasToASCII_cells Q (QNum qsqrt) canvas options Hctx
                ltac:(lia) ltac:(lia)) as Hcells.
  cbv zeta in Hcells. rewrite ED in Hcells. cbn [fst snd dflt] in Hcells.
  specialize (Hcells ltac:(nia)).
  exists {| r_ascii := gridText (fun x y => String (cell x y) EmptyString)
                         W H;
            r_width := W; r_height := Some H |}, H, last.
  split; [rewrite <- Htext; exact Hcells|]. cbn [r_width r_height r_ascii].
  split; [reflexivity|]. split; [reflexivity|]. split; [exact Hlast|].
  split; [apply gridText_length; lia|].
  intros y Hy. replace (y * (W + 1))%Z with (y * (W + 1) + 0)%Z by ring.
  rewrite gridText_get by lia. f_equal. apply Hfirst.
Qed.

Lemma upscaled_first_column_blank_witness :
  exists r,
    canvasToASCII (NUM := QNum Qsqrt6) black1x1
      (heightGiven 2 1 CHARSET_STANDARD None false false) = Ok r /\
    String.get 0 (r_ascii r) = Some " "%char.
Proof.
  destruct (@upscaled_first_column_blank Qsqrt6 black1x1
              (heightGiven 2 1 CHARSET_STANDARD None false false) 2)
    as (r & H & last & Hr & _ & EH & Hlast & _ & Hrow);
    [ reflexivity | reflexivity | reflexivity
    | cbn [canvas_pixels black1x1]; repeat constructor; lia
    | reflexivity | reflexivity
    | intros h [= <-]; lia | reflexivity | discriminate | discriminate | ].
  exists r. split; [exact Hr|].
  assert (E : canvasToASCII (NUM := QNum Qsqrt6) black1x1
                (heightGiven 2 1 CHARSET_STANDARD None false false)
              = Ok {| r_ascii := (" @" ++ newline)%string; r_width := 2;
                      r_height := Some 1%Z |})
    by (vm_compute; reflexivity).
  rewrite E in Hr. injection Hr as <-. cbn [r_height] in EH.
  injection EH as <-. injection Hlast as <-.
  exact (Hrow 0%Z ltac:(lia)).
Defined.

(** The same in binary64. *)
Example upscaled_first_column_binary64 :
  canvasToASCII (NUM := F64.Num) black1x1
    (heightGiven 2 1 CHARSET_STANDARD None false false)
  = Ok {| r_ascii := (" @" ++ newline)%string; r_width := 2;
          r_height := Some 1%Z |}.
Proof. vm_compute. reflexivity. Qed.

(** ** calculateDimensions *)

Section DimensionsExact.
Variable qsqrt : Q -> Q.
Local Hint Extern 0 (Number Q) => exact (QNum qsqrt) : typeclass_instances.

Lemma floor_quotient3 (a b c d : Z) :
  nfloor (num := Q)
    (ndiv (nmul (nmul (nofZ a) (nofZ b)) (nofZ c)) (nofZ d))
  = FInt (a * b * c / d)%Z.
Proof.
  change (FInt (Qfloor (inject_Z a * inject_Z b * inject_Z c / inject_Z d))
          = FInt (a * b * c / d)%Z).
  f_equal. etransitivity; [|symmetry; apply Zdiv_Qdiv].
  apply Qfloor_comp. rewrite !inject_Z_mult. reflexivity.
Qed.

End DimensionsExact.

(** X6.  [calculateDimensions] in exact arithmetic.  A dimension that is 0
    counts as not given.  Given both, it returns both; given neither, it
    returns width 80 and height [floor(80 * Sh / (Sw * 2))]; given the
    height [h] only, it returns width [floor(h * Sw * 2 / Sh)].  Going from
    a width [W] to its height and back from that height never gives a
    wider grid, and loses less than [2 * Sw / Sh + 1] columns. *)
Theorem calculateDimensions_cases (qsqrt : Q -> Q) (Sw Sh W : Z) :
  (0 < Sw)%Z -> (0 < Sh)%Z -> (0 < W)%Z ->
  let H := (W * Sh / (Sw * 2))%Z in
  (0 < H)%Z ->
  (forall w h, w <> 0%Z -> h <> 0%Z ->
     calculateDimensions (NUM := QNum qsqrt) Sw Sh (Some w) (Some h)
     = (Some w, Some h)) /\
  (forall tw th, falsy tw = true -> falsy th = true ->
     calculateDimensions (NUM := QNum qsqrt) Sw Sh tw th
     = (Some 80%Z, Some (80 * Sh / (Sw * 2))%Z)) /\
  (forall tw h, falsy tw = true -> h <> 0%Z ->
     calculateDimensions (NUM := QNum qsqrt) Sw Sh tw (Some h)
     = (Some (h * Sw * 2 / Sh)%Z, Some h)) /\
  calculateDimensions (NUM := QNum qsqrt) Sw Sh (Some W) None
  = (Some W, Some H) /\
  exists W',
    calculateDimensions (NUM := QNum qsqrt) Sw Sh None (Some H)
    = (Some W', Some H) /\
    (W' <= W)%Z /\ ((W - W' - 1) * Sh < 2 * Sw)%Z.
Proof.
  intros HSw HSh HW H HH.
  assert (Hboth : forall w h, w <> 0%Z -> h <> 0%Z ->
     calculateDimensions (NUM := QNum qsqrt) Sw Sh (Some w) (Some h)
     = (Some w, Some h)).
  { intros w h Hw Hh. unfold calculateDimensions.
    destruct w as [|p|p], h as [|q|q]; try contradiction; reflexivity. }
  assert (Hnone : forall tw th, falsy tw = true -> falsy th = true ->
     calculateDimensions (NUM := QNum qsqrt) Sw Sh tw th
     = (Some 80%Z, Some (80 * Sh / (Sw * 2))%Z)).
  { intros tw th Hw Hh. unfold calculateDimensions. rewrite Hw, Hh.
    cbn [negb andb]. now rewrite (floor_quotient qsqrt). }
  assert (Hheight : forall tw h, falsy tw = true -> h <> 0%Z ->
     calculateDimensions (NUM := QNum qsqrt) Sw Sh tw (Some h)
     = (Some (h * Sw * 2 / Sh)%Z, Some h)).
  { intros tw h Hw Hh. unfold calculateDimensions. rewrite Hw.
    destruct h as [|q|q]; try contradiction; cbn [falsy negb andb dflt];
      now rewrite (floor_quotient3 qsqrt). }
  split; [exact Hboth|]. split; [exact Hnone|]. split; [exact Hheight|].
  split.
  - unfold calculateDimensions.
    destruct W as [|p|p]; try lia. cbn [falsy negb andb dflt].
    now rewrite (floor_quotient qsqrt).
  - exists (H * Sw * 2 / Sh)%Z.
    split; [apply Hheight; [reflexivity | lia]|].
    assert (L : (H * (Sw * 2) <= W * Sh)%Z).
    { subst H. rewrite Z.mul_comm. apply Z.mul_div_le. lia. }
    assert (U : (W * Sh < (Sw * 2) * Z.succ H)%Z).
    { subst H. apply Z.mul_succ_div_gt. lia. }
    split.
    + apply Z.div_le_upper_bound; nia.
    + pose proof (Z.mul_succ_div_gt (H * Sw * 2) Sh HSh). nia.
Qed.

Lemma calculateDimensions_cases_witness :
  exists W',
    calculateDimensions (NUM := QNum Qsqrt6) 100 100 None (Some 40%Z)
    = (Some W', Some 40%Z) /\
    (W' <= 81)%Z /\ ((81 - W' - 1) * 100 < 2 * 100)%Z.
Proof.
  destruct (@calculateDimensions_cases Qsqrt6 100 100 81)
    as (_ & _ & _ & _ & H);
    try reflexivity.
  exact H.
Defined.

(** ** The arrays of the point cloud *)

Lemma createASCIIPoints_returns {num : Type} {NUM : Number num}
    (canvas : HTMLCanvasElement) (options : GeometryBuilderOptions num)
    (pc : PointCloud num) :
  createASCIIPoints canvas options = Ok pc ->
  canvas_context2d canvas = true /\
  canvas_width canvas <> 0%Z /\ canvas_height canvas <> 0%Z.
Proof.
  unfold createASCIIPoints, getImageData.
  destruct (canvas_context2d canvas); cbn [negb]; [|discriminate].
  destruct (Z.eqb_spec (canvas_width canvas) 0); cbn [orb]; [discriminate|].
  destruct (Z.eqb_spec (canvas_height canvas) 0); [discriminate|].
  intros _. repeat split; assumption.
Qed.

Lemma flat_map_triples {A B : Type} (f : A -> list B) (l : list A) :
  (forall a, List.length (f a) = 3%nat) ->
  List.length (flat_map f l) = (3 * List.length l)%nat.
Proof.
  intros Hf. induction l as [|a l IH]; cbn [flat_map List.length];
    [reflexivity|].
  rewrite length_app, Hf, IH. lia.
Qed.

(** X7.  For every arithmetic: [createASCIIPoints] throws when the canvas
    gives no 2D context, and the two arrays of a cloud it returns pair up:
    three positions and three colour components for each visited pixel
    whose alpha is above 128. *)
Theorem createASCIIPoints_arrays {num : Type} {NUM : Number num}
    (canvas : HTMLCanvasElement) (options : GeometryBuilderOptions num) :
  (canvas_context2d canvas = false ->
   createASCIIPoints canvas options = Throw "Cannot get canvas context") /\
  (forall pc, createASCIIPoints canvas options = Ok pc ->
     let step := sampleStep (dflt (g_asciiDensity options) (nlit 6 10)) in
     let n := List.length (filter (visible canvas)
                             (visitedPixels step canvas)) in
     List.length (positions pc) = (3 * n)%nat /\
     List.length (colors pc) = (3 * n)%nat).
Proof.
  split.
  - intros Hctx. unfold createASCIIPoints. now rewrite Hctx.
  - intros pc Hpc step n.
    destruct (createASCIIPoints_returns Hpc) as (Hctx & Hw & Hh).
    rewrite (createASCIIPoints_points options Hctx Hw Hh) in Hpc.
    injection Hpc as <-. cbn [positions colors]. split.
    + apply flat_map_triples. intros [x y]. reflexivity.
    + apply flat_map_triples. intros [x y]. reflexivity.
Qed.

Lemma createASCIIPoints_arrays_witness :
  exists pc,
    createASCIIPoints (NUM := F64.Num) black2x2 (atDensity (F64.of_Z 1))
    = Ok pc /\
    List.length (positions pc) = 12%nat /\ List.length (colors pc) = 12%nat.
Proof.
  destruct (createASCIIPoints (NUM := F64.Num) black2x2
              (atDensity (F64.of_Z 1))) as [pc|m] eqn:E;
    [|vm_compute in E; discriminate].
  exists pc. split; [reflexivity|].
  exact (proj2 (@createASCIIPoints_arrays float F64.Num black2x2
                  (atDensity (F64.of_Z 1))) pc E).
Defined.

(** ** Where the points lie *)

Lemma visited_in_canvas (st : Z) (canvas : HTMLCanvasElement) (x y : Z) :
  (1 <= st)%Z ->
  In (x, y) (visitedPixels (Some st) canvas) ->
  (0 <= x < canvas_width canvas)%Z /\ (0 <= y < canvas_height canvas)%Z.
Proof.
  intros Hst Hin. unfold visitedPixels in Hin.
  rewrite !stride_multiples in Hin by exact Hst.
  apply in_flat_map in Hin. destruct Hin as (y' & Hy & Hx).
  apply in_map_iff in Hx. destruct Hx as (x' & E & Hx). injection E as <- <-.
  apply multiplesBelow_In in Hx, Hy; try exact Hst. tauto.
Qed.

Lemma byte_fraction (v : Z) :
  (0 <= v <= 255)%Z -> 0 <= inject_Z v / inject_Z 255 <= 1.
Proof.
  intros Hv.
  assert (0 <= inject_Z v <= 255).
  { change 0 with (inject_Z 0). change 255 with (inject_Z 255).
    rewrite <- !Zle_Qle. exact Hv. }
  change (inject_Z 255) with (255 # 1). split.
  - apply Qle_shift_div_l; lra.
  - apply Qle_shift_div_r; lra.
Qed.

(** X8.  In exact arithmetic, for byte pixels, a depth that is not
    negative and a density other than 0: the points of the cloud lie in the
    box [[-w/20, w/20) x (-h/20, h/20] x [0, depth]] ([w] and [h] the
    canvas size), and every colour component lies in [0,1]. *)
Theorem createASCIIPoints_bounds (qsqrt : Q -> Q)
    (canvas : HTMLCanvasElement) (options : GeometryBuilderOptions Q)
    (pc : PointCloud Q) :
  Forall (fun v => (0 <= v <= 255)%Z) (canvas_pixels canvas) ->
  (0 < canvas_width canvas)%Z -> (0 < canvas_height canvas)%Z ->
  let depth := dflt (g_depth options) 10 in
  let density := dflt (g_asciiDensity options) (6 # 10) in
  0 <= depth -> ~ density == 0 ->
  createASCIIPoints (NUM := QNum qsqrt) canvas options = Ok pc ->
  exists seen,
    positions pc
    = flat_map (pointPosition (NUM := QNum qsqrt) canvas depth) seen /\
    colors pc = flat_map (pointColor (NUM := QNum qsqrt) canvas) seen /\
    Forall (fun p =>
      exists px py pz,
        pointPosition (NUM := QNum qsqrt) canvas depth p = [px; py; pz] /\
        - inject_Z (canvas_width canvas) / 20 <= px /\
        px < inject_Z (canvas_width canvas) / 20 /\
        - inject_Z (canvas_height canvas) / 20 < py /\
        py <= inject_Z (canvas_height canvas) / 20 /\
        0 <= pz <= depth) seen /\
    Forall (fun v => 0 <= v <= 1) (colors pc).
Proof.
  intros HF Hw Hh depth density Hd Hden Hpc.
  destruct (createASCIIPoints_returns Hpc) as (Hctx & Hw' & Hh').
  rewrite (createASCIIPoints_points options Hctx Hw' Hh') in Hpc.
  injection Hpc as <-. cbn [positions colors].
  fold density. rewrite sampleStep_exact.
  set (step := Z.max 1 (Qfloor (1 / density))).
  assert (Hstep : (1 <= step)%Z) by (subst step; lia).
  set (seen := filter (visible canvas) (visitedPixels (Some step) canvas)).
  assert (Hseen : forall x y, In (x, y) seen ->
            (0 <= x < canvas_width canvas)%Z /\
            (0 <= y < canvas_height canvas)%Z).
  { intros x y Hin. subst seen. apply filter_In in Hin.
    destruct Hin as [Hin _]. exact (visited_in_canvas Hstep Hin). }
  assert (B : forall i, 0 <= inject_Z (pixelAt (canvas_pixels canvas) i)
                         / inject_Z 255 <= 1).
  { intros i. apply byte_fraction. now apply pixelAt_range. }
  exists seen. split; [reflexivity|]. split; [reflexivity|]. split.
  - apply Forall_forall. intros [x y] Hin.
    destruct (Hseen x y Hin) as [Hx Hy].
    do 3 eexists. split; [reflexivity|].
    cbn [nmul nsub nadd ndiv nneg nofZ nlit QNum].
    assert (Ix : 0 <= inject_Z x /\
                 inject_Z x + 1 <= inject_Z (canvas_width canvas)).
    { change 0 with (inject_Z 0). change 1 with (inject_Z 1).
      rewrite <- inject_Z_plus, <- !Zle_Qle. lia. }
    assert (Iy : 0 <= inject_Z y /\
                 inject_Z y + 1 <= inject_Z (canvas_height canvas)).
    { change 0 with (inject_Z 0). change 1 with (inject_Z 1).
      rewrite <- inject_Z_plus, <- !Zle_Qle. lia. }
    set (w := inject_Z (canvas_width canvas)) in *.
    set (h := inject_Z (canvas_height canvas)) in *.
    change (inject_Z 2) with (2 # 1).
    set (idx := ((y * canvas_width canvas + x) * 4)%Z).
    pose proof (B idx) as Br. pose proof (B (idx + 1)%Z) as Bg.
    pose proof (B (idx + 2)%Z) as Bb.
    set (r := inject_Z (pixelAt (canvas_pixels canvas) idx)) in *.
    set (g := inject_Z (pixelAt (canvas_pixels canvas) (idx + 1))) in *.
    set (b := inject_Z (pixelAt (canvas_pixels canvas) (idx + 2))) in *.
    assert (L : 0 <= ((299 # 1000) * r + (587 # 1000) * g + (114 # 1000) * b)
                     / inject_Z 255 <= 1).
    { unfold Qdiv in *. lra. }
    set (lum := ((299 # 1000) * r + (587 # 1000) * g + (114 # 1000) * b)
                / inject_Z 255) in *.
    unfold Qdiv. change (/ 20) with (1 # 20). change (/ (2 # 1)) with (1 # 2).
    repeat split; try lra; nra.
  - apply Forall_forall. intros v Hv. apply in_flat_map in Hv.
    destruct Hv as ([x y] & _ & Hv). cbn [pointColor] in Hv.
    cbn [ndiv nofZ QNum] in Hv.
    destruct Hv as [<- | [<- | [<- | []]]]; apply B.
Qed.

Lemma black2x2_bytes :
  Forall (fun v => (0 <= v <= 255)%Z) (canvas_pixels black2x2).
Proof. cbn [canvas_pixels black2x2]. repeat constructor; lia. Qed.

Lemma createASCIIPoints_bounds_witness :
  exists pc,
    createASCIIPoints (NUM := QNum Qsqrt6) black2x2 (atDensity (1 # 2))
    = Ok pc /\
    Forall (fun v => 0 <= v <= 1) (colors pc).
Proof.
  destruct (createASCIIPoints (NUM := QNum Qsqrt6) black2x2
              (atDensity (1 # 2))) as [pc|m] eqn:E;
    [|vm_compute in E; discriminate].
  exists pc. split; [reflexivity|].
  destruct (@createASCIIPoints_bounds Qsqrt6 black2x2 (atDensity (1 # 2)) pc)
    as (seen & _ & _ & _ & Hc);
    [ exact black2x2_bytes | reflexivity | reflexivity | discriminate
    | discriminate | exact E | exact Hc ].
Defined.

(** ** The density *)

Lemma multiplesBelow_one (bound : Z) :
  multiplesBelow 1 bound = zrange 0 bound.
Proof.
  unfold multiplesBelow. replace ((bound + 1 - 1) / 1)%Z with bound
    by (rewrite Z.div_1_r; lia).
  rewrite <- (map_id (zrange 0 bound)) at 2.
  apply map_ext. intros k. lia.
Qed.

Lemma sampleStep_one (qsqrt : Q -> Q) (density : Q) :
  1 # 2 < density \/ density < 0 ->
  sampleStep (NUM := QNum qsqrt) density = Some 1%Z.
Proof.
  intros Hd. rewrite sampleStep_exact. f_equal.
  assert (Qfloor (1 / density) <= 1)%Z; [|lia].
  destruct Hd as [Hd|Hd].
  - assert (1 / density < 2) by (apply Qlt_shift_div_r; lra).
    pose proof (Qfloor_le (1 / density)) as F.
    assert (inject_Z (Qfloor (1 / density)) < inject_Z 2)
      by (change (inject_Z 2) with 2; lra).
    rewrite <- Zlt_Qlt in H0. lia.
  - apply Qfloor_upper. change (inject_Z 1) with 1.
    assert (P : 0 < 1 / - density) by (apply Qlt_shift_div_l; lra).
    assert (E : 1 / density == - (1 / - density)) by (field; lra).
    lra.
Qed.

(** X9.  In exact arithmetic every density above 1/2, the default 0.6
    among them, and every negative density give the step 1: the loops
    visit every pixel of the canvas, row by row, and the cloud has a point
    for each pixel whose alpha is above 128. *)
Theorem createASCIIPoints_every_pixel (qsqrt : Q -> Q)
    (canvas : HTMLCanvasElement) (options : GeometryBuilderOptions Q) :
  canvas_context2d canvas = true ->
  (0 < canvas_width canvas)%Z -> (0 < canvas_height canvas)%Z ->
  let depth := dflt (g_depth options) 10 in
  let density := dflt (g_asciiDensity options) (6 # 10) in
  1 # 2 < density \/ density < 0 ->
  let seen := filter (visible canvas) (allPixels canvas) in
  createASCIIPoints (NUM := QNum qsqrt) canvas options =
  Ok {| positions := flat_map (pointPosition (NUM := QNum qsqrt)
                                 canvas depth) seen;
        colors := flat_map (pointColor (NUM := QNum qsqrt) canvas) seen |}.
Proof.
  intros Hctx Hw Hh depth density Hd seen.
  rewrite createASCIIPoints_points by (assumption || lia).
  change (dflt (g_asciiDensity options) (nlit 6 10)) with density.
  rewrite (sampleStep_one qsqrt Hd).
  unfold visitedPixels. rewrite !stride_multiples by lia.
  rewrite !multiplesBelow_one. reflexivity.
Qed.

Lemma createASCIIPoints_every_pixel_witness :
  exists pc,
    createASCIIPoints (NUM := QNum Qsqrt6) black2x2 (withDepth None None)
    = Ok pc /\
    List.length (positions pc) = 12%nat.
Proof.
  eexists. split.
  - apply (@createASCIIPoints_every_pixel Qsqrt6 black2x2
             (withDepth None None)); try reflexivity.
    left. reflexivity.
  - reflexivity.
Defined.

(** X10.  In binary64, at density 0 the step is [Math.floor(1 / 0)],
    which is infinite: each loop leaves after its first round, and the
    cloud holds the point of pixel (0, 0) if that pixel's alpha is above
    128, and no point otherwise. *)
Theorem createASCIIPoints_zero_density_binary64
    (canvas : HTMLCanvasElement) (options : GeometryBuilderOptions float) :
  canvas_context2d canvas = true ->
  (0 < canvas_width canvas)%Z -> (0 < canvas_height canvas)%Z ->
  g_asciiDensity options = Some (F64.of_Z 0) ->
  let depth := dflt (g_depth options) (F64.of_Z 10) in
  createASCIIPoints (NUM := F64.Num) canvas options =
  Ok (if visible canvas (0%Z, 0%Z)
      then {| positions := pointPosition (NUM := F64.Num) canvas depth
                             (0%Z, 0%Z);
              colors := pointColor (NUM := F64.Num) canvas (0%Z, 0%Z) |}
      else {| positions := []; colors := [] |}).
Proof.
  intros Hctx Hw Hh Hd depth.
  rewrite createASCIIPoints_points by (assumption || lia).
  rewrite Hd. cbn [dflt].
  assert (E : sampleStep (NUM := F64.Num) (F64.of_Z 0) = None)
    by (vm_compute; reflexivity).
  rewrite E. unfold visitedPixels, stride.
  destruct (Z.ltb_spec 0 (canvas_width canvas)); [|lia].
  destruct (Z.ltb_spec 0 (canvas_height canvas)); [|lia].
  cbn [flat_map map app filter].
  destruct (visible canvas (0%Z, 0%Z)); cbn [flat_map];
    rewrite ?app_nil_r; reflexivity.
Qed.

Lemma createASCIIPoints_zero_density_binary64_witness :
  exists pc,
    createASCIIPoints (NUM := F64.Num) black2x2 (atDensity (F64.of_Z 0))
    = Ok pc /\
    List.length (positions pc) = 3%nat.
Proof.
  eexists. split.
  - apply (@createASCIIPoints_zero_density_binary64 black2x2
             (atDensity (F64.of_Z 0))); reflexivity.
  - reflexivity.
Defined.

(** ** The silhouette *)

Lemma allPixels_In (canvas : HTMLCanvasElement) (x y : Z) :
  In (x, y) (allPixels canvas) <->
  (0 <= x < canvas_width canvas)%Z /\ (0 <= y < canvas_height canvas)%Z.
Proof.
  unfold allPixels. rewrite in_flat_map. split.
  - intros (y' & Hy & Hx). apply in_map_iff in Hx.
    destruct Hx as (x' & E & Hx). injection E as <- <-.
    apply zrange_In in Hx, Hy. lia.
  - intros [Hx Hy]. exists y. split; [apply zrange_In; lia|].
    apply in_map_iff. exists x. split; [reflexivity | apply zrange_In; lia].
Qed.

(** The two scanning loops are one loop over the pixels, row by row. *)
Lemma nested_fold {A : Type} (f : Z -> A -> Z -> A) (xs ys : list Z) (a : A) :
  fold_left (fun a y => fold_left (f y) xs a) ys a
  = fold_left (fun a p => f (snd p) a (fst p))
      (flat_map (fun y => map (fun x => (x, y)) xs) ys) a.
Proof.
  revert a. induction ys as [|y ys IH]; intros a; cbn [fold_left flat_map];
    [reflexivity|].
  rewrite fold_left_app, IH. f_equal.
  generalize a. clear. induction xs as [|x xs IH]; intros a;
    cbn [fold_left map]; [reflexivity | apply IH].
Qed.

Lemma scanBounds_pixels (canvas : HTMLCanvasElement) :
  scanBounds (canvas_pixels canvas) (canvas_width canvas)
    (canvas_height canvas)
  = fold_left (fun b p =>
      growBounds (canvas_pixels canvas) (canvas_width canvas) (snd p) b
        (fst p))
      (allPixels canvas)
      {| minX := canvas_width canvas; maxX := 0;
         minY := canvas_height canvas; maxY := 0 |}.
Proof. unfold scanBounds, allPixels. apply nested_fold. Qed.

Lemma growBounds_visible (canvas : HTMLCanvasElement) (b : Bounds) (p : Z * Z) :
  growBounds (canvas_pixels canvas) (canvas_width canvas) (snd p) b (fst p)
  = if visible canvas p
    then {| minX := Z.min (minX b) (fst p); maxX := Z.max (maxX b) (fst p);
            minY := Z.min (minY b) (snd p); maxY := Z.max (maxY b) (snd p) |}
    else b.
Proof. destruct p as [x y]. reflexivity. Qed.

(** What a scan of the pixels [l] makes of the bounds [b]: they only
    widen, they hold every visible pixel of [l], and each of them is either
    as it was or the coordinate of a visible pixel of [l]. *)
Lemma scan_spec (canvas : HTMLCanvasElement) (l : list (Z * Z)) (b : Bounds) :
  let b' := fold_left (fun b p =>
              growBounds (canvas_pixels canvas) (canvas_width canvas)
                (snd p) b (fst p)) l b in
  ((minX b' <= minX b)%Z /\ (maxX b <= maxX b')%Z /\
   (minY b' <= minY b)%Z /\ (maxY b <= maxY b')%Z) /\
  (forall p, In p l -> visible canvas p = true -> inside b' p) /\
  (minX b' = minX b \/
   exists p, In p l /\ visible canvas p = true /\ fst p = minX b') /\
  (maxX b' = maxX b \/
   exists p, In p l /\ visible canvas p = true /\ fst p = maxX b') /\
  (minY b' = minY b \/
   exists p, In p l /\ visible canvas p = true /\ snd p = minY b') /\
  (maxY b' = maxY b \/
   exists p, In p l /\ visible canvas p = true /\ snd p = maxY b').
Proof.
  revert b. induction l as [|p l IH]; intros b; cbn [fold_left].
  - cbv zeta. split; [lia|]. split; [intros p []|]. tauto.
  - specialize (IH (growBounds (canvas_pixels canvas) (canvas_width canvas)
                      (snd p) b (fst p))).
    cbv zeta in IH |- *.
    set (b1 := growBounds (canvas_pixels canvas) (canvas_width canvas)
                 (snd p) b (fst p)) in *.
    set (b' := fold_left _ l b1) in *.
    destruct IH as (Mono & In' & PminX & PmaxX & PminY & PmaxY).
    assert (Step : (visible canvas p = true /\
                    minX b1 = Z.min (minX b) (fst p) /\
                    maxX b1 = Z.max (maxX b) (fst p) /\
                    minY b1 = Z.min (minY b) (snd p) /\
                    maxY b1 = Z.max (maxY b) (snd p)) \/
                   (visible canvas p = false /\ b1 = b)).
    { subst b1. rewrite growBounds_visible.
      destruct (visible canvas p); [left | right]; repeat split. }
    assert (Lift : forall (P : Z * Z -> Prop),
              (exists q, In q l /\ visible canvas q = true /\ P q) ->
              exists q, In q (p :: l) /\ visible canvas q = true /\ P q).
    { intros P (q & Hq & Hv & HP). exists q.
      split; [now right | now split]. }
    destruct Step as [(Hv & E1 & E2 & E3 & E4) | (Hv & ->)].
    + split; [lia|]. split.
      { intros q [<- | Hq] Hq'; [|now apply In'].
        unfold inside. lia. }
      assert (Here : forall (P : Z * Z -> Prop), P p ->
                exists q, In q (p :: l) /\ visible canvas q = true /\ P q).
      { intros P HP. exists p. split; [now left | now split]. }
      split; [|split; [|split]].
      * destruct PminX as [E | Ex];
          [|right; exact (Lift (fun q => fst q = minX b') Ex)].
        destruct (Z.le_ge_cases (minX b) (fst p));
          [left; lia | right; apply (Here (fun q => fst q = minX b')); lia].
      * destruct PmaxX as [E | Ex];
          [|right; exact (Lift (fun q => fst q = maxX b') Ex)].
        destruct (Z.le_ge_cases (fst p) (maxX b));
          [left; lia | right; apply (Here (fun q => fst q = maxX b')); lia].
      * destruct PminY as [E | Ex];
          [|right; exact (Lift (fun q => snd q = minY b') Ex)].
        destruct (Z.le_ge_cases (minY b) (snd p));
          [left; lia | right; apply (Here (fun q => snd q = minY b')); lia].
      * destruct PmaxY as [E | Ex];
          [|right; exact (Lift (fun q => snd q = maxY b') Ex)].
        destruct (Z.le_ge_cases (snd p) (maxY b));
          [left; lia | right; apply (Here (fun q => snd q = maxY b')); lia].
    + split; [exact Mono|]. split.
      { intros q [<- | Hq] Hq'; [congruence | now apply In']. }
      split; [|split; [|split]].
      * destruct PminX as [E | Ex]; [now left | right].
        exact (Lift (fun q => fst q = minX b') Ex).
      * destruct PmaxX as [E | Ex]; [now left | right].
        exact (Lift (fun q => fst q = maxX b') Ex).
      * destruct PminY as [E | Ex]; [now left | right].
        exact (Lift (fun q => snd q = minY b') Ex).
      * destruct PmaxY as [E | Ex]; [now left | right].
        exact (Lift (fun q => snd q = maxY b') Ex).
Qed.

Lemma canvasToShape_returns {num : Type} {NUM : Number num}
    (canvas : HTMLCanvasElement) :
  canvas_context2d canvas = true ->
  canvas_width canvas <> 0%Z -> canvas_height canvas <> 0%Z ->
  let b := scanBounds (canvas_pixels canvas) (canvas_width canvas)
             (canvas_height canvas) in
  let centerX := ndiv (nofZ (canvas_width canvas)) (nofZ 2) in
  let centerY := ndiv (nofZ (canvas_height canvas)) (nofZ 2) in
  let X := fun v => nmul (nsub (nofZ v) centerX) (nlit 1 10) in
  let Y := fun v => nmul (nneg (nsub (nofZ v) centerY)) (nlit 1 10) in
  canvasToShape canvas =
  Ok [ MoveTo (X (minX b)) (Y (minY b)); LineTo (X (maxX b)) (Y (minY b));
       LineTo (X (maxX b)) (Y (maxY b)); LineTo (X (minX b)) (Y (maxY b));
       ClosePath ].
Proof.
  intros Hctx Hw Hh. unfold canvasToShape, getImageData. rewrite Hctx.
  destruct (Z.eqb_spec (canvas_width canvas) 0); [contradiction|].
  destruct (Z.eqb_spec (canvas_height canvas) 0); [contradiction|].
  reflexivity.
Qed.

(** X11.  For every arithmetic: [canvasToShape] throws when the canvas
    gives no 2D context; otherwise it returns the rectangle through the
    bounds of the scan, and these bounds hold the index of every pixel of
    the canvas whose alpha is above 128 and, when there is such a pixel,
    are each the index of one: the rectangle runs through the indices of
    the outermost visible pixels, so a single visible pixel gives a
    rectangle without width or height. *)
Theorem canvasToShape_bounding_box {num : Type} {NUM : Number num}
    (canvas : HTMLCanvasElement) :
  (canvas_context2d canvas = false ->
   canvasToShape (num := num) canvas = Throw "Cannot get canvas context") /\
  (canvas_context2d canvas = true ->
   canvas_width canvas <> 0%Z -> canvas_height canvas <> 0%Z ->
   let b := scanBounds (canvas_pixels canvas) (canvas_width canvas)
              (canvas_height canvas) in
   let centerX := ndiv (nofZ (canvas_width canvas)) (nofZ 2) in
   let centerY := ndiv (nofZ (canvas_height canvas)) (nofZ 2) in
   let X := fun v => nmul (nsub (nofZ v) centerX) (nlit 1 10) in
   let Y := fun v => nmul (nneg (nsub (nofZ v) centerY)) (nlit 1 10) in
   canvasToShape canvas =
   Ok [ MoveTo (X (minX b)) (Y (minY b)); LineTo (X (maxX b)) (Y (minY b));
        LineTo (X (maxX b)) (Y (maxY b)); LineTo (X (minX b)) (Y (maxY b));
        ClosePath ] /\
   (forall p, In p (allPixels canvas) -> visible canvas p = true ->
              inside b p) /\
   ((exists p, In p (allPixels canvas) /\ visible canvas p = true) ->
    (exists p, In p (allPixels canvas) /\ visible canvas p = true /\
               fst p = minX b) /\
    (exists p, In p (allPixels canvas) /\ visible canvas p = true /\
               fst p = maxX b) /\
    (exists p, In p (allPixels canvas) /\ visible canvas p = true /\
               snd p = minY b) /\
    (exists p, In p (allPixels canvas) /\ visible canvas p = true /\
               snd p = maxY b))).
Proof.
  split.
  - intros Hctx. unfold canvasToShape. now rewrite Hctx.
  - intros Hctx Hw Hh b centerX centerY X Y.
    split; [now apply canvasToShape_returns|].
    pose proof (@scan_spec canvas (allPixels canvas)
                  {| minX := canvas_width canvas; maxX := 0;
                     minY := canvas_height canvas; maxY := 0 |}) as S.
    cbv zeta in S. rewrite <- scanBounds_pixels in S. fold b in S.
    cbn [minX maxX minY maxY] in S.
    destruct S as (_ & Hin & PminX & PmaxX & PminY & PmaxY).
    split; [exact Hin|].
    intros (p & Hp & Hv).
    pose proof (Hin p Hp Hv) as [Ix Iy].
    destruct p as [x y]. apply allPixels_In in Hp. cbn [fst snd] in *.
    assert (Here : forall (P : Z * Z -> Prop), P (x, y) ->
              exists q, In q (allPixels canvas) /\
                        visible canvas q = true /\ P q).
    { intros P HP. exists (x, y).
      split; [apply allPixels_In; lia | now split]. }
    split; [|split; [|split]].
    + destruct PminX as [E | Ex]; [lia | exact Ex].
    + destruct PmaxX as [E | Ex]; [|exact Ex].
      apply (Here (fun q => fst q = maxX b)). cbn [fst]. lia.
    + destruct PminY as [E | Ex]; [lia | exact Ex].
    + destruct PmaxY as [E | Ex]; [|exact Ex].
      apply (Here (fun q => snd q = maxY b)). cbn [snd]. lia.
Qed.

Lemma canvasToShape_bounding_box_witness :
  scanBounds (canvas_pixels black2x2) 2 2
  = {| minX := 0; maxX := 1; minY := 0; maxY := 1 |} /\
  forall p, In p (allPixels black2x2) -> visible black2x2 p = true ->
            inside (scanBounds (canvas_pixels black2x2) 2 2) p.
Proof.
  split; [reflexivity|].
  destruct (proj2 (@canvasToShape_bounding_box float F64.Num black2x2))
    as (_ & H & _); [reflexivity | discriminate | discriminate |].
  exact H.
Defined.

Lemma bounds_eta (b : Bounds) :
  b = {| minX := minX b; maxX := maxX b; minY := minY b; maxY := maxY b |}.
Proof. now destruct b. Qed.

(** Without a visible pixel the bounds stay as they start. *)
Lemma scanBounds_nothing_visible (canvas : HTMLCanvasElement) :
  (forall p, In p (allPixels canvas) -> visible canvas p = false) ->
  scanBounds (canvas_pixels canvas) (canvas_width canvas)
    (canvas_height canvas)
  = {| minX := canvas_width canvas; maxX := 0;
       minY := canvas_height canvas; maxY := 0 |}.
Proof.
  intros Hnone.
  pose proof (@scan_spec canvas (allPixels canvas)
                {| minX := canvas_width canvas; maxX := 0;
                   minY := canvas_height canvas; maxY := 0 |}) as S.
  cbv zeta in S. rewrite <- scanBounds_pixels in S.
  cbn [minX maxX minY maxY] in S.
  destruct S as (_ & _ & PminX & PmaxX & PminY & PmaxY).
  assert (No : forall (P : Z * Z -> Prop),
            ~ exists p, In p (allPixels canvas) /\
                        visible canvas p = true /\ P p).
  { intros P (p & Hp & Hv & _). rewrite (Hnone p Hp) in Hv. discriminate. }
  destruct PminX as [E1 | Ex]; [|destruct (No _ Ex)].
  destruct PmaxX as [E2 | Ex]; [|destruct (No _ Ex)].
  destruct PminY as [E3 | Ex]; [|destruct (No _ Ex)].
  destruct PmaxY as [E4 | Ex]; [|destruct (No _ Ex)].
  rewrite (bounds_eta (scanBounds _ _ _)), E1, E2, E3, E4. reflexivity.
Qed.

(** X12.  A canvas without any pixel of alpha above 128 does not give an
    empty shape: the bounds stay at [(width, 0, height, 0)], and in exact
    arithmetic the shape is the rectangle of the whole canvas,
    from [(w/20, -h/20)] through [(-w/20, -h/20)] and [(-w/20, h/20)] to
    [(w/20, h/20)]. *)
Theorem canvasToShape_nothing_visible (qsqrt : Q -> Q)
    (canvas : HTMLCanvasElement) :
  canvas_context2d canvas = true ->
  (0 < canvas_width canvas)%Z -> (0 < canvas_height canvas)%Z ->
  (forall p, In p (allPixels canvas) -> visible canvas p = false) ->
  let w := inject_Z (canvas_width canvas) in
  let h := inject_Z (canvas_height canvas) in
  exists x0 y0 x1 y1,
    canvasToShape (NUM := QNum qsqrt) canvas =
    Ok [ MoveTo x0 y0; LineTo x1 y0; LineTo x1 y1; LineTo x0 y1;
         ClosePath ] /\
    x0 == w / 20 /\ x1 == - (w / 20) /\ y0 == - (h / 20) /\ y1 == h / 20.
Proof.
  intros Hctx Hw Hh Hnone w h.
  pose proof (@canvasToShape_returns Q (QNum qsqrt) canvas Hctx
                ltac:(lia) ltac:(lia)) as E.
  cbv zeta in E. rewrite (scanBounds_nothing_visible Hnone) in E.
  cbn [minX maxX minY maxY] in E.
  do 4 eexists. split; [exact E|].
  cbn [nmul nsub nneg ndiv nofZ nlit QNum]. fold w h.
  change (inject_Z 2) with (2 # 1). change (inject_Z 0) with 0.
  repeat split; field.
Qed.

Lemma clear1x1_nothing_visible :
  forall p, In p (allPixels clear1x1) -> visible clear1x1 p = false.
Proof.
  intros [x y] Hp. apply allPixels_In in Hp.
  cbn [canvas_width canvas_height clear1x1] in Hp.
  assert (x = 0%Z) as -> by lia. assert (y = 0%Z) as -> by lia.
  reflexivity.
Qed.

Lemma canvasToShape_nothing_visible_witness :
  exists x0 y0 x1 y1,
    canvasToShape (NUM := QNum Qsqrt6) clear1x1 =
    Ok [ MoveTo x0 y0; LineTo x1 y0; LineTo x1 y1; LineTo x0 y1;
         ClosePath ] /\
    x0 == 1 # 20 /\ x1 == - (1 # 20) /\ y0 == - (1 # 20) /\ y1 == 1 # 20.
Proof.
  destruct (@canvasToShape_nothing_visible Qsqrt6 clear1x1)
    as (x0 & y0 & x1 & y1 & E & H0 & H1 & H2 & H3);
    [ reflexivity | reflexivity | reflexivity
    | exact clear1x1_nothing_visible | ].
  exists x0, y0, x1, y1. split; [exact E|].
  rewrite H0, H1, H2, H3. repeat split; reflexivity.
Defined.

(** ** The geometry cache of a group *)

Lemma DepthKey_eqb_refl (k : DepthKey) : DepthKey_eqb k k = true.
Proof.
  destruct k as [[s n]|]; cbn; [|reflexivity].
  now rewrite Bool.eqb_reflx, Z.eqb_refl.
Qed.

Lemma cache_get_None {K V : Type} (eqb : K -> K -> bool) (k : K)
    (m : list (K * V)) :
  cache_get eqb k m = None ->
  forall k', In k' (map fst m) -> eqb k k' = false.
Proof.
  induction m as [|[k0 v0] m IH]; cbn; [intros _ k' []|].
  destruct (eqb k k0) eqn:E; [discriminate|].
  intros H k' [<- | Hin]; [exact E | now apply IH].
Qed.

Lemma cache_get_app_None {K V : Type} (eqb : K -> K -> bool) (k : K)
    (m m' : list (K * V)) :
  cache_get eqb k m = None -> cache_get eqb k (m ++ m') = cache_get eqb k m'.
Proof.
  induction m as [|[k0 v0] m IH]; cbn; [reflexivity|].
  destruct (eqb k k0); [discriminate | exact IH].
Qed.

Section GeometryCache.
Context {num : Type} {NUM : Number num}.
Variable charDepth : num.

Lemma depthKey_of_glyph (c : ascii) :
  In (ntoFixed2 (actualDepthOf charDepth c)) (depthKeys charDepth).
Proof.
  unfold actualDepthOf, depthKeys.
  destruct (getCharWeight_cases c)
    as [[_ ->]|[(_ & _ & ->)|[(_ & _ & _ & ->)|(_ & _ & _ & ->)]]];
    cbn [map In]; tauto.
Qed.

Lemma placeChar_cacheInv (glyphContext : bool)
    (lineCount lineIndex lineLength : Z) (st : Build num) (ic : Z * ascii) :
  cacheInv charDepth st ->
  cacheInv charDepth
    (placeChar glyphContext charDepth lineCount lineIndex lineLength st ic).
Proof.
  intros (Hnd & Hincl & Hall). destruct ic as [charIndex c].
  unfold placeChar. cbv zeta.
  destruct (Ascii.eqb c " "%char); [exact (conj Hnd (conj Hincl Hall))|].
  fold (actualDepthOf charDepth c).
  set (key := ntoFixed2 (actualDepthOf charDepth c)).
  match goal with
  | |- cacheInv _ (match ?w with Some _ => _ | None => _ end) =>
      destruct w as [[[material materialCache] next]|]
  end; [|exact (conj Hnd (conj Hincl Hall))].
  destruct (cache_get DepthKey_eqb key (b_geometryCache st)) as [g|] eqn:Eg.
  - destruct (cache_get_In Eg) as (k' & Hin & _).
    unfold cacheInv. cbn [b_geometryCache b_group].
    split; [exact Hnd|]. split; [exact Hincl|].
    apply Forall_app. split; [exact Hall|]. constructor; [|constructor].
    cbn [mesh_geometry]. apply in_map_iff. now exists (k', g).
  - unfold cacheInv, cache_set. cbn [b_geometryCache b_group].
    rewrite !map_app. cbn [map fst snd]. split; [|split].
    + apply NoDup_app.
      * exact Hnd.
      * constructor; [intros [] | constructor].
      * intros k Hk [<- | []].
        pose proof (cache_get_None Eg Hk) as F.
        rewrite DepthKey_eqb_refl in F. discriminate.
    + apply incl_app; [exact Hincl|].
      intros k [<- | []]. apply depthKey_of_glyph.
    + apply Forall_app. split.
      * revert Hall. apply Forall_impl. intros m Hm.
        apply in_or_app. now left.
      * constructor; [|constructor]. cbn [mesh_geometry].
        apply in_or_app. right. now left.
Qed.

Lemma createASCIIText3D_cacheInv (glyphContext : bool)
    (materialCache : list (ascii * Material)) (next : nat)
    (asciiText : string) :
  cacheInv charDepth
    (createASCIIText3D glyphContext materialCache next asciiText charDepth).
Proof.
  unfold createASCIIText3D. apply fold_left_invariant.
  - repeat split; cbn; [constructor | intros k [] | constructor].
  - intros st [lineIndex line] Hst. apply fold_left_invariant; [exact Hst|].
    intros st' ic Hst'. now apply placeChar_cacheInv.
Qed.

End GeometryCache.

(** X13.  For every arithmetic: however long the text, a group is built
    with at most four box geometries, one for each two-decimal depth key
    of the four glyph weights, and the box of every mesh of the group is
    one of them. *)
Theorem group_shares_geometries {num : Type} {NUM : Number num}
    (glyphContext : bool) (materialCache : list (ascii * Material))
    (next : nat) (asciiText : string) (charDepth : num) :
  let b := createASCIIText3D glyphContext materialCache next asciiText
             charDepth in
  (List.length (b_geometryCache b) <= 4)%nat /\
  NoDup (map fst (b_geometryCache b)) /\
  Forall (fun m => In (mesh_geometry m) (map snd (b_geometryCache b)))
    (b_group b).
Proof.
  intros b.
  destruct (@createASCIIText3D_cacheInv num NUM charDepth glyphContext
              materialCache next asciiText) as (Hnd & Hincl & Hall).
  fold b in Hnd, Hincl, Hall.
  split; [|split; assumption].
  rewrite <- (length_map fst).
  exact (NoDup_incl_length Hnd Hincl).
Qed.

(** ** The material cache across the life of the component *)

Lemma ascii_eqb_eq (a b : ascii) : Ascii.eqb a b = true -> a = b.
Proof. apply Ascii.eqb_eq. Qed.

Lemma keyed_get (cache : list (ascii * Material)) (ch : ascii)
    (mat : Material) :
  keyed cache -> cache_get Ascii.eqb ch cache = Some mat ->
  material_glyph mat = ch.
Proof.
  intros Hk Hget. destruct (cache_get_In Hget) as (k' & Hin & E).
  apply ascii_eqb_eq in E. subst k'. exact (Hk _ _ Hin).
Qed.

Section MaterialCache.
Context {num : Type} {NUM : Number num}.

Lemma dressed_app (cache more : list (ascii * Material)) (ch : ascii)
    (m : Mesh num) :
  dressed cache ch m -> dressed (cache ++ more) ch m.
Proof. intros [Hg Hc]. split; [exact Hg | now apply cache_get_app]. Qed.

Lemma placeChar_keyed (glyphContext : bool) (charDepth : num)
    (lineCount lineIndex lineLength : Z) (st : Build num) (ic : Z * ascii) :
  keyed (b_materialCache st) ->
  keyed (b_materialCache
           (placeChar glyphContext charDepth lineCount lineIndex lineLength
              st ic)).
Proof.
  intros Hk. destruct ic as [charIndex c]. unfold placeChar. cbv zeta.
  destruct (Ascii.eqb c " "%char); [exact Hk|].
  destruct (cache_get Ascii.eqb c (b_materialCache st)) as [mat|] eqn:Em.
  - destruct (cache_get DepthKey_eqb _ (b_geometryCache st)); exact Hk.
  - destruct glyphContext; [|exact Hk].
    assert (Hk' : keyed (cache_set c
                           {| material_id := S (b_next st);
                              material_glyph := c;
                              material_map := b_next st |}
                           (b_materialCache st))).
    { intros ch mat Hin. apply in_app_or in Hin.
      destruct Hin as [Hin | [[= <- <-] | []]]; [now apply Hk | reflexivity]. }
    destruct (cache_get DepthKey_eqb _ (b_geometryCache st)); exact Hk'.
Qed.

Lemma createASCIIText3D_keyed (glyphContext : bool)
    (materialCache : list (ascii * Material)) (next : nat)
    (asciiText : string) (charDepth : num) :
  keyed materialCache ->
  keyed (b_materialCache
           (createASCIIText3D glyphContext materialCache next asciiText
              charDepth)).
Proof.
  intros Hk. unfold createASCIIText3D.
  apply (@fold_left_invariant _ _ (fun st => keyed (b_materialCache st)));
    [exact Hk|].
  intros st [lineIndex line] Hst.
  apply (@fold_left_invariant _ _ (fun st => keyed (b_materialCache st)));
    [exact Hst|].
  intros st' ic Hst'. now apply placeChar_keyed.
Qed.

(** One character: the meshes so far stay dressed, and the character's
    mesh, if it is not a space, is dressed. *)
Lemma placeChar_dressed (charDepth : num)
    (lineCount lineIndex lineLength : Z) (st : Build num)
    (charIndex : Z) (c : ascii) (gs : list ascii) :
  keyed (b_materialCache st) ->
  Forall2 (dressed (b_materialCache st)) gs (b_group st) ->
  let st' := placeChar true charDepth lineCount lineIndex lineLength st
               (charIndex, c) in
  Forall2 (dressed (b_materialCache st'))
    (gs ++ if Ascii.eqb c " "%char then [] else [c]) (b_group st').
Proof.
  intros Hk HF. unfold placeChar. cbv zeta.
  destruct (Ascii.eqb c " "%char); [now rewrite app_nil_r|].
  destruct (cache_get Ascii.eqb c (b_materialCache st)) as [mat|] eqn:Em.
  - assert (Hd : forall (g : BoxGeometry num) (pos : num * num * num),
              dressed (b_materialCache st) c
                {| mesh_geometry := g; mesh_material := mat;
                   mesh_position := pos |}).
    { intros g pos. split; [exact (keyed_get Hk Em) | exact Em]. }
    destruct (cache_get DepthKey_eqb _ (b_geometryCache st));
      cbn [b_group b_materialCache];
      (apply Forall2_app; [exact HF | constructor; [apply Hd | constructor]]).
  - set (mat := {| material_id := S (b_next st); material_glyph := c;
                   material_map := b_next st |}).
    assert (Hd : forall (g : BoxGeometry num) (pos : num * num * num),
              dressed (cache_set c mat (b_materialCache st)) c
                {| mesh_geometry := g; mesh_material := mat;
                   mesh_position := pos |}).
    { intros g pos. split; [reflexivity|]. unfold cache_set.
      rewrite (cache_get_app_None _ Em). cbn [cache_get mesh_material].
      now rewrite Ascii.eqb_refl. }
    assert (HF' : Forall2 (dressed (cache_set c mat (b_materialCache st)))
                    gs (b_group st)).
    { revert HF. apply Forall2_impl. intros ch m. apply dressed_app. }
    destruct (cache_get DepthKey_eqb _ (b_geometryCache st));
      cbn [b_group b_materialCache];
      (apply Forall2_app; [exact HF' | constructor; [apply Hd | constructor]]).
Qed.

Lemma placeLine_dressed (charDepth : num)
    (lineCount lineIndex lineLength : Z) (ics : list (Z * ascii))
    (st : Build num) (gs : list ascii) :
  keyed (b_materialCache st) ->
  Forall2 (dressed (b_materialCache st)) gs (b_group st) ->
  let st' := fold_left (placeChar true charDepth lineCount lineIndex
                          lineLength) ics st in
  keyed (b_materialCache st') /\
  Forall2 (dressed (b_materialCache st'))
    (gs ++ filter (fun c => negb (Ascii.eqb c " "%char)) (map snd ics))
    (b_group st').
Proof.
  revert st gs. induction ics as [|[i c] ics IH]; intros st gs Hk HF.
  - cbn. rewrite app_nil_r. now split.
  - cbn [fold_left map snd filter].
    pose proof (@placeChar_keyed true charDepth lineCount lineIndex
                  lineLength st (i, c) Hk) as Hk'.
    pose proof (@placeChar_dressed charDepth lineCount lineIndex lineLength
                  st i c gs Hk HF) as HF'.
    cbv zeta in HF'.
    destruct (IH _ _ Hk' HF') as [Hk'' HF'']. cbv zeta in *.
    split; [exact Hk''|].
    destruct (Ascii.eqb c " "%char); cbn [negb] in *.
    + now rewrite app_nil_r in HF''.
    + now rewrite <- app_assoc in HF''.
Qed.

Lemma createASCIIText3D_dressed (materialCache : list (ascii * Material))
    (next : nat) (asciiText : string) (charDepth : num) :
  keyed materialCache ->
  let b := createASCIIText3D true materialCache next asciiText charDepth in
  Forall2 (dressed (b_materialCache b)) (glyphsOf asciiText) (b_group b).
Proof.
  intros Hk. unfold createASCIIText3D, glyphsOf.
  set (lines := filter _ (split_lines EmptyString asciiText)).
  set (lineCount := Z.of_nat (List.length lines)).
  assert (G : forall (ils : list (Z * string)) (st : Build num) gs,
    keyed (b_materialCache st) ->
    Forall2 (dressed (b_materialCache st)) gs (b_group st) ->
    let st' := fold_left (fun st il =>
                 let '(lineIndex, line) := il in
                 fold_left (placeChar true charDepth lineCount lineIndex
                              (Z.of_nat (String.length line)))
                   (indexed (list_ascii_of_string line)) st) ils st in
    keyed (b_materialCache st') /\
    Forall2 (dressed (b_materialCache st'))
      (gs ++ flat_map glyphsOfLine (map snd ils)) (b_group st')).
  { induction ils as [|[li line] ils IH]; intros st gs Hst HF.
    - cbn. rewrite app_nil_r. now split.
    - cbn [fold_left map snd flat_map].
      destruct (@placeLine_dressed charDepth lineCount li
                  (Z.of_nat (String.length line))
                  (indexed (list_ascii_of_string line)) st gs Hst HF)
        as [Hst' HF']. cbv zeta in *.
      rewrite indexed_snd in HF'.
      destruct (IH _ _ Hst' HF') as [Hst'' HF'']. cbv zeta in *.
      split; [exact Hst''|]. now rewrite <- app_assoc in HF''. }
  cbv zeta.
  destruct (G (indexed lines)
              {| b_group := []; b_materialCache := materialCache;
                 b_geometryCache := []; b_next := next |} [])
    as [_ HF]; [exact Hk | constructor |].
  cbv zeta in HF. rewrite indexed_snd in HF. exact HF.
Qed.

(** In every state the component reaches, the material cache is keyed by
    the glyph of its materials. *)
Lemma reachable_keyed (c : Component num) :
  reachable c -> keyed (materialCacheRef c).
Proof.
  induction 1 as [|glyphContext canvas characterSet depth c Hc IH|c Hc IH].
  - intros ch mat [].
  - unfold initScene. destruct (canvasToASCII _ _); [|exact IH].
    cbn [materialCacheRef]. now apply createASCIIText3D_keyed.
  - unfold cleanup. destruct (groupRef c); exact IH.
Qed.

End MaterialCache.

(** X14.  For every arithmetic, in every state the component reaches
    (mounted, then effect runs and cleanups in any order, with any props):
    a run of the effect whose conversion returns and whose glyph canvases
    give a context builds a group in which the mesh of each character
    (spaces and empty lines left out) has a material whose texture was
    drawn for that very character, the one the material cache now holds
    for it; so two meshes of one character share one material object,
    also across groups, and a material is never shown for another
    character. *)
Theorem meshes_wear_their_glyph {num : Type} {NUM : Number num}
    (c : Component num) (canvas : HTMLCanvasElement) (characterSet : string)
    (depth : num) (r : ASCIIResult) :
  reachable c ->
  canvasToASCII canvas (sceneOptions characterSet) = Ok r ->
  let c' := initScene true canvas characterSet depth c in
  exists group,
    groupRef c' = Some group /\
    Forall2 (fun ch m =>
               material_glyph (mesh_material m) = ch /\
               cache_get Ascii.eqb ch (materialCacheRef c')
               = Some (mesh_material m))
      (glyphsOf (r_ascii r)) group /\
    (forall ch mat,
       cache_get Ascii.eqb ch (materialCacheRef c) = Some mat ->
       cache_get Ascii.eqb ch (materialCacheRef c') = Some mat) /\
    (forall ch mat,
       cache_get Ascii.eqb ch (materialCacheRef c') = Some mat ->
       material_glyph mat = ch).
Proof.
  intros Hc Hr c'. subst c'. unfold initScene.
  change {| o_width := Some 50%Z; o_height := None;
            o_characterSet := Some characterSet; o_invert := None;
            o_maintainAspectRatio := Some true; o_contrast := None;
            o_edgeEnhance := None |}
    with (sceneOptions (num := num) characterSet).
  rewrite Hr. cbn [groupRef materialCacheRef].
  pose proof (reachable_keyed Hc) as Hk.
  eexists. split; [reflexivity|]. split; [|split].
  - exact (@createASCIIText3D_dressed num NUM (materialCacheRef c)
             (next_id c) (r_ascii r) depth Hk).
  - destruct (@createASCIIText3D_meshes num NUM depth (materialCacheRef c)
                (next_id c) (r_ascii r)) as [(_ & Hm & _) _].
    exact Hm.
  - intros ch mat Hget.
    exact (keyed_get (@createASCIIText3D_keyed num NUM true
                        (materialCacheRef c) (next_id c) (r_ascii r)
                        depth Hk) Hget).
Qed.

Lemma meshes_wear_their_glyph_witness :
  exists group,
    groupRef secondGroup = Some group /\
    Forall2 (fun ch m =>
               material_glyph (mesh_material m) = ch /\
               cache_get Ascii.eqb ch (materialCacheRef secondGroup)
               = Some (mesh_material m))
      (glyphsOf (r_ascii strip50x2_text)) group.
Proof.
  destruct (@meshes_wear_their_glyph float F64.Num afterCleanup strip50x2
              "@ " (F64.of_Z 4) strip50x2_text)
    as (group & Hg & HF & _);
    [ exact (reach_cleanup
               (reach_initScene true strip50x2 "@ " (F64.of_Z 8) reach_mount))
    | vm_compute; reflexivity | ].
  exists group. split; assumption.
Defined.

(** ** Glyph canvases without a context *)

Section NoGlyphContext.
Context {num : Type} {NUM : Number num}.

Lemma placeChar_frugal (materialCache : list (ascii * Material)) (next : nat)
    (charDepth : num) (lineCount lineIndex lineLength : Z) (st : Build num)
    (ic : Z * ascii) :
  frugal materialCache next st ->
  frugal materialCache next
    (placeChar false charDepth lineCount lineIndex lineLength st ic).
Proof.
  intros (Hc & Hall & Hempty). destruct ic as [charIndex c].
  unfold placeChar. cbv zeta.
  destruct (Ascii.eqb c " "%char); [exact (conj Hc (conj Hall Hempty))|].
  destruct (cache_get Ascii.eqb c (b_materialCache st)) as [mat|] eqn:Em;
    [|exact (conj Hc (conj Hall Hempty))].
  rewrite Hc in Em.
  assert (Hne : materialCache <> []) by (intros ->; discriminate).
  destruct (cache_get DepthKey_eqb _ (b_geometryCache st));
    (split; [exact Hc|]; split; [|intros E; contradiction]);
    cbn [b_group]; (apply Forall_app; split; [exact Hall|]);
    (constructor; [|constructor]); now exists c.
Qed.

Lemma createASCIIText3D_frugal (materialCache : list (ascii * Material))
    (next : nat) (asciiText : string) (charDepth : num) :
  frugal materialCache next
    (createASCIIText3D false materialCache next asciiText charDepth).
Proof.
  unfold createASCIIText3D. apply fold_left_invariant.
  - split; [reflexivity|]. split; [constructor|]. intros _. repeat split.
  - intros st [lineIndex line] Hst. apply fold_left_invariant; [exact Hst|].
    intros st' ic Hst'. now apply placeChar_frugal.
Qed.

End NoGlyphContext.

(** X15.  For every arithmetic: when the glyph canvases give no 2D
    context, the construction of a group makes no texture and no material
    (the material cache is returned as it came in) and puts a mesh only
    for characters whose material the cache already holds; from an empty
    cache the group is empty and no object at all is made. *)
Theorem group_without_glyph_context {num : Type} {NUM : Number num}
    (materialCache : list (ascii * Material)) (next : nat)
    (asciiText : string) (charDepth : num) :
  let b := createASCIIText3D false materialCache next asciiText charDepth in
  let b0 := createASCIIText3D false [] next asciiText charDepth in
  b_materialCache b = materialCache /\
  Forall (fun m => exists ch,
            cache_get Ascii.eqb ch materialCache = Some (mesh_material m))
    (b_group b) /\
  b_group b0 = [] /\ b_materialCache b0 = [] /\ b_geometryCache b0 = [] /\
  b_next b0 = next.
Proof.
  intros b b0.
  destruct (@createASCIIText3D_frugal num NUM materialCache next asciiText
              charDepth) as (Hc & Hall & _).
  destruct (@createASCIIText3D_frugal num NUM [] next asciiText charDepth)
    as (Hc0 & _ & Hempty).
  destruct (Hempty eq_refl) as (Hg & Hgc & Hn).
  repeat split; assumption.
Qed.

(** ** The characters of a text *)

Lemma list_ascii_of_string_app (a b : string) :
  list_ascii_of_string (a ++ b)
  = list_ascii_of_string a ++ list_ascii_of_string b.
Proof. induction a as [|c a IH]; cbn; [reflexivity | now rewrite IH]. Qed.

Lemma glyphsOfLine_app (a b : string) :
  glyphsOfLine (a ++ b) = glyphsOfLine a ++ glyphsOfLine b.
Proof.
  unfold glyphsOfLine. now rewrite list_ascii_of_string_app, filter_app.
Qed.

Lemma split_lines_glyphs (cur s : string) :
  flat_map glyphsOfLine (split_lines cur s) = glyphsOfLine cur ++ inkOf s.
Proof.
  revert cur. induction s as [|c rest IH]; intros cur; cbn [split_lines].
  - cbn. reflexivity.
  - unfold inkOf. cbn [list_ascii_of_string filter]. fold (inkOf rest).
    destruct (Ascii.eqb c "010"%char) eqn:En.
    + cbn [flat_map]. rewrite IH. rewrite Bool.andb_false_r. reflexivity.
    + rewrite IH, glyphsOfLine_app. rewrite Bool.andb_true_r.
      rewrite <- app_assoc. f_equal.
      unfold glyphsOfLine. cbn [list_ascii_of_string filter].
      destruct (negb (Ascii.eqb c " "%char)); reflexivity.
Qed.

Lemma flat_map_filter_nil {A B : Type} (f : A -> list B) (p : A -> bool)
    (l : list A) :
  (forall a, p a = false -> f a = []) ->
  flat_map f (filter p l) = flat_map f l.
Proof.
  intros H. induction l as [|a l IH]; cbn [filter flat_map]; [reflexivity|].
  destruct (p a) eqn:E; cbn [flat_map]; [now rewrite IH|].
  now rewrite (H a E), IH.
Qed.

(** The characters a group has a mesh for are the characters of the text
    other than spaces and line breaks. *)
Lemma glyphsOf_inkOf (asciiText : string) :
  glyphsOf asciiText = inkOf asciiText.
Proof.
  unfold glyphsOf. rewrite flat_map_filter_nil.
  - now rewrite split_lines_glyphs.
  - intros [|c s]; [reflexivity | discriminate].
Qed.

(** ** GeometryBuilder.createASCIIText3D *)

Lemma Forall2_In_r {A B : Type} (P : A -> B -> Prop) (l : list A)
    (l' : list B) (b : B) :
  Forall2 P l l' -> In b l' -> exists a, In a l /\ P a b.
Proof.
  induction 1 as [|a b' l l' Hab HF IH]; [intros []|].
  intros [<- | Hin].
  - exists a. split; [now left | exact Hab].
  - destruct (IH Hin) as (a' & Ha' & HP). exists a'.
    split; [now right | exact HP].
Qed.

Section BuilderText.
Context {num : Type} {NUM : Number num}.
Variable depth : num.
Variable asciiHeight : num.
Variable next0 : nat.

Lemma boxed_weaken (cache more : list (ascii * Material)) (bound bound' : nat)
    (ch : ascii) (m : Mesh num) :
  (bound <= bound')%nat ->
  boxed depth next0 cache bound ch m ->
  boxed depth next0 (cache ++ more) bound' ch m.
Proof.
  intros Hb (Hg & Hc & Hd & Hz & Hm & Hid).
  repeat split; try assumption; try lia. now apply cache_get_app.
Qed.

Lemma builder_placeChar (lineIndex lineLength : Z)
    (st : GeometryBuilder.TextBuild num) (charIndex : Z) (c : ascii)
    (gs : list ascii) :
  textInv depth next0 gs st ->
  textInv depth next0 (gs ++ if Ascii.eqb c " "%char then [] else [c])
    (GeometryBuilder.placeChar true depth asciiHeight lineIndex lineLength
       st (charIndex, c)).
Proof.
  intros (Hk & Hfresh & Hn & HF & Hnd).
  unfold GeometryBuilder.placeChar. cbv zeta.
  destruct (Ascii.eqb c " "%char);
    [rewrite app_nil_r; exact (conj Hk (conj Hfresh (conj Hn (conj HF Hnd))))|].
  assert (Hids : forall bound,
            (GeometryBuilder.t_next st <= bound)%nat ->
            ~ In bound (map (fun m => geometry_id (mesh_geometry m))
                          (GeometryBuilder.t_group st))).
  { intros bound Hb Hin. apply in_map_iff in Hin.
    destruct Hin as (m & E & Hm).
    destruct (Forall2_In_r HF Hm) as (ch & _ & Hbx).
    destruct Hbx as (_ & _ & _ & _ & _ & Hid). lia. }
  destruct (cache_get Ascii.eqb c (GeometryBuilder.t_materialCache st))
    as [mat|] eqn:Em.
  - destruct (cache_get_In Em) as (k' & Hin & E).
    apply ascii_eqb_eq in E. subst k'.
    unfold textInv.
    cbn [GeometryBuilder.t_group GeometryBuilder.t_materialCache
         GeometryBuilder.t_next].
    split; [exact Hk|]. split; [exact Hfresh|]. split; [lia|]. split.
    + apply Forall2_app.
      * revert HF. apply Forall2_impl. intros ch m Hb.
        rewrite <- (app_nil_r (GeometryBuilder.t_materialCache st)).
        apply boxed_weaken with (bound := GeometryBuilder.t_next st);
          [lia | exact Hb].
      * constructor; [|constructor].
        unfold boxed. cbn [mesh_material mesh_geometry mesh_position
                           geometry_id box_depth snd].
        repeat split; try assumption; try lia.
        -- exact (Hk _ _ Hin).
        -- exact (Hfresh _ _ Hin).
    + rewrite map_app. cbn [map mesh_geometry geometry_id].
      apply NoDup_app; [exact Hnd | constructor; [intros [] | constructor]|].
      intros id Hid [<- | []]. exact (Hids _ (le_n _) Hid).
  - set (mat := {| material_id := S (GeometryBuilder.t_next st);
                   material_glyph := c;
                   material_map := GeometryBuilder.t_next st |}).
    unfold textInv, cache_set.
    cbn [GeometryBuilder.t_group GeometryBuilder.t_materialCache
         GeometryBuilder.t_next].
    split; [|split; [|split; [lia|split]]].
    + intros ch m Hin. apply in_app_or in Hin.
      destruct Hin as [Hin | [[= <- <-] | []]]; [now apply Hk | reflexivity].
    + intros ch m Hin. apply in_app_or in Hin.
      destruct Hin as [Hin | [[= <- <-] | []]];
        [now apply (Hfresh ch) | cbn; lia].
    + apply Forall2_app.
      * revert HF. apply Forall2_impl. intros ch m Hb.
        apply boxed_weaken with (bound := GeometryBuilder.t_next st);
          [lia | exact Hb].
      * constructor; [|constructor].
        unfold boxed. cbn [mesh_material mesh_geometry mesh_position
                           geometry_id box_depth snd material_glyph
                           material_map mat].
        repeat split; try lia.
        rewrite (cache_get_app_None _ Em). cbn [cache_get].
        now rewrite Ascii.eqb_refl.
    + rewrite map_app. cbn [map mesh_geometry geometry_id].
      apply NoDup_app; [exact Hnd | constructor; [intros [] | constructor]|].
      intros id Hid [<- | []]. apply (Hids (S (S (GeometryBuilder.t_next st))));
        [lia | exact Hid].
Qed.

Lemma builder_placeLine (lineIndex lineLength : Z) (ics : list (Z * ascii))
    (st : GeometryBuilder.TextBuild num) (gs : list ascii) :
  textInv depth next0 gs st ->
  textInv depth next0
    (gs ++ filter (fun c => negb (Ascii.eqb c " "%char)) (map snd ics))
    (fold_left (GeometryBuilder.placeChar true depth asciiHeight lineIndex
                  lineLength) ics st).
Proof.
  revert st gs. induction ics as [|[i c] ics IH]; intros st gs Hst.
  - cbn. now rewrite app_nil_r.
  - cbn [fold_left map snd filter].
    pose proof (@builder_placeChar lineIndex lineLength st i c gs Hst) as H1.
    apply IH in H1. destruct (Ascii.eqb c " "%char); cbn [negb] in *.
    + now rewrite app_nil_r in H1.
    + now rewrite <- app_assoc in H1.
Qed.

End BuilderText.

(** X16.  For every arithmetic, [GeometryBuilder.createASCIIText3D] with
    glyph canvases that give a context: the group has one mesh for each
    character of the text other than spaces and line breaks, in reading
    order; every mesh has a box geometry of its own (no two meshes share
    one), [depth] deep (2 by default) whatever the character, and lies at
    z = 0; meshes of one character share the material drawn for it, and
    every material and geometry was made in this call. *)
Theorem builder_text_group {num : Type} {NUM : Number num} (next : nat)
    (asciiText : string) (asciiWidth asciiHeight : num)
    (options : GeometryBuilderOptions num) :
  let depth := dflt (g_depth options) (nofZ 2) in
  let b := GeometryBuilder.createASCIIText3D true next asciiText asciiWidth
             asciiHeight options in
  Forall2 (fun ch m =>
             material_glyph (mesh_material m) = ch /\
             cache_get Ascii.eqb ch (GeometryBuilder.t_materialCache b)
             = Some (mesh_material m) /\
             box_depth (mesh_geometry m) = depth /\
             snd (mesh_position m) = nofZ 0 /\
             (next <= material_map (mesh_material m))%nat /\
             (next <= geometry_id (mesh_geometry m))%nat)
    (inkOf asciiText) (GeometryBuilder.t_group b) /\
  NoDup (map (fun m => geometry_id (mesh_geometry m))
           (GeometryBuilder.t_group b)).
Proof.
  intros depth b. subst b. unfold GeometryBuilder.createASCIIText3D.
  fold depth.
  assert (G : forall (ils : list (Z * string))
                     (st : GeometryBuilder.TextBuild num) gs,
    textInv depth next gs st ->
    textInv depth next (gs ++ flat_map glyphsOfLine (map snd ils))
      (fold_left (fun st il =>
         let '(lineIndex, line) := il in
         fold_left
           (GeometryBuilder.placeChar true depth asciiHeight lineIndex
              (Z.of_nat (String.length line)))
           (indexed (list_ascii_of_string line)) st) ils st)).
  { induction ils as [|[li line] ils IH]; intros st gs Hst.
    - cbn. now rewrite app_nil_r.
    - cbn [fold_left map snd flat_map].
      pose proof (@builder_placeLine num NUM depth asciiHeight next li
                    (Z.of_nat (String.length line))
                    (indexed (list_ascii_of_string line)) st gs Hst) as H1.
      rewrite indexed_snd in H1. apply IH in H1.
      now rewrite <- app_assoc in H1. }
  specialize (G (indexed (split_lines EmptyString asciiText))
                {| GeometryBuilder.t_group := [];
                   GeometryBuilder.t_materialCache := [];
                   GeometryBuilder.t_next := next |} []).
  rewrite indexed_snd, split_lines_glyphs in G. cbn [app] in G.
  change (glyphsOfLine EmptyString) with (@nil ascii) in G. cbn [app] in G.
  destruct G as (_ & _ & _ & HF & Hnd).
  - repeat split; cbn; try constructor; try lia; intros ch m [].
  - split; [|exact Hnd]. revert HF. apply Forall2_impl.
    intros ch m (Hg & Hc & Hd & Hz & Hm & Hid). repeat split; try assumption.
    lia.
Qed.

(** ** The size of the canvas *)

Section SizeExact.
Variable qsqrt : Q -> Q.
Local Hint Extern 0 (Number Q) => exact (QNum qsqrt) : typeclass_instances.

Lemma falsyNumber_positive (x : Q) : 0 < x -> falsyNumber x = false.
Proof.
  intros Hx. unfold falsyNumber. cbn [neqb nofZ QNum].
  assert (E0 : Qeq_bool x (inject_Z 0) = false).
  { destruct (Qeq_bool x (inject_Z 0)) eqn:E; [|reflexivity].
    apply Qeq_bool_iff in E. change (inject_Z 0) with 0 in E. lra. }
  assert (E1 : Qeq_bool x x = true) by (apply Qeq_bool_iff; reflexivity).
  now rewrite E0, E1.
Qed.

End SizeExact.

(** X17.  In exact arithmetic, for a width and a height attribute above 0
    and maxima above 0 (2000 by default): the size [parseToCanvas] gives
    the canvas is positive, within the maxima, and of the aspect ratio of
    the attributes; a size that is within the maxima already is kept as it
    is.  The viewBox is not looked at. *)
Theorem canvasSize_fits (qsqrt : Q -> Q) (width height : Q)
    (viewBox : option (option Q * option Q)) (options : SVGParserOptions Q) :
  0 < width -> 0 < height ->
  let maxWidth := dflt (p_maxWidth options) 2000 in
  let maxHeight := dflt (p_maxHeight options) 2000 in
  0 < maxWidth -> 0 < maxHeight ->
  let size := canvasSize (NUM := QNum qsqrt) width height viewBox options in
  0 < fst size /\ fst size <= maxWidth /\
  0 < snd size /\ snd size <= maxHeight /\
  fst size * height == width * snd size /\
  (width <= maxWidth -> height <= maxHeight -> size = (width, height)).
Proof.
  intros Hw Hh maxWidth maxHeight HmW HmH size.
  subst size. unfold canvasSize.
  rewrite !(falsyNumber_positive qsqrt Hw), !(falsyNumber_positive qsqrt Hh).
  cbn [orb falsyValue dflt].
  rewrite !(falsyNumber_positive qsqrt Hw), !(falsyNumber_positive qsqrt Hh).
  change (dflt (p_maxWidth options) (nofZ 2000)) with maxWidth.
  change (dflt (p_maxHeight options) (nofZ 2000)) with maxHeight.
  cbn [nltb ndiv nmul QNum].
  set (r := width / height).
  assert (Er : r * height == width) by (subst r; field; lra).
  assert (Hr : 0 < r) by (subst r; apply Qlt_shift_div_l; lra).
  assert (Eh : (maxWidth / r) * r == maxWidth) by (field; lra).
  assert (Hh1 : 0 < maxWidth / r) by (apply Qlt_shift_div_l; lra).
  destruct (Qltb_spec maxWidth width) as [[-> H1] | [-> H1]];
    [destruct (Qltb_spec maxHeight (maxWidth / r)) as [[-> H2] | [-> H2]]
    |destruct (Qltb_spec maxHeight height) as [[-> H2] | [-> H2]]];
    cbn [fst snd].
  - set (h1 := maxWidth / r) in *.
    repeat split; try lra; try nra.
  - set (h1 := maxWidth / r) in *.
    repeat split; try lra; try nra.
  - repeat split; try lra; try nra.
  - repeat split; try lra; try nra. 
Qed.

Lemma canvasSize_fits_witness :
  canvasSize (NUM := QNum Qsqrt6) 4000 1000 None (maxSize None None)
  = (2000, 2000 / (4000 / 1000)) /\
  fst (canvasSize (NUM := QNum Qsqrt6) 4000 1000 None (maxSize None None))
  * 1000
  == 4000
     * snd (canvasSize (NUM := QNum Qsqrt6) 4000 1000 None
              (maxSize None None)).
Proof.
  split; [reflexivity|].
  destruct (@canvasSize_fits Qsqrt6 4000 1000 None (maxSize None None))
    as (_ & _ & _ & _ & H & _);
    [reflexivity | reflexivity | reflexivity | reflexivity | exact H].
Defined.

(** ** What the component disposes *)

(** X18.  For every arithmetic, in every state the component reaches: of
    the geometries, materials and textures it has made for its groups, the
    ones it has disposed are all geometries, never a material and never a
    texture, although the material cache holds one of each for every
    character met; and a second cleanup in a row changes nothing. *)
Theorem component_disposes_geometries_only {num : Type} {NUM : Number num}
    (c : Component num) :
  reachable c ->
  (forall res, In res (disposed c) -> exists id, res = GeometryRes id) /\
  cleanup (cleanup c) = cleanup c.
Proof.
  intros Hc. split.
  - induction Hc as [|glyphContext canvas characterSet depth c Hc IH|c Hc IH].
    + intros res [].
    + unfold initScene. destruct (canvasToASCII _ _); exact IH.
    + unfold cleanup. destruct (groupRef c) as [group|]; [|exact IH].
      cbn [disposed]. intros res Hin. apply in_app_or in Hin.
      destruct Hin as [Hin | Hin]; [now apply IH|].
      apply in_map_iff in Hin. destruct Hin as (m & <- & _). now eexists.
  - unfold cleanup at 2 3. destruct (groupRef c) eqn:E.
    + reflexivity.
    + unfold cleanup. now rewrite E.
Qed.

Lemma component_disposes_geometries_only_witness :
  (forall res, In res (disposed afterCleanup) ->
               exists id, res = GeometryRes id) /\
  cleanup (cleanup afterCleanup) = cleanup afterCleanup.
Proof.
  apply (@component_disposes_geometries_only float F64.Num afterCleanup).
  exact (reach_cleanup
           (reach_initScene true strip50x2 "@ " (F64.of_Z 8) reach_mount)).
Defined.

(** ** Contrast and enhancement *)

Lemma adjust_zero (c : Q) (inv : bool) (l : Q) :
  c == 0 -> adjust c inv l == 1 # 2.
Proof.
  intros Hc. unfold adjust. cbv zeta.
  change (inject_Z 0) with 0. change (inject_Z 1) with 1.
  assert (E : Qeq_bool c 1 = false).
  { destruct (Qeq_bool c 1) eqn:E; [|reflexivity].
    apply Qeq_bool_iff in E. rewrite Hc in E. discriminate. }
  rewrite E. cbn [negb].
  assert (Ev : Qmax 0 (Qmin 1 ((l - (1 # 2)) * c + (1 # 2))) == 1 # 2).
  { rewrite Hc. setoid_replace ((l - (1 # 2)) * 0 + (1 # 2)) with (1 # 2)
      by ring.
    rewrite (Q.min_r 1 (1 # 2)) by discriminate. apply Q.max_r. discriminate. }
  destruct inv; rewrite Ev; reflexivity.
Qed.

(** X19.  In exact arithmetic (with [sqrt 0 = 0]): at contrast 0 the
    picture is wiped out.  Every cell has the luminance 1/2, with or
    without inversion and edge enhancement, and the text shows one
    character, the one in the middle of the ramp (index
    [floor((n - 1) / 2)]), whatever the canvas shows. *)
Theorem contrast_zero_flattens (qsqrt : Q -> Q) (canvas : HTMLCanvasElement)
    (options : ASCIIMapperOptions Q) :
  (forall q, q == 0 -> qsqrt q == 0) ->
  canvas_context2d canvas = true ->
  (0 < canvas_width canvas)%Z -> (0 < canvas_height canvas)%Z ->
  (0 <= dflt (o_width options) 80)%Z ->
  (forall h, o_height options = Some h -> (0 <= h)%Z) ->
  dflt (o_contrast options) 1 == 0 ->
  let cs := dflt (o_characterSet options) CHARSET_STANDARD in
  cs <> EmptyString ->
  exists r H c,
    canvasToASCII (NUM := QNum qsqrt) canvas options = Ok r /\
    r_height r = Some H /\
    String.get ((String.length cs - 1) / 2) cs = Some c /\
    r_ascii r = gridText (fun _ _ => String c EmptyString) (r_width r) H.
Proof.
  intros Hsqrt Hctx Hcw Hch HW Hh Hc cs Hcs.
  destruct (@targetDimensions_nonneg qsqrt canvas options Hcw Hch HW Hh)
    as (H & ED & HH).
  set (W := dflt (o_width options) 80%Z) in *.
  assert (Hn : (1 <= String.length cs)%nat).
  { destruct cs; [congruence | simpl; lia]. }
  set (n := Z.of_nat (String.length cs)).
  assert (Eidx : luminanceIndex (NUM := QNum qsqrt) (1 # 2) cs
                 = Some ((n - 1) / 2)%Z).
  { rewrite luminanceIndex_exact. fold n. f_equal.
    assert (F : Qfloor ((1 # 2) * inject_Z (n - 1)) = ((n - 1) / 2)%Z).
    { etransitivity; [|symmetry; apply Zdiv_Qdiv].
      apply Qfloor_comp. unfold Qdiv. change (/ inject_Z 2) with (1 # 2).
      ring. }
    rewrite F. apply Z.min_l. apply Z.div_le_upper_bound; lia. }
  assert (Hmid : (0 <= (n - 1) / 2 < n)%Z).
  { split; [apply Z.div_pos; lia|].
    apply Z.div_lt_upper_bound; lia. }
  destruct (@charAt_in_range ((n - 1) / 2)%Z cs Hmid) as [Eget [c Hc']].
  assert (Enat : Z.to_nat ((n - 1) / 2) = ((String.length cs - 1) / 2)%nat).
  { rewrite Z2Nat.inj_div by lia. subst n. f_equal. lia. }
  assert (Hchar : luminanceToChar (NUM := QNum qsqrt) (1 # 2) cs = Some c).
  { unfold luminanceToChar. rewrite Eidx. exact Hc'. }
  assert (Hraw : forall x y,
            rawLuminance (NUM := QNum qsqrt) canvas options x y == 1 # 2).
  { intros x y. unfold rawLuminance. rewrite ED. cbn [dflt nfround QNum].
    unfold cellValue. rewrite cellLuminance_stages. now apply adjust_zero. }
  pose proof (@canvasToASCII_cells Q (QNum qsqrt) canvas options Hctx
                ltac:(lia) ltac:(lia)) as Hcells.
  cbv zeta in Hcells. rewrite ED in Hcells. cbn [fst snd dflt] in Hcells.
  specialize (Hcells ltac:(nia)).
  eexists. exists H, c. split; [exact Hcells|]. cbn [r_height r_width r_ascii].
  split; [reflexivity|].
  split; [rewrite <- Enat, <- Eget; exact Hc'|].
  apply gridText_ext. intros x y Hx Hy. fold cs.
  match goal with
  | |- toStr (luminanceToChar ?l cs) = _ =>
      rewrite (@luminanceToChar_compat qsqrt l (1 # 2) cs), Hchar;
        [reflexivity|]
  end.
  apply enhanced_flat; try assumption; [|split; discriminate].
  intros x' y' _ _. apply Hraw.
Qed.

Lemma contrast_zero_flattens_witness :
  exists r,
    canvasToASCII (NUM := QNum Qsqrt6) column3x3
      (heightGiven 3 3 CHARSET_STANDARD (Some 0) true true) = Ok r /\
    r_ascii r = gridText (fun _ _ => "+"%string) 3 3.
Proof.
  destruct (@contrast_zero_flattens Qsqrt6 column3x3
              (heightGiven 3 3 CHARSET_STANDARD (Some 0) true true))
    as (r & H & c & Hr & EH & Hc & Ht);
    [ exact Qsqrt6_zero | reflexivity | reflexivity | reflexivity
    | cbn; lia | intros h [= <-]; lia | reflexivity | discriminate | ].
  exists r. split; [exact Hr|].
  assert (E : canvasToASCII (NUM := QNum Qsqrt6) column3x3
                (heightGiven 3 3 CHARSET_STANDARD (Some 0) true true)
              = Ok {| r_ascii := gridText (fun _ _ => "+"%string) 3 3;
                      r_width := 3; r_height := Some 3%Z |})
    by (vm_compute; reflexivity).
  rewrite E in Hr. injection Hr as <-. reflexivity.
Defined.

(** The same in binary64. *)
Example contrast_zero_binary64 :
  canvasToASCII (NUM := F64.Num) column3x3
    (heightGiven 3 3 CHARSET_STANDARD (Some (F64.of_Z 0)) true true)
  = Ok {| r_ascii := gridText (fun _ _ => "+"%string) 3 3;
          r_width := 3; r_height := Some 3%Z |}.
Proof. vm_compute. reflexivity. Qed.

Lemma luminanceIndex_le (qsqrt : Q -> Q) (cs : string) (l1 l2 : Q) :
  cs <> EmptyString -> l1 <= l2 ->
  exists i1 i2,
    luminanceIndex (NUM := QNum qsqrt) l1 cs = Some i1 /\
    luminanceIndex (NUM := QNum qsqrt) l2 cs = Some i2 /\
    (i1 <= i2)%Z.
Proof.
  intros Hcs Hl. rewrite !luminanceIndex_exact. do 2 eexists.
  split; [reflexivity|]. split; [reflexivity|].
  apply Z.min_le_compat_r. apply Qfloor_resp_le.
  assert (0 <= inject_Z (Z.of_nat (String.length cs) - 1)).
  { change 0 with (inject_Z 0). rewrite <- Zle_Qle.
    destruct cs; [congruence | simpl String.length; lia]. }
  nra.
Qed.

Section EnhanceExact.
Variable qsqrt : Q -> Q.
Local Hint Extern 0 (Number Q) => exact (QNum qsqrt) : typeclass_instances.

Lemma enhanced_le (raw : Z -> Z -> Q) (W H : Z) (e : bool) (x y : Z) :
  (forall q, 0 <= qsqrt q) -> 0 <= raw x y <= 1 ->
  enhanced raw W H e x y <= raw x y.
Proof.
  intros Hsqrt Hr. unfold enhanced.
  destruct (e && interior W H x y); [|lra].
  unfold clamp01, gradientMagnitude.
  cbn [nmax nmin nsub nmul nadd nsqrt nlit nofZ QNum].
  change (inject_Z 0) with 0. change (inject_Z 1) with 1.
  match goal with
  | |- Qmax 0 (Qmin 1 (_ - qsqrt ?a * _)) <= _ =>
      pose proof (Hsqrt a) as Hg; set (g := qsqrt a) in *
  end.
  apply Q.max_lub; [lra|].
  apply Qle_trans with (raw x y - g * (1 # 2)); [apply Q.le_min_r | lra].
Qed.

End EnhanceExact.

(** X20.  In exact arithmetic, for byte pixels and a square root that is
    never negative, in a conversion without inversion or with a contrast
    other than 1 (the clamp then keeps the first pass in [0,1]): edge
    enhancement never brightens a cell.  The luminance a cell is displayed
    with is at most its first-pass luminance, and the index of its
    character in the ramp is at most the index it has without
    enhancement.  (With inversion at contrast 1 binary64 can leave [0,1],
    and the clamp of the enhancement then lifts the cell: see
    [inverted_translucent_white_binary64].) *)
Theorem enhancement_never_brightens (qsqrt : Q -> Q)
    (canvas : HTMLCanvasElement) (options : ASCIIMapperOptions Q) (x y : Z) :
  (forall q, 0 <= qsqrt q) ->
  Forall (fun v => (0 <= v <= 255)%Z) (canvas_pixels canvas) ->
  dflt (o_invert options) false = false \/
  ~ dflt (o_contrast options) 1 == 1 ->
  let cs := dflt (o_characterSet options) CHARSET_STANDARD in
  let raw := rawLuminance (NUM := QNum qsqrt) canvas options in
  let W := fst (targetDimensions (NUM := QNum qsqrt) canvas options) in
  let H := dflt (snd (targetDimensions (NUM := QNum qsqrt) canvas options))
             0%Z in
  cs <> EmptyString ->
  enhanced (NUM := QNum qsqrt) raw W H true x y
  <= enhanced (NUM := QNum qsqrt) raw W H false x y /\
  exists i j,
    luminanceIndex (NUM := QNum qsqrt)
      (enhanced (NUM := QNum qsqrt) raw W H true x y) cs = Some i /\
    luminanceIndex (NUM := QNum qsqrt)
      (enhanced (NUM := QNum qsqrt) raw W H false x y) cs = Some j /\
    (i <= j)%Z.
Proof.
  intros Hsqrt HF _ cs raw W H Hcs.
  change (enhanced (NUM := QNum qsqrt) raw W H false x y) with (raw x y).
  assert (Hle : enhanced (NUM := QNum qsqrt) raw W H true x y <= raw x y).
  { apply enhanced_le; [exact Hsqrt|]. now apply rawLuminance_unit. }
  split; [exact Hle|]. now apply luminanceIndex_le.
Qed.

Lemma Qsqrt6_nonneg (q : Q) : 0 <= Qsqrt6 q.
Proof.
  unfold Qsqrt6, Qle. cbn [Qnum Qden]. rewrite Z.mul_1_r. cbn [Z.mul].
  apply Z.sqrt_nonneg.
Qed.

Lemma enhancement_never_brightens_witness :
  exists i j,
    luminanceIndex (NUM := QNum Qsqrt6)
      (enhanced (NUM := QNum Qsqrt6)
         (rawLuminance (NUM := QNum Qsqrt6) column3x3 (grid3x3 true))
         3 3 true 1 1) CHARSET_STANDARD = Some i /\
    luminanceIndex (NUM := QNum Qsqrt6)
      (enhanced (NUM := QNum Qsqrt6)
         (rawLuminance (NUM := QNum Qsqrt6) column3x3 (grid3x3 true))
         3 3 false 1 1) CHARSET_STANDARD = Some j /\
    (i <= j)%Z.
Proof.
  destruct (@enhancement_never_brightens Qsqrt6 column3x3 (grid3x3 true) 1 1)
    as [_ H].
  - exact Qsqrt6_nonneg.
  - cbn [canvas_pixels column3x3]. repeat constructor; lia.
  - left. reflexivity.
  - discriminate.
  - exact H.
Defined.

(** ** Luminance outside [0,1] *)

(** X22.  In exact arithmetic, on a ramp of two or more characters,
    [luminanceToChar] caps the index from above only: every luminance of 1
    or more gives the last character of the ramp, and every luminance
    below 0 gives no character at all ([undefined]). *)
Theorem luminanceToChar_out_of_range (qsqrt : Q -> Q) (l : Q) (cs : string) :
  (2 <= String.length cs)%nat ->
  (1 <= l ->
   luminanceToChar (NUM := QNum qsqrt) l cs
   = String.get (String.length cs - 1) cs) /\
  (l < 0 -> luminanceToChar (NUM := QNum qsqrt) l cs = None).
Proof.
  intros Hn. unfold luminanceToChar. rewrite luminanceIndex_exact.
  set (n := Z.of_nat (String.length cs)).
  assert (Hk : 1 <= inject_Z (n - 1)).
  { change 1 with (inject_Z 1). rewrite <- Zle_Qle. subst n. lia. }
  split; intros Hl.
  - assert (F : (n - 1 <= Qfloor (l * inject_Z (n - 1)))%Z)
      by (apply Qfloor_lower; nra).
    rewrite Z.min_r by exact F.
    destruct (@charAt_in_range (n - 1)%Z cs) as [G _]; [subst n; lia|].
    rewrite G. f_equal. subst n. lia.
  - assert (F : (Qfloor (l * inject_Z (n - 1)) < 0)%Z).
    { assert (Qfloor (l * inject_Z (n - 1)) <= -1)%Z; [|lia].
      apply Z.lt_succ_r. change (Z.succ (-1)) with 0%Z.
      rewrite Zlt_Qlt. apply Qle_lt_trans with (l * inject_Z (n - 1)).
      - apply Qfloor_le.
      - change (inject_Z 0) with 0. nra. }
    apply charAt_negative. lia.
Qed.

Lemma luminanceToChar_out_of_range_witness :
  luminanceToChar (NUM := QNum Qsqrt6) (3 # 2) CHARSET_STANDARD
  = Some " "%char /\
  luminanceToChar (NUM := QNum Qsqrt6) (- (1 # 100)) CHARSET_STANDARD = None.
Proof.
  destruct (@luminanceToChar_out_of_range Qsqrt6 (3 # 2) CHARSET_STANDARD)
    as [Hhi _]; [cbn; lia|].
  destruct (@luminanceToChar_out_of_range Qsqrt6 (- (1 # 100))
              CHARSET_STANDARD) as [_ Hlo]; [cbn; lia|].
  split; [rewrite Hhi; [reflexivity | discriminate]|].
  apply Hlo. reflexivity.
Defined.

(** ** The path parser *)

Lemma pathCommand_type {num : Type} (parseFloat : string -> option num)
    (m : ascii * string) :
  map commandType (pathCommand parseFloat m)
  = if handledLetter (toUpperCase (fst m)) then [toUpperCase (fst m)] else [].
Proof.
  unfold pathCommand, handledLetter, includes. cbv zeta.
  cbn [list_ascii_of_string existsb].
  set (t := toUpperCase (fst m)).
  repeat match goal with
         | |- context [Ascii.eqb t ?k] =>
             let E := fresh "E" in
             destruct (Ascii.eqb t k) eqn:E;
             [apply Ascii.eqb_eq in E; rewrite E; reflexivity|]
         end.
  reflexivity.
Qed.

Lemma matches_letters (s : string) :
  map fst (matches s) = filter isCommandLetter (list_ascii_of_string s).
Proof.
  induction s as [|c rest IH]; cbn [matches list_ascii_of_string filter];
    [reflexivity|].
  destruct (isCommandLetter c); cbn [map fst]; now rewrite IH.
Qed.

(** X21.  For any [parseFloat]: [parseSVGPath] pushes one command for each
    letter M, L, H, V, C, Q or Z of the path data, upper or lower case, in
    order, and nothing else: the letters S, T and A are matched and
    dropped, a lower-case (relative) letter gives the command of its
    upper-case (absolute) one, and numbers beyond a letter's own make no
    further command. *)
Theorem parseSVGPath_commands {num : Type}
    (parseFloat : string -> option num) (pathData : string) :
  map commandType (parseSVGPath parseFloat pathData)
  = filter handledLetter
      (map toUpperCase
         (filter isCommandLetter (list_ascii_of_string pathData))).
Proof.
  unfold parseSVGPath. rewrite <- matches_letters.
  induction (matches pathData) as [|m ms IH]; cbn [flat_map map filter];
    [reflexivity|].
  rewrite map_app, pathCommand_type, IH.
  destruct (handledLetter (toUpperCase (fst m))); reflexivity.
Qed.

Example parseSVGPath_sample :
  parseSVGPath (fun _ => @None Z) "M0 0 l5,5 S1 2 3 4 a1 1 0 0 1 2 2 10 10z"
  = [CmdM None None; CmdL None None; CmdZ].
Proof. vm_compute. reflexivity. Qed.

Example pathArguments_sample :
  splitRuns isSeparator EmptyString false (trim "  10,20  30 ,, 40, ")
  = ["10"; "20"; "30"; "40"; ""]%string.
Proof. vm_compute. reflexivity. Qed.

